(** * QBER active compensation: the ELL14 stage driver and the polarization optimizer

  A shallow embedding of [ELL14.py] (class [ElliptecController]), of
  [Compensation.py] (class [ContinuousPolarizationOptimizer]) and of
  [qber_map.py] (class [QBERWaveplateMapper] and the scan script), with the
  properties of the design specification stated and settled against it.

  Modelling conventions.
  - Floats are read in two ways, each in modules of its own.
    In [ELL14], [Compensation] and [QberMap] a finite Python/NumPy float is
    an exact rational ([Q]) and only the special values of a NumPy division
    (infinities, NaN) are kept, in [float64]; this reading carries the
    properties that do not depend on how a result is rounded.
    In [ELL14_64], [Compensation_64] and [QberMap_64] a float is a binary64
    value ([Binary64.double], the [spec_float] of the Standard Library):
    every operation rounds to nearest, ties to even, with both zeros, the
    infinities and NaN, and the conversions raise as Python's do
    ([int] of NaN or of an infinity, [**] out of range).  The properties in
    which rounding, overflow or NaN decide the outcome are settled there.
  - In the binary64 modules [x ** 2] is the rounded product [x * x], the
    parameter [degrees] of the moves is a [float] as annotated, and
    [np.arange] fills its array without fused multiply-add.
  - A Python [int] is a [Z]; a [str] is a [string] of ASCII characters, the
    only ones the protocol uses ([encode('ascii')] of other text is outside
    the model); the bytes a [readline] returns are a [string] of any bytes.
  - An exception is a value of [exn] carried by [result].
  - The serial link is a log of the frames written plus the device, an
    arbitrary function from that log to the line the next [readline] gets.
  - Output on stdout ([print]) and delays ([time.sleep]) are not state. *)

From Stdlib Require Import ZArith QArith Qround Qabs Lia Lqa.
From Stdlib Require Import Bool List String Ascii DecimalString.
From Stdlib Require Import SpecFloat.
Import ListNotations.

Local Open Scope Z_scope.

(** ** Python values and built-ins *)

Module Py.

Inductive exn : Type :=
| ValueError
| OverflowError
| ZeroDivisionError
| IndexError.

Inductive result (A : Type) : Type :=
| Ok (a : A)
| Raise (e : exn).
Arguments Ok {A} a.
Arguments Raise {A} e.

Definition bind {A B : Type} (m : result A) (k : A -> result B) : result B :=
  match m with
  | Ok a => k a
  | Raise e => Raise e
  end.

Notation "x <- c1 ;; c2" := (bind c1 (fun x => c2))
  (at level 61, c1 at next level, right associativity).
Notation "' pat <- c1 ;; c2" := (bind c1 (fun x => match x with pat => c2 end))
  (at level 61, pat pattern, c1 at next level, right associativity).

Definition Qltb (x y : Q) : bool := negb (Qle_bool y x).

(** [int(x)] on a finite float: truncation toward zero. *)
Definition int_of_float (x : Q) : Z := Z.quot (Qnum x) (Zpos (Qden x)).

(** [round(x)] on a finite float: the nearest integer, a tie going to the
    even neighbour. *)
Definition round_half_even (x : Q) : Z :=
  let f := Qfloor x in
  match (x - inject_Z f ?= 1 # 2)%Q with
  | Lt => f
  | Gt => f + 1
  | Eq => if Z.even f then f else f + 1
  end.

(** [round(x, 2)]: rounding to two decimal places (ties to even). *)
Definition round2 (x : Q) : Q := inject_Z (round_half_even (x * 100)) / 100.

(** *** Strings *)

(** Whitespace as [str.strip] sees it on ASCII text: TAB..CR, FS..US and
    the space. *)
Definition is_space (c : ascii) : bool :=
  let n := N_of_ascii c in
  (((9 <=? n) && (n <=? 13)) || ((28 <=? n) && (n <=? 32)))%N.

(** Whitespace as [int] sees it on ASCII text: TAB..CR and the space only.
    The separators FS..US, which [str.strip] removes, are not skipped: a
    field that holds one is a [ValueError]. *)
Definition is_int_space (c : ascii) : bool :=
  let n := N_of_ascii c in
  (((9 <=? n) && (n <=? 13)) || (n =? 32))%N.

Fixpoint lstrip (l : list ascii) : list ascii :=
  match l with
  | c :: r => if is_space c then lstrip r else l
  | [] => []
  end.

Definition strip (l : list ascii) : list ascii :=
  rev (lstrip (rev (lstrip l))).

(** The blanks [int] skips before the sign and after the digits. *)
Fixpoint skip_int_space (l : list ascii) : list ascii :=
  match l with
  | c :: r => if is_int_space c then skip_int_space r else l
  | [] => []
  end.

(** [s[-8:]]: the last eight characters, the whole of a shorter string. *)
Definition last8 (l : list ascii) : list ascii :=
  skipn (List.length l - 8) l.

(** [bytes.decode('ascii', errors='ignore')]: bytes above 127 are dropped. *)
Definition decode_ascii_ignore (l : list ascii) : list ascii :=
  filter (fun c => (N_of_ascii c <? 128)%N) l.

Definition digit_value (c : ascii) : option Z :=
  let n := Z.of_N (N_of_ascii c) in
  if (48 <=? n) && (n <=? 57) then Some (n - 48)
  else if (65 <=? n) && (n <=? 70) then Some (n - 55)
  else if (97 <=? n) && (n <=? 102) then Some (n - 87)
  else None.

Definition is_char (code : N) (c : ascii) : bool := (N_of_ascii c =? code)%N.
Definition is_underscore : ascii -> bool := is_char 95.
Definition is_plus : ascii -> bool := is_char 43.
Definition is_minus : ascii -> bool := is_char 45.
Definition is_zero : ascii -> bool := is_char 48.
Definition is_x : ascii -> bool := fun c => is_char 120 c || is_char 88 c.

(** The digit loop of [int(s, 16)]: hexadecimal digits, single underscores
    allowed between them; [prev_us] tells that the previous character was
    an underscore.  Returns the value, the number of digits and the rest. *)
Fixpoint scan_digits (acc : Z) (ndigits : nat) (prev_us : bool)
         (l : list ascii) : option (Z * nat * list ascii) :=
  match l with
  | [] => if prev_us then None else Some (acc, ndigits, [])
  | c :: r =>
      if is_underscore c then
        if prev_us then None else scan_digits acc ndigits true r
      else
        match digit_value c with
        | Some d => scan_digits (16 * acc + d) (S ndigits) false r
        | None => if prev_us then None else Some (acc, ndigits, l)
        end
  end.

Definition skip_sign (l : list ascii) : bool * list ascii :=
  match l with
  | c :: r =>
      if is_plus c then (false, r)
      else if is_minus c then (true, r)
      else (false, l)
  | [] => (false, l)
  end.

Definition skip_prefix (l : list ascii) : list ascii :=
  match l with
  | c0 :: c1 :: r =>
      if is_zero c0 && is_x c1 then
        match r with
        | u :: r' => if is_underscore u then r' else r
        | [] => r
        end
      else l
  | _ => l
  end.

Definition starts_with_underscore (l : list ascii) : bool :=
  match l with
  | c :: _ => is_underscore c
  | [] => false
  end.

(** [int(s, 16)] on ASCII text: surrounding blanks, an optional sign,
    an optional [0x]/[0X] prefix (one underscore may follow it), then the
    digits; anything else is a [ValueError]. *)
Definition int16_chars (l : list ascii) : result Z :=
  let '(neg, l) := skip_sign (skip_int_space l) in
  let l := skip_prefix l in
  if starts_with_underscore l then Raise ValueError
  else
    match scan_digits 0 0%nat false l with
    | None => Raise ValueError
    | Some (v, n, rest) =>
        match n, skip_int_space rest with
        | S _, [] => Ok (if neg then - v else v)
        | _, _ => Raise ValueError
        end
    end.

Definition int16 (s : string) : result Z :=
  int16_chars (list_ascii_of_string s).

Definition hex_upper (d : Z) : ascii :=
  ascii_of_N (Z.to_N (if d <? 10 then 48 + d else 55 + d)).

Fixpoint hex_digits (fuel : nat) (n : Z) (acc : list ascii) : list ascii :=
  let acc' := hex_upper (n mod 16) :: acc in
  match fuel with
  | O => acc'
  | S f => if n / 16 =? 0 then acc' else hex_digits f (n / 16) acc'
  end.

(** [format(n, '08X')] for [n >= 0]: upper-case hexadecimal, padded with
    zeros on the left to at least eight characters. *)
Definition format_08X (n : Z) : string :=
  let ds := hex_digits (Z.to_nat (Z.log2 n)) n [] in
  string_of_list_ascii (repeat "0"%char (8 - List.length ds) ++ ds).

(** [str(n)] for an [int], as an f-string renders it. *)
Definition str_of_int (n : Z) : string := NilZero.string_of_int (Z.to_int n).

(** *** binary64 values with their special values *)

Inductive float64 : Type :=
| Fin (q : Q)
| PInf
| NInf
| NaN.

Definition fneg (x : float64) : float64 :=
  match x with
  | Fin q => Fin (- q)
  | PInf => NInf
  | NInf => PInf
  | NaN => NaN
  end.

Definition fadd (x y : float64) : float64 :=
  match x, y with
  | NaN, _ | _, NaN => NaN
  | PInf, NInf | NInf, PInf => NaN
  | PInf, _ | _, PInf => PInf
  | NInf, _ | _, NInf => NInf
  | Fin a, Fin b => Fin (a + b)
  end.

Definition fsub (x y : float64) : float64 := fadd x (fneg y).

Definition fmul (x y : float64) : float64 :=
  match x, y with
  | NaN, _ | _, NaN => NaN
  | Fin a, Fin b => Fin (a * b)
  | Fin a, PInf | PInf, Fin a =>
      if Qltb 0 a then PInf else if Qltb a 0 then NInf else NaN
  | Fin a, NInf | NInf, Fin a =>
      if Qltb 0 a then NInf else if Qltb a 0 then PInf else NaN
  | PInf, PInf | NInf, NInf => PInf
  | PInf, NInf | NInf, PInf => NInf
  end.

(** Division as NumPy performs it: by zero it gives an infinity, or NaN
    for [0 / 0], with a warning and no exception. *)
Definition fdiv (x y : float64) : float64 :=
  match x, y with
  | NaN, _ | _, NaN => NaN
  | Fin a, Fin b =>
      if Qeq_bool b 0 then
        if Qltb 0 a then PInf else if Qltb a 0 then NInf else NaN
      else Fin (a / b)
  | Fin _, (PInf | NInf) => Fin 0
  | PInf, Fin b => if Qltb b 0 then NInf else PInf
  | NInf, Fin b => if Qltb b 0 then PInf else NInf
  | (PInf | NInf), (PInf | NInf) => NaN
  end.

Definition flt (x y : float64) : bool :=
  match x, y with
  | NaN, _ | _, NaN => false
  | Fin a, Fin b => Qltb a b
  | NInf, (Fin _ | PInf) => true
  | Fin _, PInf => true
  | _, _ => false
  end.

Definition fabs (x : float64) : float64 :=
  match x with
  | Fin q => Fin (Qabs q)
  | PInf | NInf => PInf
  | NaN => NaN
  end.

(** [int(x)] on any float. *)
Definition int_of_float64 (x : float64) : result Z :=
  match x with
  | Fin q => Ok (int_of_float q)
  | PInf | NInf => Raise OverflowError
  | NaN => Raise ValueError
  end.

End Py.

(** ** The stage driver ([ELL14.py]) *)

Module ELL14.
Import Py.

(** The serial port shared by the stages: the frames written so far, and
    the device at the other end, which decides from them the bytes the
    next [readline] returns (nothing, on a timeout). *)
Record Serial : Type := {
  device : list string -> string;
  written : list string
}.

Definition ser_write (ser : Serial) (data : string) : Serial :=
  {| device := device ser; written := written ser ++ [data] |}.

Definition ser_readline (ser : Serial) : string := device ser (written ser).

Definition pulses_per_turn : Z := 143360.

Record ElliptecController : Type := {
  address : string;
  verbose : bool;
  position : Q
}.

Definition set_position (self : ElliptecController) (p : Q) : ElliptecController :=
  {| address := address self; verbose := verbose self; position := p |}.

(** The input and output buffers hold no pending bytes in this model of
    the link, so resetting them changes nothing. *)
Definition _purge (ser : Serial) : Serial := ser.

(** [ser] is the class attribute (absent before the first controller is
    built); [opened] is the port [serial.Serial(...)] opens. *)
Definition __init__ (ser : option Serial) (opened : Serial)
           (address : string) (verbose : bool)
  : result (ElliptecController * Serial) :=
  let ser := match ser with Some s => s | None => opened end in
  let ser := _purge ser in
  Ok ({| address := address; verbose := verbose; position := 0 |}, ser).

Definition _send_cmd (self : ElliptecController) (ser : Serial) (cmd : string)
  : string * Serial :=
  let full := (address self ++ cmd)%string in
  let ser := ser_write ser full in
  let ser := ser_write ser (String "013" (String "010" EmptyString)) in
  let resp := string_of_list_ascii
                (strip (decode_ascii_ignore
                          (list_ascii_of_string (ser_readline ser)))) in
  (resp, ser).

(** [int(degrees * self.pulses_per_turn / 360)] on exact values: the
    quotient is not rounded before the truncation and no finite angle
    overflows.  [ELL14_64._deg_to_pulses] is the binary64 reading. *)
Definition _deg_to_pulses (ppt : Z) (degrees : float64) : result Z :=
  int_of_float64 (fdiv (fmul degrees (Fin (inject_Z ppt))) (Fin 360)).

Definition _pulses_to_deg (ppt : Z) (pulses : Z) : result Q :=
  let pulses := if 0x80000000 <=? pulses then pulses - 0x100000000 else pulses in
  if ppt =? 0 then Raise ZeroDivisionError
  else Ok (inject_Z pulses * 360 / inject_Z ppt)%Q.

Definition _update_position (self : ElliptecController) (resp : string)
  : result ElliptecController :=
  let attempt :=
    let pos_hex := string_of_list_ascii (last8 (list_ascii_of_string resp)) in
    n <- int16 pos_hex ;;
    d <- _pulses_to_deg pulses_per_turn n ;;
    Ok (set_position self (round2 d)) in
  match attempt with
  | Raise ValueError => Ok self
  | r => r
  end.

Definition get_info (self : ElliptecController) (ser : Serial) : string * Serial :=
  _send_cmd self ser "in".

Definition get_status (self : ElliptecController) (ser : Serial) : string * Serial :=
  _send_cmd self ser "gs".

Definition get_position_deg (self : ElliptecController) : Q := position self.

(** What a command that updates the position returns: the controller, the
    port and the response. *)
Definition reply : Type := (ElliptecController * Serial * string)%type.

Definition send_and_update (self : ElliptecController) (ser : Serial)
           (cmd : string) : result reply :=
  let '(resp, ser) := _send_cmd self ser cmd in
  self <- _update_position self resp ;;
  Ok (self, ser, resp).

Definition home (self : ElliptecController) (ser : Serial) (direction : Z)
  : result reply :=
  send_and_update self ser ("ho" ++ str_of_int direction).

Definition move_absolute (self : ElliptecController) (ser : Serial) (pulses : Z)
  : result reply :=
  let hexval := format_08X (Z.land pulses 0xFFFFFFFF) in
  send_and_update self ser ("ma" ++ hexval).

Definition move_relative (self : ElliptecController) (ser : Serial) (pulses : Z)
  : result reply :=
  let hexval := format_08X (Z.land pulses 0xFFFFFFFF) in
  send_and_update self ser ("mr" ++ hexval).

Definition move_absolute_deg (self : ElliptecController) (ser : Serial)
           (degrees : float64) : result reply :=
  pulses <- _deg_to_pulses pulses_per_turn degrees ;;
  let hexval := format_08X (Z.land pulses 0xFFFFFFFF) in
  send_and_update self ser ("ma" ++ hexval).

Definition move_relative_deg (self : ElliptecController) (ser : Serial)
           (degrees : float64) : result reply :=
  pulses <- _deg_to_pulses pulses_per_turn degrees ;;
  let hexval := format_08X (Z.land pulses 0xFFFFFFFF) in
  send_and_update self ser ("mr" ++ hexval).

Definition stop (self : ElliptecController) (ser : Serial) : result reply :=
  send_and_update self ser "st".

End ELL14.

(** ** The polarization optimizer ([Compensation.py]) *)

Module Compensation.
Import Py ELL14.

(** The optimizer drives exactly two waveplates: [get_positions] reads
    the stages 0 and 1, the random search draws its stage from [0, 2) and
    the coordinate descent counts stages modulo 2.  Both controllers talk
    through the one port of their class, which is passed along with the
    optimizer.  The indices [_current_wp] and [_current_pos] start at 0 and
    1 and are only ever incremented modulo 2 and 3, hence [nat]. *)
Record ContinuousPolarizationOptimizer : Type := {
  _waveplates : ElliptecController * ElliptecController;
  _max_stepsize_deg : Q;
  _threshold : Q;
  _positions : Q * Q;
  _current_wp : nat;
  _current_pos : nat;
  _origin_position : Q;
  _qbers : Q * Q * Q;
  _n_stored : Z;
  _previous_qbers : list Q;
  _previous_positions : list (Q * Q)
}.

Definition set_waveplates (self : ContinuousPolarizationOptimizer) (v : ElliptecController * ElliptecController)
  : ContinuousPolarizationOptimizer :=
  {| _waveplates := v;
     _max_stepsize_deg := _max_stepsize_deg self;
     _threshold := _threshold self;
     _positions := _positions self;
     _current_wp := _current_wp self;
     _current_pos := _current_pos self;
     _origin_position := _origin_position self;
     _qbers := _qbers self;
     _n_stored := _n_stored self;
     _previous_qbers := _previous_qbers self;
     _previous_positions := _previous_positions self |}.

Definition set_positions (self : ContinuousPolarizationOptimizer) (v : Q * Q)
  : ContinuousPolarizationOptimizer :=
  {| _waveplates := _waveplates self;
     _max_stepsize_deg := _max_stepsize_deg self;
     _threshold := _threshold self;
     _positions := v;
     _current_wp := _current_wp self;
     _current_pos := _current_pos self;
     _origin_position := _origin_position self;
     _qbers := _qbers self;
     _n_stored := _n_stored self;
     _previous_qbers := _previous_qbers self;
     _previous_positions := _previous_positions self |}.

Definition set_current_wp (self : ContinuousPolarizationOptimizer) (v : nat)
  : ContinuousPolarizationOptimizer :=
  {| _waveplates := _waveplates self;
     _max_stepsize_deg := _max_stepsize_deg self;
     _threshold := _threshold self;
     _positions := _positions self;
     _current_wp := v;
     _current_pos := _current_pos self;
     _origin_position := _origin_position self;
     _qbers := _qbers self;
     _n_stored := _n_stored self;
     _previous_qbers := _previous_qbers self;
     _previous_positions := _previous_positions self |}.

Definition set_current_pos (self : ContinuousPolarizationOptimizer) (v : nat)
  : ContinuousPolarizationOptimizer :=
  {| _waveplates := _waveplates self;
     _max_stepsize_deg := _max_stepsize_deg self;
     _threshold := _threshold self;
     _positions := _positions self;
     _current_wp := _current_wp self;
     _current_pos := v;
     _origin_position := _origin_position self;
     _qbers := _qbers self;
     _n_stored := _n_stored self;
     _previous_qbers := _previous_qbers self;
     _previous_positions := _previous_positions self |}.

Definition set_origin_position (self : ContinuousPolarizationOptimizer) (v : Q)
  : ContinuousPolarizationOptimizer :=
  {| _waveplates := _waveplates self;
     _max_stepsize_deg := _max_stepsize_deg self;
     _threshold := _threshold self;
     _positions := _positions self;
     _current_wp := _current_wp self;
     _current_pos := _current_pos self;
     _origin_position := v;
     _qbers := _qbers self;
     _n_stored := _n_stored self;
     _previous_qbers := _previous_qbers self;
     _previous_positions := _previous_positions self |}.

Definition set_qbers (self : ContinuousPolarizationOptimizer) (v : Q * Q * Q)
  : ContinuousPolarizationOptimizer :=
  {| _waveplates := _waveplates self;
     _max_stepsize_deg := _max_stepsize_deg self;
     _threshold := _threshold self;
     _positions := _positions self;
     _current_wp := _current_wp self;
     _current_pos := _current_pos self;
     _origin_position := _origin_position self;
     _qbers := v;
     _n_stored := _n_stored self;
     _previous_qbers := _previous_qbers self;
     _previous_positions := _previous_positions self |}.

Definition set_previous_qbers (self : ContinuousPolarizationOptimizer) (v : list Q)
  : ContinuousPolarizationOptimizer :=
  {| _waveplates := _waveplates self;
     _max_stepsize_deg := _max_stepsize_deg self;
     _threshold := _threshold self;
     _positions := _positions self;
     _current_wp := _current_wp self;
     _current_pos := _current_pos self;
     _origin_position := _origin_position self;
     _qbers := _qbers self;
     _n_stored := _n_stored self;
     _previous_qbers := v;
     _previous_positions := _previous_positions self |}.

Definition set_previous_positions (self : ContinuousPolarizationOptimizer) (v : list (Q * Q))
  : ContinuousPolarizationOptimizer :=
  {| _waveplates := _waveplates self;
     _max_stepsize_deg := _max_stepsize_deg self;
     _threshold := _threshold self;
     _positions := _positions self;
     _current_wp := _current_wp self;
     _current_pos := _current_pos self;
     _origin_position := _origin_position self;
     _qbers := _qbers self;
     _n_stored := _n_stored self;
     _previous_qbers := _previous_qbers self;
     _previous_positions := v |}.

(** [t[i]] on a tuple of two, and on an array of three. *)
Definition getitem2 {A : Type} (t : A * A) (i : nat) : result A :=
  match i with
  | 0%nat => Ok (fst t)
  | 1%nat => Ok (snd t)
  | _ => Raise IndexError
  end.

(** The object at [t[i]] was mutated into [a]. *)
Definition mutated2 {A : Type} (t : A * A) (i : nat) (a : A) : A * A :=
  match i with
  | 0%nat => (a, snd t)
  | _ => (fst t, a)
  end.

Definition setitem3 {A : Type} (t : A * A * A) (i : nat) (a : A)
  : result (A * A * A) :=
  let '(x0, x1, x2) := t in
  match i with
  | 0%nat => Ok (a, x1, x2)
  | 1%nat => Ok (x0, a, x2)
  | 2%nat => Ok (x0, x1, a)
  | _ => Raise IndexError
  end.

(** [np.min] and [np.argmin] (the first index of the minimum); [np.min]
    of an empty array is a [ValueError]. *)
Fixpoint min_from (best : Q) (l : list Q) : Q :=
  match l with
  | [] => best
  | x :: r => if Qltb x best then min_from x r else min_from best r
  end.

Fixpoint argmin_from (best : Q) (besti i : nat) (l : list Q) : nat :=
  match l with
  | [] => besti
  | x :: r =>
      if Qltb x best then argmin_from x i (S i) r
      else argmin_from best besti (S i) r
  end.

Definition np_min (l : list Q) : result Q :=
  match l with
  | [] => Raise ValueError
  | x :: r => Ok (min_from x r)
  end.

Definition np_argmin (l : list Q) : result nat :=
  match l with
  | [] => Raise ValueError
  | x :: r => Ok (argmin_from x 0 1 r)
  end.

Definition getitem {A : Type} (l : list A) (i : nat) : result A :=
  match nth_error l i with
  | Some a => Ok a
  | None => Raise IndexError
  end.

Definition __init__ (waveplates : ElliptecController * ElliptecController)
           (max_stepsize_deg threshold : Q) (n_stored : Z)
  : result ContinuousPolarizationOptimizer :=
  Ok
  {| _waveplates := waveplates;
     _max_stepsize_deg := max_stepsize_deg;
     _threshold := threshold;
     _positions := (0, 0)%Q;
     _current_wp := 0;
     _current_pos := 1;
     _origin_position := 0;
     _qbers := (1 # 10, 1 # 10, 1 # 10)%Q;
     _n_stored := n_stored;
     _previous_qbers := [1 # 2]%Q;
     _previous_positions := [(0, 0)%Q] |}.

Definition get_positions (self : ContinuousPolarizationOptimizer) : Q * Q :=
  (get_position_deg (fst (_waveplates self)),
   get_position_deg (snd (_waveplates self))).

(** The body of the [try] of [random_minimizer]: the choice of the
    operating point and the recording of the sample. *)
Definition random_minimizer_try (self : ContinuousPolarizationOptimizer)
           (qber : Q) : result ContinuousPolarizationOptimizer :=
  let positions := get_positions self in
  m <- np_min (_previous_qbers self) ;;
  chosen <- (if Qltb qber m then Ok positions
             else i <- np_argmin (_previous_qbers self) ;;
                  getitem (_previous_positions self) i) ;;
  let self := set_positions self chosen in
  if Z.of_nat (List.length (_previous_qbers self)) <? _n_stored self then
    Ok (set_previous_positions
          (set_previous_qbers self (_previous_qbers self ++ [qber]))
          (_previous_positions self ++ [positions]))
  else
    Ok (set_previous_positions
          (set_previous_qbers self (tl (_previous_qbers self) ++ [qber]))
          (tl (_previous_positions self) ++ [positions])).

(** [delta_phi] and [wp] are the two random draws of the step. *)
Definition random_minimizer (self : ContinuousPolarizationOptimizer)
           (ser : Serial) (qber : Q) (delta_phi : Q) (wp : nat)
  : result (ContinuousPolarizationOptimizer * Serial) :=
  let self :=
    match random_minimizer_try self qber with
    | Ok self' => self'
    | Raise _ => self
    end in
  w <- getitem2 (_waveplates self) wp ;;
  '(w, ser, _) <- move_relative_deg w ser (Fin delta_phi) ;;
  let self := set_waveplates self (mutated2 (_waveplates self) wp w) in
  Ok (set_positions self (get_positions self), ser).

(** [self._waveplates[self._current_wp].move_absolute_deg(degrees)] *)
Definition move_current (self : ContinuousPolarizationOptimizer)
           (ser : Serial) (degrees : float64)
  : result (ContinuousPolarizationOptimizer * Serial) :=
  w <- getitem2 (_waveplates self) (_current_wp self) ;;
  '(w, ser, _) <- move_absolute_deg w ser degrees ;;
  Ok (set_waveplates self (mutated2 (_waveplates self) (_current_wp self) w),
      ser).

(** The branch [if self._current_pos == 0] of the coordinate descent, on
    exact values: no difference or quotient is rounded and the square never
    overflows.  [Compensation_64.compute_and_move] is the binary64
    reading. *)
Definition compute_and_move (self : ContinuousPolarizationOptimizer)
           (ser : Serial) (position : Q)
  : result (ContinuousPolarizationOptimizer * Serial) :=
  let '(q_l, q, q_r) := _qbers self in
  let dQ_dV := fdiv (Fin (q_r - q_l)) (Fin (2 * _max_stepsize_deg self)) in
  let dQ2_dV2 := Fin (q_r - 2 * q + q_l) in
  let dQ2_dV2 := fdiv dQ2_dV2 (Fin (_max_stepsize_deg self ^ 2)) in
  let step := fdiv dQ_dV dQ2_dV2 in
  let sign := if flt step (Fin 0) then (-1)%Q else 1%Q in
  let step := if flt (Fin 5) (fabs step) then Fin (sign * 5) else step in
  if flt (Fin 0) dQ2_dV2 then move_current self ser (fsub (Fin position) step)
  else move_current self ser (fadd (Fin position) step).

(** The end of a descent step: refresh the positions, advance the probe
    slot and, when it wraps to the centre, the stage. *)
Definition advance (self : ContinuousPolarizationOptimizer)
  : ContinuousPolarizationOptimizer :=
  let self := set_positions self (get_positions self) in
  let self := set_current_pos self (S (_current_pos self)) in
  let self := set_current_pos self (_current_pos self mod 3)%nat in
  if (_current_pos self =? 1)%nat then
    let self := set_current_wp self (S (_current_wp self)) in
    set_current_wp self (_current_wp self mod 2)%nat
  else self.

Definition coordinate_descent_2nd_order (self : ContinuousPolarizationOptimizer)
           (ser : Serial) (qber : Q)
  : result (ContinuousPolarizationOptimizer * Serial) :=
  if Qltb qber (_threshold self) then
    Ok (set_current_pos (set_current_wp self 0) 1, ser)
  else
    '(self, position) <-
      (if (_current_pos self =? 1)%nat then
         w <- getitem2 (_waveplates self) (_current_wp self) ;;
         let position := get_position_deg w in
         Ok (set_origin_position self position, position)
       else Ok (self, _origin_position self)) ;;
    qs <- setitem3 (_qbers self) (_current_pos self) qber ;;
    let self := set_qbers self qs in
    '(self, ser) <-
      (if (_current_pos self =? 1)%nat then
         move_current self ser (Fin (position + _max_stepsize_deg self))
       else Ok (self, ser)) ;;
    '(self, ser) <-
      (if (_current_pos self =? 2)%nat then
         move_current self ser (Fin (position - _max_stepsize_deg self))
       else Ok (self, ser)) ;;
    '(self, ser) <-
      (if (_current_pos self =? 0)%nat then
         compute_and_move self ser position
       else Ok (self, ser)) ;;
    Ok (advance self, ser).

End Compensation.

(** ** The QBER map ([qber_map.py]) *)

Module QberMap.
Import Py ELL14.

(** [np.arange(start, stop, step)] on exact values:
    [ceil((stop - start) / step)] values, none when that is not positive,
    from [start] in steps of [step]; a step of zero is a
    [ZeroDivisionError].  NumPy takes the length from the rounded quotient:
    [QberMap_64.np_arange] is the binary64 reading. *)
Definition np_arange (start stop step : Q) : result (list Q) :=
  if Qeq_bool step 0 then Raise ZeroDivisionError
  else Ok (map (fun i : nat => start + inject_Z (Z.of_nat i) * step)
               (seq 0 (Z.to_nat (Qceiling ((stop - start) / step)))))%Q.

(** [np.zeros((rows, cols))], as a list of rows. *)
Definition np_zeros (rows cols : nat) : list (list Q) :=
  repeat (repeat 0%Q cols) rows.

(** The counter the class keeps is an object of the measurement library and
    has no field here. *)
Record QBERWaveplateMapper : Type := {
  wp_1 : ElliptecController;
  wp_2 : ElliptecController;
  step_wp1 : Q;
  step_wp2 : Q;
  indiv_meas_duration : Q;
  filename : string;
  angles_wp1 : list Q;
  angles_wp2 : list Q;
  qber_map : list (list Q)
}.

Definition __init__ (waveplates : ElliptecController * ElliptecController)
           (step_wp1 step_wp2 indiv_meas_duration : Q) (filename : string)
  : result QBERWaveplateMapper :=
  angles_wp1 <- np_arange (- (180)) (180 + step_wp1) step_wp1 ;;
  angles_wp2 <- np_arange (- (180)) (180 + step_wp2) step_wp2 ;;
  Ok {| wp_1 := fst waveplates;
        wp_2 := snd waveplates;
        step_wp1 := step_wp1;
        step_wp2 := step_wp2;
        indiv_meas_duration := indiv_meas_duration;
        filename := filename;
        angles_wp1 := angles_wp1;
        angles_wp2 := angles_wp2;
        qber_map := np_zeros (List.length angles_wp2) (List.length angles_wp1) |}.

(** *** The script: the double loop over the grid *)

(** [cts_h / (cts_h + cts_v) if (cts_h + cts_v) > 0 else 0] *)
Definition qber_of_counts (cts_h cts_v : Q) : Q :=
  if Qltb 0 (cts_h + cts_v) then (cts_h / (cts_h + cts_v))%Q else 0%Q.

(** [l[i] = a] on an array. *)
Fixpoint setitem {A : Type} (l : list A) (i : nat) (a : A) : result (list A) :=
  match l, i with
  | [], _ => Raise IndexError
  | _ :: r, O => Ok (a :: r)
  | x :: r, S i => r' <- setitem r i a ;; Ok (x :: r')
  end.

(** [m[j, i] = v] on an array of two dimensions. *)
Definition setitem2d (m : list (list Q)) (j i : nat) (v : Q)
  : result (list (list Q)) :=
  match nth_error m j with
  | None => Raise IndexError
  | Some row => row' <- setitem row i v ;; setitem m j row'
  end.

(** The variables of the script that the loop changes.  The lines written
    to the text file and to the console are outputs only. *)
Record Scan : Type := {
  scan_wp_1 : ElliptecController;
  scan_wp_2 : ElliptecController;
  scan_ser : Serial;
  scan_map : list (list Q)
}.

(** The inner loop, over the angles of the second waveplate from index
    [j] on; [counts i j] are the two count rates read at that grid point. *)
Fixpoint scan_row (counts : nat -> nat -> Q * Q) (i : nat) (angle_wp1 : Q)
         (j : nat) (angles : list Q) (st : Scan) : result Scan :=
  match angles with
  | [] => Ok st
  | angle_wp2 :: rest =>
      '(w1, ser, _) <- move_absolute_deg (scan_wp_1 st) (scan_ser st)
                                         (Fin angle_wp1) ;;
      '(w2, ser, _) <- move_absolute_deg (scan_wp_2 st) ser (Fin angle_wp2) ;;
      let '(cts_h, cts_v) := counts i j in
      let qber := qber_of_counts cts_h cts_v in
      m <- setitem2d (scan_map st) j i qber ;;
      scan_row counts i angle_wp1 (S j) rest
               {| scan_wp_1 := w1; scan_wp_2 := w2; scan_ser := ser;
                  scan_map := m |}
  end.

(** The outer loop, over the angles of the first waveplate from index [i]
    on. *)
Fixpoint scan_grid (counts : nat -> nat -> Q * Q) (i : nat)
         (angles_wp1 angles_wp2 : list Q) (st : Scan) : result Scan :=
  match angles_wp1 with
  | [] => Ok st
  | angle_wp1 :: rest =>
      st <- scan_row counts i angle_wp1 0 angles_wp2 st ;;
      scan_grid counts (S i) rest angles_wp2 st
  end.

(** The script, from the grid to the end of the double loop; [step_wp1]
    and [step_wp2] are the two parameters it sets (both 10). *)
Definition main (step_wp1 step_wp2 : Q) (opened : Serial)
           (counts : nat -> nat -> Q * Q) : result Scan :=
  angles_wp1 <- np_arange (- (180)) (180 + step_wp1) step_wp1 ;;
  angles_wp2 <- np_arange (- (180)) (180 + step_wp2) step_wp2 ;;
  let qber_map := np_zeros (List.length angles_wp2) (List.length angles_wp1) in
  '(wp_1, ser) <- ELL14.__init__ None opened "0" true ;;
  '(wp_2, ser) <- ELL14.__init__ (Some ser) opened "2" true ;;
  '(wp_1, ser, _) <- home wp_1 ser 0 ;;
  '(wp_2, ser, _) <- home wp_2 ser 0 ;;
  scan_grid counts 0 angles_wp1 angles_wp2
            {| scan_wp_1 := wp_1; scan_wp_2 := wp_2; scan_ser := ser;
               scan_map := qber_map |}.

End QberMap.

(** ** Vocabulary of the properties *)

Module DriverSpec.
Import Py ELL14.

Definition is_hex_digit (c : ascii) : bool :=
  match digit_value c with
  | Some _ => true
  | None => false
  end.

(** A field of exactly eight hexadecimal digits. *)
Definition is_hex8 (l : list ascii) : bool :=
  (List.length l =? 8)%nat && forallb is_hex_digit l.

Definition hex_value (l : list ascii) : Z :=
  fold_left (fun acc c => 16 * acc + match digit_value c with
                                     | Some d => d
                                     | None => 0
                                     end) l 0.

(** The field [resp[-8:]] that [_update_position] hands to [int]. *)
Definition pos_hex (resp : string) : list ascii :=
  last8 (list_ascii_of_string resp).

(** The 32-bit two's-complement reading of a raw pulse count. *)
Definition signed32 (pulses : Z) : Z :=
  if 0x80000000 <=? pulses then pulses - 0x100000000 else pulses.

(** The angle the device reports with the pulse count [n]. *)
Definition reported_deg (n : Z) : Q :=
  (inject_Z (signed32 n) * 360 / inject_Z pulses_per_turn)%Q.

End DriverSpec.

Module OptimizerSpec.
Import Py ELL14 Compensation.

Definition crlf : string := String "013" (String "010" EmptyString).

(** The frame of a move-absolute command to [deg] degrees. *)
Definition frame_ma (w : ElliptecController) (deg : Q) : string :=
  (address w ++ "ma" ++
   format_08X (Z.land (int_of_float (deg * inject_Z pulses_per_turn / 360))
                      0xFFFFFFFF))%string.

Definition q_left (self : ContinuousPolarizationOptimizer) : Q :=
  fst (fst (_qbers self)).
Definition q_center (self : ContinuousPolarizationOptimizer) : Q :=
  snd (fst (_qbers self)).
Definition q_right (self : ContinuousPolarizationOptimizer) : Q :=
  snd (_qbers self).

(** The angle the compute phase asks the stage to go to. *)
Definition newton_destination (self : ContinuousPolarizationOptimizer)
           (position : Q) : float64 :=
  let dQ_dV := fdiv (Fin (q_right self - q_left self))
                    (Fin (2 * _max_stepsize_deg self)) in
  let dQ2_dV2 := fdiv (Fin (q_right self - 2 * q_center self + q_left self))
                      (Fin (_max_stepsize_deg self ^ 2)) in
  let step := fdiv dQ_dV dQ2_dV2 in
  let sign := if flt step (Fin 0) then (-1)%Q else 1%Q in
  let step := if flt (Fin 5) (fabs step) then Fin (sign * 5) else step in
  if flt (Fin 0) dQ2_dV2 then fsub (Fin position) step
  else fadd (Fin position) step.

(** What holds of the history between two steps. *)
Definition well_formed (self : ContinuousPolarizationOptimizer) : Prop :=
  _previous_qbers self <> [] /\
  List.length (_previous_positions self) = List.length (_previous_qbers self).

(** The history after a sample is recorded into [buffer]. *)
Definition pushed {A : Type} (n_stored : Z) (buffer : list A) (a : A) : list A :=
  if Z.of_nat (List.length buffer) <? n_stored then buffer ++ [a]
  else tl buffer ++ [a].

(** The last [n] entries of a list. *)
Definition lastn {A : Type} (n : Z) (l : list A) : list A :=
  skipn (List.length l - Z.to_nat n) l.

(** A run of random-search steps, each with its sample and its two
    random draws. *)
Fixpoint random_search (steps : list (Q * Q * nat))
         (self : ContinuousPolarizationOptimizer) (ser : Serial)
  : result (ContinuousPolarizationOptimizer * Serial) :=
  match steps with
  | [] => Ok (self, ser)
  | (qber, delta_phi, wp) :: steps =>
      '(self, ser) <- random_minimizer self ser qber delta_phi wp ;;
      random_search steps self ser
  end.

Definition sample (s : Q * Q * nat) : Q := fst (fst s).
Definition stage_drawn (s : Q * Q * nat) : nat := snd s.

End OptimizerSpec.

Module Examples.
Import Py ELL14 Compensation.

(** A device that never answers: every [readline] times out. *)
Definition silent : list string -> string := fun _ => EmptyString.

Definition port : Serial := {| device := silent; written := [] |}.

Definition stage (a : string) : ElliptecController :=
  {| address := a; verbose := false; position := 0 |}.

(** The optimizer of the test run, with the default step of 2 degrees
    and threshold of 0.01. *)
Definition optimizer (n_stored : Z) : ContinuousPolarizationOptimizer :=
  {| _waveplates := (stage "0", stage "2");
     _max_stepsize_deg := 2;
     _threshold := 1 # 100;
     _positions := (0, 0)%Q;
     _current_wp := 0;
     _current_pos := 1;
     _origin_position := 0;
     _qbers := (1 # 10, 1 # 10, 1 # 10)%Q;
     _n_stored := n_stored;
     _previous_qbers := [1 # 2]%Q;
     _previous_positions := [(0, 0)%Q] |}.

(** An optimizer that remembers three operating points. *)
Definition remembering : ContinuousPolarizationOptimizer :=
  set_previous_positions
    (set_previous_qbers (optimizer 3) [5 # 100; 3 # 100; 4 # 100]%Q)
    [(10, 20); (30, 40); (50, 60)]%Q.

(** The optimizer of the test run in its compute phase, the centre and
    right samples taken. *)
Definition probing (q q_r : Q) : ContinuousPolarizationOptimizer :=
  set_current_pos (set_qbers (optimizer 1) (1 # 10, q, q_r)%Q) 0.

End Examples.

(** ** Vocabulary of the further properties *)

Module CoverageSpec.
Import Py ELL14 Compensation DriverSpec OptimizerSpec.

(** The eight characters a move command carries for [pulses]:
    [format(pulses & 0xFFFFFFFF, '08X')]. *)
Definition payload (pulses : Z) : list ascii :=
  list_ascii_of_string (format_08X (Z.land pulses 0xFFFFFFFF)).

(** One step of reading a hexadecimal numeral from the left. *)
Definition hex_step (acc : Z) (c : ascii) : Z :=
  16 * acc + match digit_value c with
             | Some d => d
             | None => 0
             end.

(** The characters [int(_, 16)] gives a meaning to: digits, the blanks it
    skips, the underscore, the signs and the [x] of a prefix. *)
Definition meaningful (c : ascii) : bool :=
  is_hex_digit c || is_int_space c || is_underscore c || is_plus c
  || is_minus c || is_x c.

(** A device that answers every command with the position report of the
    pulse count [pulses]. *)
Definition reporting (pulses : Z) : list string -> string :=
  fun _ => ("0PO" ++ string_of_list_ascii (payload pulses))%string.

(** What a descent step leaves alone: the configuration, the history of
    the random search and the stage at index [other]. *)
Definition kept (other : nat) (self : ContinuousPolarizationOptimizer) :=
  (_max_stepsize_deg self, _threshold self, _n_stored self,
   _previous_qbers self, _previous_positions self,
   getitem2 (_waveplates self) other).

(** The cell [m[j, i]] of an array of two dimensions. *)
Definition cell (m : list (list Q)) (j i : nat) : option Q :=
  match nth_error m j with
  | Some row => nth_error row i
  | None => None
  end.

(** An array of [rows] rows of [cols] entries each. *)
Definition shaped (rows cols : nat) (m : list (list Q)) : Prop :=
  List.length m = rows /\ Forall (fun row => List.length row = cols) m.

(** The commands of a scan of the grid, in the order they are sent. *)
Definition scan_frames (w1 w2 : ElliptecController)
           (angles_wp1 angles_wp2 : list Q) : list string :=
  flat_map (fun a1 =>
              flat_map (fun a2 => [frame_ma w1 a1; crlf; frame_ma w2 a2; crlf])
                       angles_wp2)
           angles_wp1.

(** The QBER the scan stores for the grid point [(i, j)]. *)
Definition measured (counts : nat -> nat -> Q * Q) (i j : nat) : Q :=
  QberMap.qber_of_counts (fst (counts i j)) (snd (counts i j)).

(** The measurement loop of the test run: one descent step per sample. *)
Fixpoint descent_run (qbers : list Q) (self : ContinuousPolarizationOptimizer)
         (ser : Serial) : result (ContinuousPolarizationOptimizer * Serial) :=
  match qbers with
  | [] => Ok (self, ser)
  | qber :: rest =>
      '(self, ser) <- coordinate_descent_2nd_order self ser qber ;;
      descent_run rest self ser
  end.

(** The samples of a run that do not fall below the threshold. *)
Definition active_samples (threshold : Q) (qbers : list Q) : list Q :=
  filter (fun q => negb (Qltb q threshold)) qbers.

End CoverageSpec.

(** ** Binary64 arithmetic *)

Module Binary64.
Import Py.

(** A Python [float] or NumPy [float64]: a binary64 value as the Standard
    Library specifies it, with both zeros, both infinities and NaN.  A
    finite [S754_finite s m e] denotes [(-1)^s * m * 2^e]. *)
Definition double : Type := spec_float.

Definition prec : Z := 53.
Definition emax : Z := 1024.

(** The arithmetic of IEEE 754, rounding to nearest, ties to even. *)
Definition add64 : double -> double -> double := SFadd prec emax.
Definition sub64 : double -> double -> double := SFsub prec emax.
Definition mul64 : double -> double -> double := SFmul prec emax.
Definition div64 : double -> double -> double := SFdiv prec emax.
Definition neg64 : double -> double := SFopp.
Definition abs64 : double -> double := SFabs.
Definition lt64 : double -> double -> bool := SFltb.
Definition le64 : double -> double -> bool := SFleb.

Definition is_nan (x : double) : bool :=
  match x with
  | S754_nan => true
  | _ => false
  end.

Definition is_zero64 (x : double) : bool :=
  match x with
  | S754_zero _ => true
  | _ => false
  end.

(** The double nearest to an integer. *)
Definition of_Z (n : Z) : double := binary_normalize prec emax n 0 false.

(** The double nearest to a rational: the value of a decimal literal and
    of an [int / int] division. *)
Definition of_Q (q : Q) : double :=
  match Qnum q with
  | Z0 => S754_zero false
  | Zpos n =>
      let '(m, e, l) :=
        SFdiv_core_binary prec emax (Zpos n) 0 (Zpos (Qden q)) 0 in
      binary_round_aux prec emax false m e l
  | Zneg n =>
      let '(m, e, l) :=
        SFdiv_core_binary prec emax (Zpos n) 0 (Zpos (Qden q)) 0 in
      binary_round_aux prec emax true m e l
  end.

(** [float(n)], also the conversion of the [int] operand of a mixed
    operation: an [int] beyond the range of doubles is an
    [OverflowError]. *)
Definition double_of_int (n : Z) : result double :=
  match of_Z n with
  | S754_infinity _ => Raise OverflowError
  | x => Ok x
  end.

(** The rational a finite double denotes (0 for the others). *)
Definition to_Q (x : double) : Q :=
  match x with
  | S754_finite s m e =>
      let n := if s then Zneg m else Zpos m in
      match e with
      | Zneg k => n # (2 ^ k)
      | _ => inject_Z (n * 2 ^ e)
      end
  | _ => 0
  end.

(** [int(x)]: truncation toward zero of a finite double. *)
Definition int_of_double (x : double) : result Z :=
  match x with
  | S754_nan => Raise ValueError
  | S754_infinity _ => Raise OverflowError
  | _ => Ok (int_of_float (to_Q x))
  end.

(** [round(x)]: the nearest integer, ties to even. *)
Definition round_double (x : double) : result Z :=
  match x with
  | S754_nan => Raise ValueError
  | S754_infinity _ => Raise OverflowError
  | _ => Ok (round_half_even (to_Q x))
  end.

(** [round(x, 2)]: the double nearest to the decimal rounding, to two
    places and ties to even, of the exact value of [x]; the sign of a
    zero result is that of [x]. *)
Definition round2_double (x : double) : double :=
  match x with
  | S754_finite s _ _ =>
      match of_Q (round2 (to_Q x)) with
      | S754_zero _ => S754_zero s
      | r => r
      end
  | _ => x
  end.

(** [x ** 2] on a Python [float]: the rounded square, an [OverflowError]
    when the square of a finite [x] is beyond the range of doubles. *)
Definition pow2_double (x : double) : result double :=
  match x, mul64 x x with
  | S754_finite _ _ _, S754_infinity _ => Raise OverflowError
  | _, r => Ok r
  end.

(** [x] is a zero, or finite and below [2^b] in magnitude. *)
Definition below (b : Z) (x : double) : Prop :=
  match x with
  | S754_zero _ => True
  | S754_finite _ m e => Zdigits2 (Zpos m) + e <= b
  | _ => False
  end.

(** [y] is finite and at least [2^(b-1)] in magnitude. *)
Definition from (b : Z) (y : double) : Prop :=
  match y with
  | S754_finite _ m e => b <= Zdigits2 (Zpos m) + e
  | _ => False
  end.

End Binary64.

(** ** The stage driver in binary64 *)

Module ELL14_64.
Import Py ELL14 Binary64.

Record ElliptecController : Type := {
  address : string;
  verbose : bool;
  position : double
}.

Definition set_position (self : ElliptecController) (p : double)
  : ElliptecController :=
  {| address := address self; verbose := verbose self; position := p |}.

Definition __init__ (ser : option Serial) (opened : Serial)
           (address : string) (verbose : bool)
  : result (ElliptecController * Serial) :=
  let ser := match ser with Some s => s | None => opened end in
  let ser := _purge ser in
  Ok ({| address := address; verbose := verbose;
         position := S754_zero false |}, ser).

Definition _send_cmd (self : ElliptecController) (ser : Serial) (cmd : string)
  : string * Serial :=
  let full := (address self ++ cmd)%string in
  let ser := ser_write ser full in
  let ser := ser_write ser (String "013" (String "010" EmptyString)) in
  let resp := string_of_list_ascii
                (strip (decode_ascii_ignore
                          (list_ascii_of_string (ser_readline ser)))) in
  (resp, ser).

(** [int(degrees * self.pulses_per_turn / 360)]: the product and the
    quotient are each rounded to a double before the truncation. *)
Definition _deg_to_pulses (degrees : double) : result Z :=
  int_of_double (div64 (mul64 degrees (of_Z pulses_per_turn)) (of_Z 360)).

Definition _pulses_to_deg (pulses : Z) : result double :=
  let pulses := if 0x80000000 <=? pulses then pulses - 0x100000000 else pulses in
  p <- double_of_int pulses ;;
  Ok (div64 (mul64 p (of_Z 360)) (of_Z pulses_per_turn)).

Definition _update_position (self : ElliptecController) (resp : string)
  : result ElliptecController :=
  let attempt :=
    let pos_hex := string_of_list_ascii (last8 (list_ascii_of_string resp)) in
    n <- int16 pos_hex ;;
    d <- _pulses_to_deg n ;;
    Ok (set_position self (round2_double d)) in
  match attempt with
  | Raise ValueError => Ok self
  | r => r
  end.

Definition get_info (self : ElliptecController) (ser : Serial) : string * Serial :=
  _send_cmd self ser "in".

Definition get_status (self : ElliptecController) (ser : Serial) : string * Serial :=
  _send_cmd self ser "gs".

Definition get_position_deg (self : ElliptecController) : double := position self.

Definition reply : Type := (ElliptecController * Serial * string)%type.

Definition send_and_update (self : ElliptecController) (ser : Serial)
           (cmd : string) : result reply :=
  let '(resp, ser) := _send_cmd self ser cmd in
  self <- _update_position self resp ;;
  Ok (self, ser, resp).

Definition home (self : ElliptecController) (ser : Serial) (direction : Z)
  : result reply :=
  send_and_update self ser ("ho" ++ str_of_int direction).

Definition move_absolute (self : ElliptecController) (ser : Serial) (pulses : Z)
  : result reply :=
  let hexval := format_08X (Z.land pulses 0xFFFFFFFF) in
  send_and_update self ser ("ma" ++ hexval).

Definition move_relative (self : ElliptecController) (ser : Serial) (pulses : Z)
  : result reply :=
  let hexval := format_08X (Z.land pulses 0xFFFFFFFF) in
  send_and_update self ser ("mr" ++ hexval).

Definition move_absolute_deg (self : ElliptecController) (ser : Serial)
           (degrees : double) : result reply :=
  pulses <- _deg_to_pulses degrees ;;
  let hexval := format_08X (Z.land pulses 0xFFFFFFFF) in
  send_and_update self ser ("ma" ++ hexval).

Definition move_relative_deg (self : ElliptecController) (ser : Serial)
           (degrees : double) : result reply :=
  pulses <- _deg_to_pulses degrees ;;
  let hexval := format_08X (Z.land pulses 0xFFFFFFFF) in
  send_and_update self ser ("mr" ++ hexval).

Definition stop (self : ElliptecController) (ser : Serial) : result reply :=
  send_and_update self ser "st".

End ELL14_64.

(** ** The polarization optimizer in binary64 *)

Module Compensation_64.
Import Py ELL14 Binary64 ELL14_64 Compensation.

Record ContinuousPolarizationOptimizer : Type := {
  _waveplates : ElliptecController * ElliptecController;
  _max_stepsize_deg : double;
  _threshold : double;
  _positions : double * double;
  _current_wp : nat;
  _current_pos : nat;
  _origin_position : double;
  _qbers : double * double * double;
  _n_stored : Z;
  _previous_qbers : list double;
  _previous_positions : list (double * double)
}.

Definition set_waveplates (self : ContinuousPolarizationOptimizer)
           (v : ElliptecController * ElliptecController)
  : ContinuousPolarizationOptimizer :=
  {| _waveplates := v;
     _max_stepsize_deg := _max_stepsize_deg self;
     _threshold := _threshold self;
     _positions := _positions self;
     _current_wp := _current_wp self;
     _current_pos := _current_pos self;
     _origin_position := _origin_position self;
     _qbers := _qbers self;
     _n_stored := _n_stored self;
     _previous_qbers := _previous_qbers self;
     _previous_positions := _previous_positions self |}.

Definition set_positions (self : ContinuousPolarizationOptimizer)
           (v : double * double) : ContinuousPolarizationOptimizer :=
  {| _waveplates := _waveplates self;
     _max_stepsize_deg := _max_stepsize_deg self;
     _threshold := _threshold self;
     _positions := v;
     _current_wp := _current_wp self;
     _current_pos := _current_pos self;
     _origin_position := _origin_position self;
     _qbers := _qbers self;
     _n_stored := _n_stored self;
     _previous_qbers := _previous_qbers self;
     _previous_positions := _previous_positions self |}.

Definition set_current_wp (self : ContinuousPolarizationOptimizer) (v : nat)
  : ContinuousPolarizationOptimizer :=
  {| _waveplates := _waveplates self;
     _max_stepsize_deg := _max_stepsize_deg self;
     _threshold := _threshold self;
     _positions := _positions self;
     _current_wp := v;
     _current_pos := _current_pos self;
     _origin_position := _origin_position self;
     _qbers := _qbers self;
     _n_stored := _n_stored self;
     _previous_qbers := _previous_qbers self;
     _previous_positions := _previous_positions self |}.

Definition set_current_pos (self : ContinuousPolarizationOptimizer) (v : nat)
  : ContinuousPolarizationOptimizer :=
  {| _waveplates := _waveplates self;
     _max_stepsize_deg := _max_stepsize_deg self;
     _threshold := _threshold self;
     _positions := _positions self;
     _current_wp := _current_wp self;
     _current_pos := v;
     _origin_position := _origin_position self;
     _qbers := _qbers self;
     _n_stored := _n_stored self;
     _previous_qbers := _previous_qbers self;
     _previous_positions := _previous_positions self |}.

Definition set_origin_position (self : ContinuousPolarizationOptimizer)
           (v : double) : ContinuousPolarizationOptimizer :=
  {| _waveplates := _waveplates self;
     _max_stepsize_deg := _max_stepsize_deg self;
     _threshold := _threshold self;
     _positions := _positions self;
     _current_wp := _current_wp self;
     _current_pos := _current_pos self;
     _origin_position := v;
     _qbers := _qbers self;
     _n_stored := _n_stored self;
     _previous_qbers := _previous_qbers self;
     _previous_positions := _previous_positions self |}.

Definition set_qbers (self : ContinuousPolarizationOptimizer)
           (v : double * double * double) : ContinuousPolarizationOptimizer :=
  {| _waveplates := _waveplates self;
     _max_stepsize_deg := _max_stepsize_deg self;
     _threshold := _threshold self;
     _positions := _positions self;
     _current_wp := _current_wp self;
     _current_pos := _current_pos self;
     _origin_position := _origin_position self;
     _qbers := v;
     _n_stored := _n_stored self;
     _previous_qbers := _previous_qbers self;
     _previous_positions := _previous_positions self |}.

Definition set_history (self : ContinuousPolarizationOptimizer)
           (qs : list double) (ps : list (double * double))
  : ContinuousPolarizationOptimizer :=
  {| _waveplates := _waveplates self;
     _max_stepsize_deg := _max_stepsize_deg self;
     _threshold := _threshold self;
     _positions := _positions self;
     _current_wp := _current_wp self;
     _current_pos := _current_pos self;
     _origin_position := _origin_position self;
     _qbers := _qbers self;
     _n_stored := _n_stored self;
     _previous_qbers := qs;
     _previous_positions := ps |}.

(** [np.min] of an array of doubles: a NaN, once met, is the result. *)
Fixpoint min_from (best : double) (l : list double) : double :=
  match l with
  | [] => best
  | x :: r => min_from (if lt64 best x || is_nan best then best else x) r
  end.

Definition np_min (l : list double) : result double :=
  match l with
  | [] => Raise ValueError
  | x :: r => Ok (min_from x r)
  end.

(** [np.argmin]: the first index of the minimum, or of the first NaN. *)
Fixpoint argmin_from (best : double) (besti i : nat) (l : list double) : nat :=
  match l with
  | [] => besti
  | x :: r =>
      if le64 best x then argmin_from best besti (S i) r
      else if is_nan x then i
      else argmin_from x i (S i) r
  end.

Definition np_argmin (l : list double) : result nat :=
  match l with
  | [] => Raise ValueError
  | x :: r => Ok (if is_nan x then 0%nat else argmin_from x 0 1 r)
  end.

Definition __init__ (waveplates : ElliptecController * ElliptecController)
           (max_stepsize_deg threshold : double) (n_stored : Z)
  : result ContinuousPolarizationOptimizer :=
  Ok
  {| _waveplates := waveplates;
     _max_stepsize_deg := max_stepsize_deg;
     _threshold := threshold;
     _positions := (S754_zero false, S754_zero false);
     _current_wp := 0;
     _current_pos := 1;
     _origin_position := S754_zero false;
     _qbers := (of_Q (1 # 10), of_Q (1 # 10), of_Q (1 # 10));
     _n_stored := n_stored;
     _previous_qbers := [of_Q (1 # 2)];
     _previous_positions := [(S754_zero false, S754_zero false)] |}.

Definition get_positions (self : ContinuousPolarizationOptimizer)
  : double * double :=
  (get_position_deg (fst (_waveplates self)),
   get_position_deg (snd (_waveplates self))).

(** The body of the [try] of [random_minimizer]. *)
Definition random_minimizer_try (self : ContinuousPolarizationOptimizer)
           (qber : double) : result ContinuousPolarizationOptimizer :=
  let positions := get_positions self in
  m <- np_min (_previous_qbers self) ;;
  chosen <- (if lt64 qber m then Ok positions
             else i <- np_argmin (_previous_qbers self) ;;
                  getitem (_previous_positions self) i) ;;
  let self := set_positions self chosen in
  if Z.of_nat (List.length (_previous_qbers self)) <? _n_stored self then
    Ok (set_history self (_previous_qbers self ++ [qber])
                    (_previous_positions self ++ [positions]))
  else
    Ok (set_history self (tl (_previous_qbers self) ++ [qber])
                    (tl (_previous_positions self) ++ [positions])).

(** [delta_phi] and [wp] are the two random draws of the step. *)
Definition random_minimizer (self : ContinuousPolarizationOptimizer)
           (ser : Serial) (qber : double) (delta_phi : double) (wp : nat)
  : result (ContinuousPolarizationOptimizer * Serial) :=
  let self :=
    match random_minimizer_try self qber with
    | Ok self' => self'
    | Raise _ => self
    end in
  w <- getitem2 (_waveplates self) wp ;;
  '(w, ser, _) <- move_relative_deg w ser delta_phi ;;
  let self := set_waveplates self (mutated2 (_waveplates self) wp w) in
  Ok (set_positions self (get_positions self), ser).

(** [self._waveplates[self._current_wp].move_absolute_deg(degrees)] *)
Definition move_current (self : ContinuousPolarizationOptimizer)
           (ser : Serial) (degrees : double)
  : result (ContinuousPolarizationOptimizer * Serial) :=
  w <- getitem2 (_waveplates self) (_current_wp self) ;;
  '(w, ser, _) <- move_absolute_deg w ser degrees ;;
  Ok (set_waveplates self (mutated2 (_waveplates self) (_current_wp self) w),
      ser).

(** The branch [if self._current_pos == 0] of the coordinate descent.  The
    samples are [np.float64], so the divisions follow IEEE 754 (a division
    by zero gives an infinity or NaN); [self._max_stepsize_deg ** 2] is a
    power of a Python [float]. *)
Definition compute_and_move (self : ContinuousPolarizationOptimizer)
           (ser : Serial) (position : double)
  : result (ContinuousPolarizationOptimizer * Serial) :=
  let '(q_l, q, q_r) := _qbers self in
  let dQ_dV := div64 (sub64 q_r q_l) (mul64 (of_Z 2) (_max_stepsize_deg self)) in
  let dQ2_dV2 := add64 (sub64 q_r (mul64 (of_Z 2) q)) q_l in
  square <- pow2_double (_max_stepsize_deg self) ;;
  let dQ2_dV2 := div64 dQ2_dV2 square in
  let step := div64 dQ_dV dQ2_dV2 in
  let sign := if lt64 step (of_Z 0) then (-1) else 1 in
  let step := if lt64 (of_Z 5) (abs64 step) then of_Z (sign * 5) else step in
  if lt64 (of_Z 0) dQ2_dV2 then move_current self ser (sub64 position step)
  else move_current self ser (add64 position step).

Definition advance (self : ContinuousPolarizationOptimizer)
  : ContinuousPolarizationOptimizer :=
  let self := set_positions self (get_positions self) in
  let self := set_current_pos self (S (_current_pos self)) in
  let self := set_current_pos self (_current_pos self mod 3)%nat in
  if (_current_pos self =? 1)%nat then
    let self := set_current_wp self (S (_current_wp self)) in
    set_current_wp self (_current_wp self mod 2)%nat
  else self.

Definition coordinate_descent_2nd_order (self : ContinuousPolarizationOptimizer)
           (ser : Serial) (qber : double)
  : result (ContinuousPolarizationOptimizer * Serial) :=
  if lt64 qber (_threshold self) then
    Ok (set_current_pos (set_current_wp self 0) 1, ser)
  else
    '(self, position) <-
      (if (_current_pos self =? 1)%nat then
         w <- getitem2 (_waveplates self) (_current_wp self) ;;
         let position := get_position_deg w in
         Ok (set_origin_position self position, position)
       else Ok (self, _origin_position self)) ;;
    qs <- setitem3 (_qbers self) (_current_pos self) qber ;;
    let self := set_qbers self qs in
    '(self, ser) <-
      (if (_current_pos self =? 1)%nat then
         move_current self ser (add64 position (_max_stepsize_deg self))
       else Ok (self, ser)) ;;
    '(self, ser) <-
      (if (_current_pos self =? 2)%nat then
         move_current self ser (sub64 position (_max_stepsize_deg self))
       else Ok (self, ser)) ;;
    '(self, ser) <-
      (if (_current_pos self =? 0)%nat then
         compute_and_move self ser position
       else Ok (self, ser)) ;;
    Ok (advance self, ser).

End Compensation_64.

(** ** The QBER map in binary64 *)

Module QberMap_64.
Import Py ELL14 Binary64 ELL14_64.

(** The length [np.arange] computes: the ceiling of the quotient, taken as
    a double. *)
Definition ceil_double (x : double) : result Z :=
  match x with
  | S754_nan => Raise ValueError
  | S754_infinity _ => Raise OverflowError
  | _ => Ok (Qceiling (to_Q x))
  end.

Definition sign_bit (x : double) : bool :=
  match x with
  | S754_zero s | S754_infinity s | S754_finite s _ _ => s
  | S754_nan => false
  end.

(** [np.arange(start, stop, step)] on Python floats.  The length is the
    ceiling of the double [(stop - start) / step] (1 when that quotient
    underflows to +0); the first two entries are [start] and
    [start + step], and entry [i] is [start + i * delta] with [delta] the
    difference of the first two, every operation rounded. *)
Definition np_arange (start stop step : double) : result (list double) :=
  let span := sub64 stop start in
  if is_zero64 step then Raise ZeroDivisionError
  else
    let quotient := div64 span step in
    length <- ceil_double quotient ;;
    let length :=
      if is_zero64 quotient && negb (is_zero64 span)
      then (if sign_bit quotient then 0 else 1)
      else length in
    match Z.to_nat length with
    | 0%nat => Ok []
    | 1%nat => Ok [start]
    | S (S n) =>
        let next := add64 start step in
        let delta := sub64 next start in
        Ok (start :: next ::
            map (fun i : nat => add64 start (mul64 (of_Z (Z.of_nat i)) delta))
                (seq 2 n))
    end.

Definition np_zeros (rows cols : nat) : list (list double) :=
  repeat (repeat (S754_zero false) cols) rows.

Record QBERWaveplateMapper : Type := {
  wp_1 : ElliptecController;
  wp_2 : ElliptecController;
  step_wp1 : double;
  step_wp2 : double;
  indiv_meas_duration : double;
  filename : string;
  angles_wp1 : list double;
  angles_wp2 : list double;
  qber_map : list (list double)
}.

Definition __init__ (waveplates : ElliptecController * ElliptecController)
           (step_wp1 step_wp2 indiv_meas_duration : double) (filename : string)
  : result QBERWaveplateMapper :=
  angles_wp1 <- np_arange (of_Z (-180)) (add64 (of_Z 180) step_wp1) step_wp1 ;;
  angles_wp2 <- np_arange (of_Z (-180)) (add64 (of_Z 180) step_wp2) step_wp2 ;;
  Ok {| wp_1 := fst waveplates;
        wp_2 := snd waveplates;
        step_wp1 := step_wp1;
        step_wp2 := step_wp2;
        indiv_meas_duration := indiv_meas_duration;
        filename := filename;
        angles_wp1 := angles_wp1;
        angles_wp2 := angles_wp2;
        qber_map := np_zeros (List.length angles_wp2) (List.length angles_wp1) |}.

End QberMap_64.

(** ** Vocabulary of the properties in binary64 *)

Module Spec64.
Import Py ELL14 Binary64 ELL14_64 Compensation Compensation_64.

Definition crlf : string := String "013" (String "010" EmptyString).

(** The frame of a move command: the address, the mnemonic and the eight
    hexadecimal digits of the pulse count. *)
Definition frame (w : ElliptecController) (mnemonic : string) (pulses : Z)
  : string :=
  (address w ++ mnemonic ++ format_08X (Z.land pulses 0xFFFFFFFF))%string.

(** The angle [_pulses_to_deg] computes for the raw count [n] of a
    response: the signed count times 360.0, divided by the pulses per turn,
    both operations in binary64. *)
Definition reported_deg (n : Z) : double :=
  div64 (mul64 (of_Z (DriverSpec.signed32 n)) (of_Z 360)) (of_Z pulses_per_turn).

(** The commands of the driver and the text each one sends after the
    address, as the protocol names them. *)
Inductive command : Type :=
| Home (direction : Z)
| MoveAbsolute (pulses : Z)
| MoveRelative (pulses : Z)
| MoveAbsoluteDeg (degrees : double)
| MoveRelativeDeg (degrees : double)
| Stop
| GetInfo
| GetStatus.

Definition run (c : command) (self : ElliptecController) (ser : Serial)
  : result (ElliptecController * Serial) :=
  match c with
  | Home direction => '(self, ser, _) <- home self ser direction ;; Ok (self, ser)
  | MoveAbsolute pulses =>
      '(self, ser, _) <- move_absolute self ser pulses ;; Ok (self, ser)
  | MoveRelative pulses =>
      '(self, ser, _) <- move_relative self ser pulses ;; Ok (self, ser)
  | MoveAbsoluteDeg degrees =>
      '(self, ser, _) <- move_absolute_deg self ser degrees ;; Ok (self, ser)
  | MoveRelativeDeg degrees =>
      '(self, ser, _) <- move_relative_deg self ser degrees ;; Ok (self, ser)
  | Stop => '(self, ser, _) <- stop self ser ;; Ok (self, ser)
  | GetInfo => Ok (self, snd (get_info self ser))
  | GetStatus => Ok (self, snd (get_status self ser))
  end.

Fixpoint run_all (cs : list command) (self : ElliptecController) (ser : Serial)
  : result (ElliptecController * Serial) :=
  match cs with
  | [] => Ok (self, ser)
  | c :: cs => '(self, ser) <- run c self ser ;; run_all cs self ser
  end.

(** What [round(_, 2)] returns on a finite double: the double nearest to a
    whole number of hundredths, or the negative zero. *)
Definition centi64 (d : double) : Prop :=
  d = S754_zero true \/ exists k : Z, d = of_Q (inject_Z k / 100).

Definition hex8 (pulses : Z) : string := format_08X (Z.land pulses 0xFFFFFFFF).

(** The text of a command whose pulse count, for a move in degrees, is
    [pulses]. *)
Definition command_text (c : command) (pulses : Z) : string :=
  match c with
  | Home direction => "ho" ++ str_of_int direction
  | MoveAbsolute p => "ma" ++ hex8 p
  | MoveRelative p => "mr" ++ hex8 p
  | MoveAbsoluteDeg _ => "ma" ++ hex8 pulses
  | MoveRelativeDeg _ => "mr" ++ hex8 pulses
  | Stop => "st"
  | GetInfo => "in"
  | GetStatus => "gs"
  end.

(** The pulse count a command converts from degrees, if it does. *)
Definition converted (c : command) : result Z :=
  match c with
  | MoveAbsoluteDeg degrees | MoveRelativeDeg degrees => _deg_to_pulses degrees
  | _ => Ok 0
  end.

Definition q_left (self : ContinuousPolarizationOptimizer) : double :=
  fst (fst (_qbers self)).
Definition q_center (self : ContinuousPolarizationOptimizer) : double :=
  snd (fst (_qbers self)).
Definition q_right (self : ContinuousPolarizationOptimizer) : double :=
  snd (_qbers self).

(** The clamp of the compute phase: a step above 5 in magnitude becomes 5
    with its sign; NaN passes. *)
Definition clamped (step : double) : double :=
  if lt64 (of_Z 5) (abs64 step)
  then (if lt64 step (of_Z 0) then of_Z (-5) else of_Z 5)
  else step.

(** The two derivatives of the compute phase as the code computes them,
    [q_l] being the sample of the call and [square] the value of
    [self._max_stepsize_deg ** 2]. *)
Definition dQ_dV (self : ContinuousPolarizationOptimizer) (q_l : double)
  : double :=
  div64 (sub64 (q_right self) q_l) (mul64 (of_Z 2) (_max_stepsize_deg self)).

Definition dQ2_dV2 (self : ContinuousPolarizationOptimizer)
           (q_l square : double) : double :=
  div64 (add64 (sub64 (q_right self) (mul64 (of_Z 2) (q_center self))) q_l)
        square.

(** The angle the compute phase asks the stage to go to. *)
Definition newton_target (self : ContinuousPolarizationOptimizer)
           (q_l square : double) : double :=
  let step := clamped (div64 (dQ_dV self q_l) (dQ2_dV2 self q_l square)) in
  if lt64 (of_Z 0) (dQ2_dV2 self q_l square)
  then sub64 (_origin_position self) step
  else add64 (_origin_position self) step.

End Spec64.

(** The grid of whole degrees, to compare [np.arange] with. *)

Module MapSpec64.
Import Py Binary64 QberMap_64.

Definition double_eqb (x y : double) : bool :=
  match x, y with
  | S754_zero a, S754_zero b => Bool.eqb a b
  | S754_infinity a, S754_infinity b => Bool.eqb a b
  | S754_nan, S754_nan => true
  | S754_finite a m e, S754_finite b n f =>
      Bool.eqb a b && Pos.eqb m n && Z.eqb e f
  | _, _ => false
  end.

Fixpoint list_eqb {A : Type} (eqb : A -> A -> bool) (l l' : list A) : bool :=
  match l, l' with
  | [], [] => true
  | a :: r, b :: r' => eqb a b && list_eqb eqb r r'
  | _, _ => false
  end.

(** The number of whole-degree angles from -180 in steps of [k] up to the
    first one at or above 180. *)
Definition grid_length (k : Z) : nat := S (Z.to_nat ((359 + k) / k)).

(** Those angles, as doubles. *)
Definition whole_grid (k : Z) : list double :=
  map (fun i : nat => of_Z (-180 + Z.of_nat i * k)) (seq 0 (grid_length k)).

Definition arange_is_whole_grid (k : Z) : bool :=
  match np_arange (of_Z (-180)) (add64 (of_Z 180) (of_Z k)) (of_Z k) with
  | Ok l => list_eqb double_eqb l (whole_grid k)
  | Raise _ => false
  end.

End MapSpec64.

Module Examples64.
Import Py ELL14 Binary64 ELL14_64 Compensation_64.

(** A stage whose cached position is the double nearest to [deg]. *)
Definition stage (a : string) (deg : Q) : ElliptecController :=
  {| address := a; verbose := false; position := of_Q deg |}.

(** The optimizer of the test run after construction, with a step of
    [step] degrees and the default threshold of 0.01. *)
Definition optimizer (w0 w1 : ElliptecController) (step : Q) (n_stored : Z)
  : ContinuousPolarizationOptimizer :=
  {| _waveplates := (w0, w1);
     _max_stepsize_deg := of_Q step;
     _threshold := of_Q (1 # 100);
     _positions := (S754_zero false, S754_zero false);
     _current_wp := 0;
     _current_pos := 1;
     _origin_position := S754_zero false;
     _qbers := (of_Q (1 # 10), of_Q (1 # 10), of_Q (1 # 10));
     _n_stored := n_stored;
     _previous_qbers := [of_Q (1 # 2)];
     _previous_positions := [(S754_zero false, S754_zero false)] |}.

(** The same optimizer in its compute phase, the centre and right samples
    [q] and [q_r] taken around the origin [origin]. *)
Definition probing (step origin q q_r : Q) : ContinuousPolarizationOptimizer :=
  set_origin_position
    (set_current_pos
       (set_qbers (optimizer (stage "0" 0) (stage "2" 0) step 1)
                  (of_Q (1 # 10), of_Q q, of_Q q_r)) 0)
    (of_Q origin).

(** An optimizer that remembers three operating points. *)
Definition remembering : ContinuousPolarizationOptimizer :=
  set_history (optimizer (stage "0" 0) (stage "2" 0) 2 3)
              [of_Q (5 # 100); of_Q (3 # 100); of_Q (4 # 100)]
              [(of_Z 10, of_Z 20); (of_Z 30, of_Z 40); (of_Z 50, of_Z 60)].

End Examples64.

(** ** Facts about the built-ins *)

Module PyFacts.
Import Py.

Lemma Qltb_lt (x y : Q) : Qltb x y = true <-> (x < y)%Q.
Proof.
  unfold Qltb. rewrite negb_true_iff.
  destruct (Qle_bool y x) eqn:E; split; intro H; try discriminate; auto.
  - apply Qle_bool_iff in E. exfalso. apply (Qlt_not_le _ _ H E).
  - apply Qnot_le_lt. intro L. apply Qle_bool_iff in L. congruence.
Qed.

Lemma Qltb_ge (x y : Q) : Qltb x y = false <-> (y <= x)%Q.
Proof.
  unfold Qltb. rewrite negb_false_iff. apply Qle_bool_iff.
Qed.

Lemma Qeq_bool_false (x y : Q) : ~ (x == y)%Q -> Qeq_bool x y = false.
Proof.
  intro H. destruct (Qeq_bool x y) eqn:E; auto.
  apply Qeq_bool_iff in E. contradiction.
Qed.

Lemma int_of_float_nonneg (x : Q) : (0 <= x)%Q -> int_of_float x = Qfloor x.
Proof.
  destruct x as [n d]. unfold Qle, int_of_float, Qfloor. simpl. intro H.
  apply Z.quot_div_nonneg; lia.
Qed.

Lemma int_of_float_nonpos (x : Q) : (x <= 0)%Q -> int_of_float x = Qceiling x.
Proof.
  destruct x as [n d]. unfold Qle, int_of_float, Qceiling, Qfloor. simpl.
  intro H.
  replace n with (- (- n)) at 1 by lia.
  rewrite Z.quot_opp_l by lia. f_equal.
  apply Z.quot_div_nonneg; lia.
Qed.

(** Truncation stays within less than one unit of its argument, on the
    side of zero. *)
Lemma int_of_float_spec (x : Q) :
  ((0 <= x -> inject_Z (int_of_float x) <= x < inject_Z (int_of_float x) + 1) /\
   (x <= 0 -> inject_Z (int_of_float x) - 1 < x <= inject_Z (int_of_float x)))%Q.
Proof.
  split; intro H.
  - rewrite (int_of_float_nonneg x H). split.
    + apply Qfloor_le.
    + pose proof (Qlt_floor x) as L. rewrite inject_Z_plus in L. exact L.
  - rewrite (int_of_float_nonpos x H). split.
    + pose proof (Qceiling_lt x) as L.
      unfold Z.sub in L. rewrite inject_Z_plus in L. exact L.
    + apply Qle_ceiling.
Qed.

Lemma int_of_float_close (x : Q) : (Qabs (inject_Z (int_of_float x) - x) < 1)%Q.
Proof.
  destruct (int_of_float_spec x) as [P N].
  apply Qabs_Qlt_condition.
  destruct (Qlt_le_dec x 0) as [L | L].
  - destruct (N (Qlt_le_weak _ _ L)). split; lra.
  - destruct (P L). split; lra.
Qed.

Lemma round_half_even_close (y : Q) :
  (Qabs (inject_Z (round_half_even y) - y) <= 1 # 2)%Q.
Proof.
  pose proof (Qfloor_le y) as Lo.
  pose proof (Qlt_floor y) as Hi. rewrite inject_Z_plus in Hi.
  apply Qabs_Qle_condition. unfold round_half_even.
  destruct (Qcompare_spec (y - inject_Z (Qfloor y)) (1 # 2)) as [E | L | G].
  - destruct (Z.even (Qfloor y)); rewrite ?inject_Z_plus;
      change (inject_Z 1) with 1%Q in *; split; lra.
  - split; lra.
  - rewrite inject_Z_plus. change (inject_Z 1) with 1%Q in *. split; lra.
Qed.

Lemma round2_close (x : Q) : (Qabs (round2 x - x) <= 1 # 200)%Q.
Proof.
  pose proof (round_half_even_close (x * 100)) as H.
  apply Qabs_Qle_condition in H. apply Qabs_Qle_condition.
  unfold round2. destruct H as [H1 H2].
  set (r := inject_Z (round_half_even (x * 100))) in *.
  assert (x - (1 # 200) <= r / 100)%Q by (apply Qle_shift_div_l; lra).
  assert (r / 100 <= x + (1 # 200))%Q by (apply Qle_shift_div_r; lra).
  split; lra.
Qed.

End PyFacts.

(** ** Facts about the driver *)

Module DriverFacts.
Import Py PyFacts ELL14 DriverSpec.

Ltac char_cases :=
  repeat match goal with
         | |- context [(?a <=? ?b)%Z] => destruct (Z.leb_spec a b)
         | |- context [(?a <=? ?b)%N] => destruct (N.leb_spec a b)
         | |- context [(?a =? ?b)%N] => destruct (N.eqb_spec a b)
         | H : context [(?a <=? ?b)%Z] |- _ => destruct (Z.leb_spec a b)
         end;
  simpl in *; try discriminate; try reflexivity; try lia.

Lemma hex_digit_plain (c : ascii) :
  is_hex_digit c = true ->
  is_int_space c = false /\ is_underscore c = false /\ is_plus c = false /\
  is_minus c = false /\ is_x c = false.
Proof.
  unfold is_hex_digit, digit_value, is_int_space, is_underscore, is_plus,
    is_minus, is_x, is_char.
  generalize (N_of_ascii c). intros n H.
  repeat split; char_cases.
Qed.

Lemma scan_digits_hex (l : list ascii) :
  forallb is_hex_digit l = true ->
  forall acc n,
    scan_digits acc n false l =
    Some (fold_left (fun acc c => 16 * acc + match digit_value c with
                                             | Some d => d
                                             | None => 0
                                             end) l acc,
          (n + List.length l)%nat, []).
Proof.
  induction l as [| c l IH]; intros H acc n.
  - simpl. rewrite Nat.add_0_r. reflexivity.
  - simpl in H. apply andb_true_iff in H. destruct H as [Hc Hl].
    destruct (hex_digit_plain c Hc) as (_ & Hu & _).
    simpl. rewrite Hu. unfold is_hex_digit in Hc.
    destruct (digit_value c) as [d |]; [| discriminate].
    rewrite (IH Hl), Nat.add_succ_r. reflexivity.
Qed.

(** [int(_, 16)] accepts every non-empty run of hexadecimal digits and
    reads it as the number it spells. *)
Lemma int16_chars_hex (l : list ascii) :
  l <> [] -> forallb is_hex_digit l = true ->
  int16_chars l = Ok (hex_value l).
Proof.
  intros Hne H. unfold int16_chars, hex_value.
  destruct l as [| c0 l]; [congruence |].
  pose proof H as H0. simpl in H0. apply andb_true_iff in H0.
  destruct H0 as [Hc0 Hl].
  destruct (hex_digit_plain c0 Hc0) as (Hs & Hu & Hp & Hm & _).
  assert (Hstrip : skip_int_space (c0 :: l) = c0 :: l)
    by (simpl; rewrite Hs; reflexivity).
  rewrite Hstrip. unfold skip_sign. rewrite Hp, Hm.
  assert (Hpre : skip_prefix (c0 :: l) = c0 :: l).
  { destruct l as [| c1 l']; [reflexivity |].
    simpl in Hl. apply andb_true_iff in Hl. destruct Hl as [Hc1 _].
    destruct (hex_digit_plain c1 Hc1) as (_ & _ & _ & _ & Hx).
    simpl. rewrite Hx, andb_false_r. reflexivity. }
  rewrite Hpre. simpl starts_with_underscore. rewrite Hu.
  rewrite (scan_digits_hex _ H). reflexivity.
Qed.

Lemma hex_value_bound (l : list ascii) :
  forallb is_hex_digit l = true ->
  0 <= hex_value l < 16 ^ Z.of_nat (List.length l).
Proof.
  unfold hex_value. intro H.
  assert (G : forall acc, 0 <= acc ->
            0 <= fold_left (fun acc c => 16 * acc + match digit_value c with
                                                    | Some d => d
                                                    | None => 0
                                                    end) l acc
            < (acc + 1) * 16 ^ Z.of_nat (List.length l)).
  { induction l as [| c l IH]; intros acc Hacc.
    - simpl. lia.
    - simpl in H. apply andb_true_iff in H. destruct H as [Hc Hl].
      assert (Hd : 0 <= match digit_value c with Some d => d | None => 0 end < 16).
      { unfold digit_value. generalize (N_of_ascii c). intro n. char_cases. }
      cbn [fold_left List.length]. rewrite Nat2Z.inj_succ, Z.pow_succ_r by lia.
      set (d := match digit_value c with Some d => d | None => 0 end) in *.
      specialize (IH Hl (16 * acc + d) ltac:(lia)).
      assert (0 <= 16 ^ Z.of_nat (List.length l)) by (apply Z.pow_nonneg; lia).
      nia. }
  specialize (G 0 ltac:(lia)). lia.
Qed.

Lemma int16_only_ValueError (s : string) (e : exn) :
  int16 s = Raise e -> e = ValueError.
Proof.
  unfold int16, int16_chars.
  destruct (skip_sign _) as [neg l].
  destruct (starts_with_underscore _); [congruence |].
  destruct (scan_digits _ _ _ _) as [[[v n] rest] |]; [| congruence].
  destruct n; [congruence |].
  destruct (skip_int_space rest); congruence.
Qed.

Lemma _pulses_to_deg_shipped (n : Z) :
  _pulses_to_deg pulses_per_turn n = Ok (reported_deg n).
Proof. reflexivity. Qed.

(** The two outcomes of [_update_position]. *)
Lemma _update_position_cases (self : ElliptecController) (resp : string) :
  (int16_chars (pos_hex resp) = Raise ValueError /\
   _update_position self resp = Ok self) \/
  (exists n, int16_chars (pos_hex resp) = Ok n /\
             _update_position self resp =
             Ok (set_position self (round2 (reported_deg n)))).
Proof.
  unfold _update_position, int16, pos_hex.
  rewrite list_ascii_of_string_of_list_ascii.
  destruct (int16_chars _) as [n | e] eqn:E.
  - right. exists n. split; [reflexivity |].
    cbn [bind]. rewrite _pulses_to_deg_shipped. reflexivity.
  - left. assert (e = ValueError).
    { apply (int16_only_ValueError
               (string_of_list_ascii (last8 (list_ascii_of_string resp)))).
      unfold int16. rewrite list_ascii_of_string_of_list_ascii. exact E. }
    subst e. split; reflexivity.
Qed.

Lemma _update_position_total (self : ElliptecController) (resp : string) :
  exists self', _update_position self resp = Ok self' /\
                address self' = address self.
Proof.
  destruct (_update_position_cases self resp) as [[_ H] | (n & _ & H)];
    rewrite H; eexists; split; reflexivity.
Qed.

(** Every command that reads a position back completes, whatever the
    device answers. *)
Lemma send_and_update_total (self : ElliptecController) (ser : Serial)
      (cmd : string) :
  exists self' resp,
    send_and_update self ser cmd =
    Ok (self', snd (_send_cmd self ser cmd), resp) /\
    address self' = address self.
Proof.
  unfold send_and_update.
  destruct (_send_cmd self ser cmd) as [resp ser'] eqn:E.
  destruct (_update_position_total self resp) as (self' & H & A).
  exists self', resp. rewrite H. split; [reflexivity | exact A].
Qed.

End DriverFacts.

(** ** The driver's conversions and position cache *)

Module DriverClaims.
Import Py PyFacts ELL14 DriverSpec DriverFacts.

Lemma fdiv_fin (a b : Q) : ~ (b == 0)%Q -> fdiv (Fin a) (Fin b) = Fin (a / b).
Proof. intro H. simpl. rewrite (Qeq_bool_false _ _ H). reflexivity. Qed.

Lemma _deg_to_pulses_fin (ppt : Z) (a : Q) :
  _deg_to_pulses ppt (Fin a) = Ok (int_of_float (a * inject_Z ppt / 360)).
Proof. reflexivity. Qed.




End DriverClaims.

(** ** Facts about the optimizer *)

Module OptimizerFacts.
Import Py PyFacts ELL14 DriverSpec DriverFacts DriverClaims Compensation OptimizerSpec.


Lemma move_absolute_deg_fin (w : ElliptecController) (ser : Serial) (d : Q) :
  exists w' resp,
    move_absolute_deg w ser (Fin d) =
    Ok (w', ser_write (ser_write ser (frame_ma w d)) crlf, resp) /\
    address w' = address w.
Proof.
  destruct (send_and_update_total w ser
              ("ma" ++ format_08X
                 (Z.land (int_of_float (d * inject_Z pulses_per_turn / 360))
                         0xFFFFFFFF))) as (w' & resp & H & A).
  exists w', resp. split; [exact H | exact A].
Qed.

Lemma move_current_fin (self : ContinuousPolarizationOptimizer) (ser : Serial)
      (w : ElliptecController) (d : Q) :
  getitem2 (_waveplates self) (_current_wp self) = Ok w ->
  exists w',
    move_current self ser (Fin d) =
    Ok (set_waveplates self (mutated2 (_waveplates self) (_current_wp self) w'),
        ser_write (ser_write ser (frame_ma w d)) crlf) /\
    address w' = address w.
Proof.
  intro G. unfold move_current. rewrite G. cbn [bind].
  destruct (move_absolute_deg_fin w ser d) as (w' & resp & H & A).
  rewrite H. exists w'. split; [reflexivity | exact A].
Qed.

Lemma move_current_not_finite (self : ContinuousPolarizationOptimizer)
      (ser : Serial) (w : ElliptecController) :
  getitem2 (_waveplates self) (_current_wp self) = Ok w ->
  move_current self ser NaN = Raise ValueError /\
  move_current self ser PInf = Raise OverflowError /\
  move_current self ser NInf = Raise OverflowError.
Proof.
  intro G. unfold move_current. rewrite G. repeat split.
Qed.

Lemma compute_and_move_destination (self : ContinuousPolarizationOptimizer)
      (ser : Serial) (position : Q) :
  compute_and_move self ser position =
  move_current self ser (newton_destination self position).
Proof.
  unfold compute_and_move, newton_destination, q_left, q_center, q_right.
  destruct (_qbers self) as [[q_l q] q_r]. cbn [fst snd].
  destruct (flt (Fin 0) _); reflexivity.
Qed.


(** A descent step in the compute phase: the sample is stored as the left
    one, the destination is computed from the three samples and the
    stored origin, and the step ends with [advance]. *)
Lemma descent_compute_phase (self : ContinuousPolarizationOptimizer)
      (ser : Serial) (qber : Q) :
  _current_pos self = 0%nat ->
  Qltb qber (_threshold self) = false ->
  coordinate_descent_2nd_order self ser qber =
  ('(self', ser') <-
     move_current (set_qbers self (qber, q_center self, q_right self)) ser
       (newton_destination
          (set_qbers self (qber, q_center self, q_right self))
          (_origin_position self)) ;;
   Ok (advance self', ser')).
Proof.
  intros H0 Hthr. unfold coordinate_descent_2nd_order, q_center, q_right.
  rewrite Hthr, H0.
  repeat (progress (cbn [Nat.eqb bind _current_pos set_qbers]; rewrite ?H0)).
  destruct (_qbers self) as [[q_l q] q_r].
  repeat (progress (cbn [Nat.eqb bind setitem3 fst snd _current_pos set_qbers];
                    rewrite ?H0)).
  rewrite compute_and_move_destination. reflexivity.
Qed.


(** The stage and slot indices stay in range along a descent. *)
Lemma move_current_indices (self self' : ContinuousPolarizationOptimizer)
      (ser ser' : Serial) (d : float64) :
  move_current self ser d = Ok (self', ser') ->
  _current_wp self' = _current_wp self /\ _current_pos self' = _current_pos self.
Proof.
  unfold move_current.
  destruct (getitem2 _ _) as [w |]; cbn [bind]; [| discriminate].
  destruct (move_absolute_deg w ser d) as [[[w' r] resp] |]; cbn [bind];
    [| discriminate].
  intro H. injection H as <- _. split; reflexivity.
Qed.

Lemma advance_indices (self : ContinuousPolarizationOptimizer) :
  (_current_wp self < 2)%nat ->
  (_current_wp (advance self) < 2)%nat /\ (_current_pos (advance self) < 3)%nat.
Proof.
  intro H. unfold advance. cbn [_current_pos _current_wp set_positions set_current_pos].
  destruct (Nat.eqb_spec (S (_current_pos self) mod 3) 1) as [E | E];
    cbn [_current_pos _current_wp set_current_wp]; split;
    try (apply Nat.mod_upper_bound; discriminate); exact H.
Qed.

Lemma descent_indices (self self' : ContinuousPolarizationOptimizer)
      (ser ser' : Serial) (qber : Q) :
  (_current_wp self < 2)%nat ->
  coordinate_descent_2nd_order self ser qber = Ok (self', ser') ->
  (_current_wp self' < 2)%nat /\ (_current_pos self' < 3)%nat.
Proof.
  intros Hw. unfold coordinate_descent_2nd_order.
  destruct (Qltb qber (_threshold self)).
  { intro H. injection H as <- _. cbn. lia. }
  set (first := if (_current_pos self =? 1)%nat then _ else _).
  assert (F : forall s p, first = Ok (s, p) ->
                          _current_wp s = _current_wp self /\
                          _current_pos s = _current_pos self).
  { intros s p. unfold first. destruct (_current_pos self =? 1)%nat.
    - destruct (getitem2 _ _); cbn [bind]; [| discriminate].
      intro H. injection H as <- _. split; reflexivity.
    - intro H. injection H as <- _. split; reflexivity. }
  destruct first as [[s0 position] |]; cbn [bind]; [| discriminate].
  destruct (F s0 position eq_refl) as [W0 P0]. clear F.
  destruct (setitem3 _ _ _) as [qs |]; cbn [bind]; [| discriminate].
  cbn [_current_pos _current_wp set_qbers].
  set (s1 := set_qbers s0 qs).
  assert (W1 : _current_wp s1 = _current_wp self) by exact W0.
  clearbody s1.
  destruct (if (_current_pos s0 =? 1)%nat then _ else _) as [[s2 r2] |] eqn:E2;
    cbn [bind]; [| discriminate].
  assert (W2 : _current_wp s2 = _current_wp self).
  { destruct (_current_pos s0 =? 1)%nat.
    - destruct (move_current_indices _ _ _ _ _ E2) as [A _]. congruence.
    - injection E2 as <- _. exact W1. }
  destruct (if (_current_pos s2 =? 2)%nat then _ else _) as [[s3 r3] |] eqn:E3;
    cbn [bind]; [| discriminate].
  assert (W3 : _current_wp s3 = _current_wp self).
  { destruct (_current_pos s2 =? 2)%nat.
    - destruct (move_current_indices _ _ _ _ _ E3) as [A _]. congruence.
    - injection E3 as <- _. exact W2. }
  destruct (if (_current_pos s3 =? 0)%nat then _ else _) as [[s4 r4] |] eqn:E4;
    cbn [bind]; [| discriminate].
  assert (W4 : _current_wp s4 = _current_wp self).
  { destruct (_current_pos s3 =? 0)%nat.
    - rewrite compute_and_move_destination in E4.
      destruct (move_current_indices _ _ _ _ _ E4) as [A _]. congruence.
    - injection E4 as <- _. exact W3. }
  intro H. injection H as <- _. apply advance_indices. lia.
Qed.

End OptimizerFacts.

(** ** The coordinate descent *)

Module DescentClaims.
Import Py PyFacts ELL14 DriverSpec DriverFacts DriverClaims Compensation OptimizerSpec OptimizerFacts.

(** C5: a sample strictly below the threshold resets the state machine to
    stage 0 and to the centre slot, sends nothing to the stages and
    leaves every other field of the optimizer, and the port, as they
    were. *)
Theorem threshold_short_circuit
        (self : ContinuousPolarizationOptimizer) (ser : Serial) (qber : Q) :
  (qber < _threshold self)%Q ->
  coordinate_descent_2nd_order self ser qber =
  Ok ({| _waveplates := _waveplates self;
         _max_stepsize_deg := _max_stepsize_deg self;
         _threshold := _threshold self;
         _positions := _positions self;
         _current_wp := 0;
         _current_pos := 1;
         _origin_position := _origin_position self;
         _qbers := _qbers self;
         _n_stored := _n_stored self;
         _previous_qbers := _previous_qbers self;
         _previous_positions := _previous_positions self |}, ser).
Proof.
  intro H. apply Qltb_lt in H. unfold coordinate_descent_2nd_order.
  rewrite H. reflexivity.
Qed.

Lemma threshold_short_circuit_witness :
  exists self',
    coordinate_descent_2nd_order
      (Examples.probing (1 # 4) (3 # 8)) Examples.port (5 # 1000) =
    Ok (self', Examples.port) /\
    _current_wp self' = 0%nat /\ _current_pos self' = 1%nat.
Proof.
  eexists. split.
  - apply (threshold_short_circuit
             (Examples.probing (1 # 4) (3 # 8)) Examples.port (5 # 1000)).
    reflexivity.
  - split; reflexivity.
Defined.

Lemma square_nonzero (ms : Q) : ~ (ms == 0)%Q -> ~ (ms ^ 2 == 0)%Q.
Proof.
  intros H E. apply H. change (ms ^ 2)%Q with (ms * ms)%Q in E.
  destruct (Qmult_integral _ _ E); assumption.
Qed.

(** The destination when the curvature vanishes and the slope does not:
    the quotient is an infinity and the clamp turns it into 5 degrees. *)
Lemma destination_at_zero_curvature
      (self : ContinuousPolarizationOptimizer) (position : Q) :
  ~ (_max_stepsize_deg self == 0)%Q ->
  (q_right self - 2 * q_center self + q_left self == 0)%Q ->
  newton_destination self position =
  (if Qltb 0 ((q_right self - q_left self) / (2 * _max_stepsize_deg self))
   then Fin (position + 1 * 5)
   else if Qltb ((q_right self - q_left self) / (2 * _max_stepsize_deg self)) 0
        then Fin (position + -1 * 5)
        else NaN).
Proof.
  intros Hms Hnum. unfold newton_destination.
  assert (H2 : ~ (2 * _max_stepsize_deg self == 0)%Q) by (intro; apply Hms; lra).
  rewrite (fdiv_fin _ _ H2), (fdiv_fin _ _ (square_nonzero _ Hms)).
  set (dQ_dV := ((q_right self - q_left self) / (2 * _max_stepsize_deg self))%Q).
  set (c := ((q_right self - 2 * q_center self + q_left self)
             / _max_stepsize_deg self ^ 2)%Q).
  assert (Hc : (c == 0)%Q) by (unfold c; rewrite Hnum; reflexivity).
  assert (Z0 : Qeq_bool c 0 = true) by (apply Qeq_bool_iff; exact Hc).
  assert (N0 : Qltb 0 c = false) by (apply Qltb_ge; lra).
  cbn [fdiv flt]. rewrite Z0, N0.
  destruct (Qltb 0 dQ_dV); [reflexivity |].
  destruct (Qltb dQ_dV 0); reflexivity.
Qed.



(** With three equal samples the quotient is [0 / 0]: the step is NaN,
    which survives the clamp, and the conversion to pulses raises. *)
Lemma flat_samples_raise
      (self : ContinuousPolarizationOptimizer) (ser : Serial) (qber : Q)
      (w : ElliptecController) :
  _current_pos self = 0%nat ->
  (_threshold self <= qber)%Q ->
  getitem2 (_waveplates self) (_current_wp self) = Ok w ->
  ~ (_max_stepsize_deg self == 0)%Q ->
  (q_center self == qber)%Q -> (q_right self == qber)%Q ->
  coordinate_descent_2nd_order self ser qber = Raise ValueError.
Proof.
  intros H0 Hthr G Hms Hc Hr. apply Qltb_ge in Hthr.
  rewrite (descent_compute_phase self ser qber H0 Hthr).
  rewrite destination_at_zero_curvature; [| exact Hms |].
  - unfold q_left, q_right. cbn [_qbers set_qbers fst snd _max_stepsize_deg].
    fold (q_right self).
    assert (E : ((q_right self - qber) / (2 * _max_stepsize_deg self) == 0)%Q).
    { rewrite Hr. unfold Qminus. rewrite Qplus_opp_r. reflexivity. }
    assert (A : Qltb 0 ((q_right self - qber) / (2 * _max_stepsize_deg self))
                = false) by (apply Qltb_ge; lra).
    assert (B : Qltb ((q_right self - qber) / (2 * _max_stepsize_deg self)) 0
                = false) by (apply Qltb_ge; lra).
    rewrite A, B.
    destruct (move_current_not_finite
                (set_qbers self (qber, q_center self, q_right self)) ser w G)
      as (N & _).
    rewrite N. reflexivity.
  - unfold q_left, q_center, q_right. cbn [_qbers set_qbers fst snd].
    fold (q_center self) (q_right self). lra.
Qed.


(** The same run with three equal samples ends in an exception. *)
Lemma flat_run_raises :
  exists self0 self1 ser1 self2 ser2,
    Compensation.__init__ (Examples.stage "0", Examples.stage "2")
                          2 (1 # 100) 1 = Ok self0 /\
    coordinate_descent_2nd_order self0 Examples.port (1 # 4) = Ok (self1, ser1) /\
    coordinate_descent_2nd_order self1 ser1 (1 # 4) = Ok (self2, ser2) /\
    coordinate_descent_2nd_order self2 ser2 (1 # 4) = Raise ValueError.
Proof.
  eexists _, _, _, _, _.
  split; [reflexivity |]. split; [vm_compute; reflexivity |].
  split; [vm_compute; reflexivity |]. vm_compute. reflexivity.
Qed.

End DescentClaims.

(** ** The random search *)

Module SearchFacts.
Import Py PyFacts ELL14 DriverSpec DriverFacts Compensation OptimizerSpec.

Lemma min_from_le (l : list Q) :
  forall best : Q,
    (min_from best l <= best)%Q /\
    (forall x, In x l -> min_from best l <= x)%Q.
Proof.
  induction l as [| y l IH]; intro best; cbn [min_from].
  - split; [apply Qle_refl | intros x []].
  - destruct (Qltb y best) eqn:E.
    + apply Qltb_lt in E. destruct (IH y) as [A B]. split; [lra |].
      intros x [<- | Hx]; [exact A | exact (B x Hx)].
    + apply Qltb_ge in E. destruct (IH best) as [A B]. split; [exact A |].
      intros x [<- | Hx]; [lra | exact (B x Hx)].
Qed.

(** [argmin_from] returns an index at which the minimum sits; [pre] is the
    part of the array already scanned. *)
Lemma argmin_from_nth (l : list Q) :
  forall (pre : list Q) (best : Q) (besti : nat),
    nth_error pre besti = Some best ->
    nth_error (pre ++ l) (argmin_from best besti (List.length pre) l) =
    Some (min_from best l).
Proof.
  induction l as [| y l IH]; intros pre best besti Hb; cbn [argmin_from min_from].
  - rewrite app_nil_r. exact Hb.
  - assert (Hlen : List.length (pre ++ [y]) = S (List.length pre))
      by (rewrite length_app; cbn; lia).
    replace (pre ++ y :: l) with ((pre ++ [y]) ++ l)
      by (rewrite <- app_assoc; reflexivity).
    rewrite <- Hlen. destruct (Qltb y best).
    + apply IH. rewrite nth_error_app2, Nat.sub_diag by lia. reflexivity.
    + apply IH. rewrite nth_error_app1; [exact Hb |].
      apply nth_error_Some. congruence.
Qed.

Lemma np_min_argmin (l : list Q) :
  l <> [] ->
  exists (m : Q) (i : nat),
    np_min l = Ok m /\ np_argmin l = Ok i /\
    nth_error l i = Some m /\ (forall x, In x l -> m <= x)%Q.
Proof.
  destruct l as [| y l]; [congruence |]. intros _.
  exists (min_from y l), (argmin_from y 0 1 l).
  split; [reflexivity |]. split; [reflexivity |]. split.
  - apply (argmin_from_nth l [y] y 0%nat). reflexivity.
  - destruct (min_from_le l y) as [A B].
    intros x [<- | Hx]; [exact A | exact (B x Hx)].
Qed.

Lemma pushed_length {A : Type} (n : Z) (buffer : list A) (a : A) :
  buffer <> [] ->
  List.length (pushed n buffer a) =
  (if Z.of_nat (List.length buffer) <? n then S (List.length buffer)
   else List.length buffer).
Proof.
  intro H. unfold pushed. destruct (_ <? _); rewrite length_app; cbn.
  - lia.
  - destruct buffer; [congruence | cbn; lia].
Qed.

Lemma random_minimizer_try_spec (self : ContinuousPolarizationOptimizer) (qber : Q) :
  well_formed self ->
  exists (m : Q) (i : nat) (best : Q * Q) (self' : ContinuousPolarizationOptimizer),
    np_min (_previous_qbers self) = Ok m /\
    nth_error (_previous_qbers self) i = Some m /\
    (forall x, In x (_previous_qbers self) -> m <= x)%Q /\
    nth_error (_previous_positions self) i = Some best /\
    random_minimizer_try self qber = Ok self' /\
    _positions self' = (if Qltb qber m then get_positions self else best) /\
    _previous_qbers self' = pushed (_n_stored self) (_previous_qbers self) qber /\
    _previous_positions self' =
    pushed (_n_stored self) (_previous_positions self) (get_positions self) /\
    _n_stored self' = _n_stored self /\
    _waveplates self' = _waveplates self.
Proof.
  intros [Hne Hlen].
  destruct (np_min_argmin _ Hne) as (m & i & Hm & Hi & Hnth & Hmin).
  assert (Hb : exists best, nth_error (_previous_positions self) i = Some best).
  { destruct (nth_error (_previous_positions self) i) eqn:E; [eauto |].
    apply nth_error_None in E. rewrite Hlen in E.
    assert (i < List.length (_previous_qbers self))%nat
      by (apply nth_error_Some; congruence).
    lia. }
  destruct Hb as [best Hbest].
  assert (Hchoice : (if Qltb qber m then Ok (get_positions self)
                     else i <- np_argmin (_previous_qbers self) ;;
                          getitem (_previous_positions self) i) =
                    Ok (if Qltb qber m then get_positions self else best)).
  { destruct (Qltb qber m); [reflexivity |].
    rewrite Hi. cbn [bind]. unfold getitem. rewrite Hbest. reflexivity. }
  exists m, i, best. unfold random_minimizer_try. rewrite Hm. cbn [bind].
  rewrite Hchoice. cbn [bind]. cbn [_previous_qbers _n_stored set_positions].
  unfold pushed. rewrite Hlen.
  destruct (Z.of_nat (List.length (_previous_qbers self)) <? _n_stored self);
    eexists; repeat split; try reflexivity; assumption.
Qed.

Lemma random_minimizer_try_well_formed
      (self self' : ContinuousPolarizationOptimizer) (qber : Q) :
  well_formed self -> random_minimizer_try self qber = Ok self' ->
  well_formed self' /\
  (1 <= _n_stored self ->
   Z.of_nat (List.length (_previous_qbers self)) <= _n_stored self ->
   Z.of_nat (List.length (_previous_qbers self')) <= _n_stored self).
Proof.
  intros WF H.
  destruct (random_minimizer_try_spec self qber WF)
    as (m & i & best & s & _ & _ & _ & _ & R & _ & Q1 & Q2 & _ & _).
  rewrite R in H. injection H as <-. destruct WF as [Hne Hlen].
  assert (Hne' : _previous_positions self <> []).
  { intro E. rewrite E in Hlen. destruct (_previous_qbers self); [congruence |].
    discriminate. }
  split; [split |].
  - rewrite Q1. unfold pushed. destruct (_ <? _); intro E;
      apply app_eq_nil in E; destruct E; discriminate.
  - rewrite Q1, Q2, !pushed_length, Hlen by assumption. reflexivity.
  - intros H1 Hn. rewrite Q1, pushed_length by assumption.
    destruct (Z.ltb_spec (Z.of_nat (List.length (_previous_qbers self)))
                         (_n_stored self)); lia.
Qed.

(** A whole step: the [try] block cannot fail between two steps, and the
    perturbation that follows leaves the history alone but overwrites the
    operating point with the positions the stages report. *)
Lemma random_minimizer_spec (self : ContinuousPolarizationOptimizer)
      (ser : Serial) (qber delta_phi : Q) (wp : nat) :
  well_formed self -> (wp < 2)%nat ->
  exists self1 self' ser',
    random_minimizer_try self qber = Ok self1 /\
    random_minimizer self ser qber delta_phi wp = Ok (self', ser') /\
    _previous_qbers self' = _previous_qbers self1 /\
    _previous_positions self' = _previous_positions self1 /\
    _n_stored self' = _n_stored self /\
    _positions self' = get_positions self'.
Proof.
  intros WF Hwp.
  destruct (random_minimizer_try_spec self qber WF)
    as (m & i & best & self1 & _ & _ & _ & _ & R & _ & _ & _ & N & _).
  exists self1. unfold random_minimizer. rewrite R.
  assert (G : exists w, getitem2 (_waveplates self1) wp = Ok w).
  { destruct wp as [| [| wp]]; [eexists; reflexivity .. | lia]. }
  destruct G as [w G]. rewrite G. cbn [bind]. unfold move_relative_deg.
  rewrite DriverClaims._deg_to_pulses_fin. cbn [bind].
  match goal with
  | |- context [send_and_update ?a ?b ?c] =>
      destruct (send_and_update_total a b c) as (w' & resp & H & _)
  end.
  rewrite H. cbn [bind]. eexists _, _. split; [reflexivity |].
  split; [reflexivity |]. repeat split. exact N.
Qed.

End SearchFacts.

Module SearchClaims.
Import Py PyFacts ELL14 DriverSpec DriverFacts Compensation OptimizerSpec SearchFacts.

(** *** The history *)

Lemma tl_skipn {A : Type} (l : list A) :
  forall k, tl (skipn k l) = skipn (S k) l.
Proof.
  induction l as [| a l IH]; intro k.
  - destruct k; reflexivity.
  - destruct k as [| k]; [reflexivity |]. cbn [skipn]. rewrite IH. reflexivity.
Qed.

Lemma pushed_lastn {A : Type} (n : Z) (l : list A) (a : A) :
  1 <= n -> pushed n (lastn n l) a = lastn n (l ++ [a]).
Proof.
  intro Hn. unfold pushed, lastn.
  rewrite length_skipn, length_app. cbn [List.length].
  destruct (Z.ltb_spec
              (Z.of_nat (List.length l - (List.length l - Z.to_nat n)))
              n) as [L | L].
  - replace (List.length l - Z.to_nat n)%nat with 0%nat by lia.
    replace (List.length l + 1 - Z.to_nat n)%nat with 0%nat by lia.
    reflexivity.
  - rewrite tl_skipn, skipn_app.
    replace (List.length l + 1 - Z.to_nat n)%nat
      with (S (List.length l - Z.to_nat n)) by lia.
    replace (S (List.length l - Z.to_nat n) - List.length l)%nat
      with 0%nat by lia.
    reflexivity.
Qed.

Lemma lastn_length {A : Type} (n : Z) (l : list A) :
  1 <= n -> l <> [] ->
  1 <= Z.of_nat (List.length (lastn n l)) <= n.
Proof.
  intros Hn Hl. unfold lastn. rewrite length_skipn.
  destruct l; [congruence |]. cbn [List.length]. lia.
Qed.

Lemma random_search_history (n : Z) (steps : list (Q * Q * nat)) :
  1 <= n ->
  Forall (fun s => (stage_drawn s < 2)%nat) steps ->
  forall (self : ContinuousPolarizationOptimizer) (ser : Serial) (hist : list Q),
    well_formed self -> _n_stored self = n ->
    _previous_qbers self = lastn n hist ->
    exists self' ser',
      random_search steps self ser = Ok (self', ser') /\
      well_formed self' /\ _n_stored self' = n /\
      _previous_qbers self' = lastn n (hist ++ map sample steps).
Proof.
  intros Hn Hsteps. induction Hsteps as [| [[qber delta_phi] wp] steps Hwp _ IH];
    intros self ser hist WF HN Hq.
  - exists self, ser. cbn [random_search map]. rewrite app_nil_r. auto.
  - cbn [random_search].
    destruct (random_minimizer_spec self ser qber delta_phi wp WF Hwp)
      as (self1 & self' & ser' & T & R & Q1 & Q2 & N & _).
    rewrite R. cbn [bind].
    destruct (random_minimizer_try_spec self qber WF)
      as (m & i & best & s1 & _ & _ & _ & _ & T' & _ & P1 & _).
    rewrite T in T'. injection T' as <-.
    destruct (random_minimizer_try_well_formed self self1 qber WF T)
      as [[W1 W2] _].
    assert (WF' : well_formed self').
    { split; [rewrite Q1; exact W1 | rewrite Q1, Q2; exact W2]. }
    destruct (IH self' ser' (hist ++ [qber]) WF') as (s2 & r2 & E & W & M & H).
    + congruence.
    + rewrite Q1, P1, HN, Hq. apply pushed_lastn. exact Hn.
    + exists s2, r2. rewrite <- app_assoc in H. auto.
Qed.

(** C7: the history of the random search is a FIFO ring of capacity
    [n_stored >= 1].  A step appends the new pair when fewer than
    [n_stored] are stored and otherwise drops the oldest pair before
    appending; so after any run of steps on a new optimizer the history
    holds the last [n_stored] entries of everything recorded (the initial
    entry 0.5 first) and is never longer than [n_stored]. *)
Theorem history_is_fifo_ring (n : Z) :
  1 <= n ->
  (forall (self : ContinuousPolarizationOptimizer) (qber : Q),
      _n_stored self = n -> well_formed self ->
      exists self',
        random_minimizer_try self qber = Ok self' /\
        _previous_qbers self' =
        (if Z.of_nat (List.length (_previous_qbers self)) <? n
         then _previous_qbers self ++ [qber]
         else tl (_previous_qbers self) ++ [qber]) /\
        _previous_positions self' =
        (if Z.of_nat (List.length (_previous_positions self)) <? n
         then _previous_positions self ++ [get_positions self]
         else tl (_previous_positions self) ++ [get_positions self])) /\
  (forall (waveplates : ElliptecController * ElliptecController)
          (max_stepsize_deg threshold : Q) (steps : list (Q * Q * nat))
          (ser : Serial),
      Forall (fun s => (stage_drawn s < 2)%nat) steps ->
      exists self' ser',
        (self <- Compensation.__init__ waveplates max_stepsize_deg threshold n ;;
         random_search steps self ser) = Ok (self', ser') /\
        _previous_qbers self' = lastn n ((1 # 2)%Q :: map sample steps) /\
        List.length (_previous_positions self') =
        List.length (_previous_qbers self') /\
        1 <= Z.of_nat (List.length (_previous_qbers self')) <= n).
Proof.
  intro Hn. split.
  - intros self qber HN WF.
    destruct (random_minimizer_try_spec self qber WF)
      as (m & i & best & self' & _ & _ & _ & _ & R & _ & Q1 & Q2 & _).
    exists self'. split; [exact R |]. rewrite Q1, Q2, HN. unfold pushed.
    split; reflexivity.
  - intros waveplates ms thr steps ser Hsteps. cbn [Compensation.__init__ bind].
    match goal with
    | |- context [random_search steps ?s ser] => set (self0 := s)
    end.
    assert (WF : well_formed self0) by (split; [discriminate | reflexivity]).
    assert (H0 : _previous_qbers self0 = lastn n [(1 # 2)%Q]).
    { unfold lastn. cbn [List.length].
      replace (1 - Z.to_nat n)%nat with 0%nat by lia. reflexivity. }
    destruct (random_search_history n steps Hn Hsteps self0 ser [(1 # 2)%Q]
                WF eq_refl H0) as (self' & ser' & R & [W1 W2] & _ & H).
    exists self', ser'. split; [exact R |]. split; [exact H |].
    split; [exact W2 |]. rewrite H. apply lastn_length; [exact Hn | discriminate].
Qed.

Lemma history_is_fifo_ring_witness :
  1 <= 3 /\
  exists self' ser',
    (self <- Compensation.__init__ (Examples.stage "0", Examples.stage "2")
                                   2 (1 # 100) 3 ;;
     random_search [(20 # 100, 1, 0%nat); (18 # 100, -1, 1%nat);
                    (22 # 100, 1 # 2, 0%nat); (19 # 100, 2, 1%nat)]%Q
                   self Examples.port) = Ok (self', ser') /\
    _previous_qbers self' = [18 # 100; 22 # 100; 19 # 100]%Q /\
    List.length (_previous_positions self') = 3%nat.
Proof.
  assert (H3 : 1 <= 3) by lia. split; [exact H3 |].
  destruct (proj2 (history_is_fifo_ring 3 H3)
              (Examples.stage "0", Examples.stage "2") 2%Q (1 # 100)%Q
              [(20 # 100, 1, 0%nat); (18 # 100, -1, 1%nat);
               (22 # 100, 1 # 2, 0%nat); (19 # 100, 2, 1%nat)]%Q
              Examples.port)
    as (self' & ser' & R & H & L & _).
  - repeat constructor.
  - exists self', ser'. split; [exact R |]. split; [exact H |].
    rewrite L, H. reflexivity.
Defined.

End SearchClaims.

(** ** Construction *)

Module ConstructionClaims.
Import Py ELL14 Compensation OptimizerSpec.

(** C3 (as the code has it): neither constructor checks its arguments.
    For every step size, threshold and history capacity the optimizer is
    built, and for every address the controller is; the values are stored
    as given and the state machine starts at stage 0, centre slot. *)
Theorem constructors_accept_any_configuration
        (waveplates : ElliptecController * ElliptecController)
        (max_stepsize_deg threshold : Q) (n_stored : Z)
        (cls : option Serial) (opened : Serial)
        (address : string) (verbose : bool) :
  (exists self,
      Compensation.__init__ waveplates max_stepsize_deg threshold n_stored
      = Ok self /\
      _max_stepsize_deg self = max_stepsize_deg /\
      _threshold self = threshold /\
      _n_stored self = n_stored /\
      _waveplates self = waveplates /\
      _current_wp self = 0%nat /\ _current_pos self = 1%nat) /\
  (exists w ser,
      ELL14.__init__ cls opened address verbose = Ok (w, ser) /\
      ELL14.address w = address /\
      position w = 0%Q /\
      ser = match cls with Some s => s | None => opened end).
Proof.
  split.
  - eexists. split; [reflexivity |]. repeat split.
  - eexists _, _. split; [reflexivity |]. repeat split.
Qed.

(** C3 fails as stated: controllers with the addresses ["Z"] and ["10"],
    a step size of -2 degrees and a capacity of 0 are all accepted, and
    both kinds of control-loop step then run. *)
Lemma nonpositive_configuration_is_accepted :
  exists w0 ser0 w1 ser1 self,
    ELL14.__init__ None Examples.port "Z" false = Ok (w0, ser0) /\
    ELL14.__init__ (Some ser0) Examples.port "10" false = Ok (w1, ser1) /\
    Compensation.__init__ (w0, w1) (- (2)) (1 # 100) 0 = Ok self /\
    (_max_stepsize_deg self <= 0)%Q /\ _n_stored self <= 0 /\
    (exists r, random_minimizer self ser1 (1 # 5) (1 # 2) 0 = Ok r) /\
    (exists r, coordinate_descent_2nd_order self ser1 (1 # 5) = Ok r).
Proof.
  eexists _, _, _, _, _.
  split; [reflexivity |]. split; [reflexivity |]. split; [reflexivity |].
  split; [vm_compute; discriminate |]. split; [vm_compute; discriminate |].
  split; eexists; vm_compute; reflexivity.
Qed.

End ConstructionClaims.

(** ** Further properties of the driver *)

Module DriverCoverage.
Import Py PyFacts ELL14 DriverSpec DriverFacts DriverClaims CoverageSpec.

Lemma digit_value_hex_upper (d : Z) :
  0 <= d < 16 -> digit_value (hex_upper d) = Some d.
Proof.
  intro H.
  assert (C : d = 0 \/ d = 1 \/ d = 2 \/ d = 3 \/ d = 4 \/ d = 5 \/ d = 6 \/
              d = 7 \/ d = 8 \/ d = 9 \/ d = 10 \/ d = 11 \/ d = 12 \/
              d = 13 \/ d = 14 \/ d = 15) by lia.
  repeat (destruct C as [-> | C]; [reflexivity |]). subst d. reflexivity.
Qed.

Lemma hex_digits_acc (fuel : nat) :
  forall (n : Z) (acc : list ascii),
    hex_digits fuel n acc = hex_digits fuel n [] ++ acc.
Proof.
  induction fuel as [| f IH]; intros n acc; cbn [hex_digits].
  - reflexivity.
  - destruct (n / 16 =? 0); [reflexivity |].
    rewrite (IH (n / 16) (_ :: acc)), (IH (n / 16) [_]), <- app_assoc.
    reflexivity.
Qed.

(** With enough fuel [hex_digits] writes the digits of [n], most
    significant first. *)
Lemma hex_digits_spec (fuel : nat) :
  forall n : Z,
    0 <= n < 16 ^ Z.of_nat (S fuel) ->
    forallb is_hex_digit (hex_digits fuel n []) = true /\
    (forall a, fold_left hex_step (hex_digits fuel n []) a =
               a * 16 ^ Z.of_nat (List.length (hex_digits fuel n [])) + n).
Proof.
  induction fuel as [| f IH]; intros n Hn.
  - cbn [hex_digits]. change (16 ^ Z.of_nat 1) with 16 in Hn.
    rewrite Z.mod_small by lia. split.
    + cbn. unfold is_hex_digit. rewrite digit_value_hex_upper by lia. reflexivity.
    + intro a. cbn. unfold hex_step. rewrite digit_value_hex_upper by lia. lia.
  - cbn [hex_digits].
    assert (Hd : 0 <= n mod 16 < 16) by (apply Z.mod_pos_bound; lia).
    assert (Hdig : is_hex_digit (hex_upper (n mod 16)) = true)
      by (unfold is_hex_digit; rewrite digit_value_hex_upper by lia; reflexivity).
    destruct (Z.eqb_spec (n / 16) 0) as [E | E].
    + split.
      * cbn. rewrite Hdig. reflexivity.
      * intro a. cbn. unfold hex_step. rewrite digit_value_hex_upper by lia.
        pose proof (Z.div_mod n 16). lia.
    + rewrite hex_digits_acc.
      assert (Hq : 0 <= n / 16 < 16 ^ Z.of_nat (S f)).
      { rewrite Nat2Z.inj_succ, Z.pow_succ_r in Hn by lia. split.
        - apply Z.div_pos; lia.
        - apply Z.div_lt_upper_bound; lia. }
      destruct (IH (n / 16) Hq) as [A B]. split.
      * rewrite forallb_app, A. cbn. rewrite Hdig. reflexivity.
      * intro a. rewrite fold_left_app, B, length_app. cbn [fold_left List.length].
        unfold hex_step at 1. rewrite digit_value_hex_upper by lia.
        replace (Z.of_nat (List.length (hex_digits f (n / 16) []) + 1))
          with (Z.succ (Z.of_nat (List.length (hex_digits f (n / 16) [])))) by lia.
        rewrite Z.pow_succ_r by lia.
        pose proof (Z.div_mod n 16). lia.
Qed.

Lemma hex_digits_length (fuel : nat) :
  forall (n : Z) (k : nat),
    0 <= n < 16 ^ Z.of_nat (S k) ->
    (1 <= List.length (hex_digits fuel n []) <= S k)%nat.
Proof.
  induction fuel as [| f IH]; intros n k Hn; cbn [hex_digits].
  - cbn. lia.
  - destruct (Z.eqb_spec (n / 16) 0) as [E | E]; [cbn; lia |].
    rewrite hex_digits_acc, length_app. cbn [List.length].
    destruct k as [| k].
    + change (16 ^ Z.of_nat 1) with 16 in Hn.
      rewrite Z.div_small in E by lia. congruence.
    + assert (Hq : 0 <= n / 16 < 16 ^ Z.of_nat (S k)).
      { rewrite (Nat2Z.inj_succ (S k)), Z.pow_succ_r in Hn by lia. split.
        - apply Z.div_pos; lia.
        - apply Z.div_lt_upper_bound; lia. }
      specialize (IH (n / 16) k Hq). lia.
Qed.

Lemma log2_fuel (n : Z) :
  0 <= n -> n < 16 ^ Z.of_nat (S (Z.to_nat (Z.log2 n))).
Proof.
  intro H. destruct (Z.eq_dec n 0) as [-> | N]; [reflexivity |].
  pose proof (Z.log2_nonneg n) as L.
  pose proof (proj2 (Z.log2_spec n ltac:(lia))) as U.
  rewrite Nat2Z.inj_succ, Z2Nat.id by lia.
  eapply Z.lt_le_trans; [exact U |].
  apply Z.pow_le_mono_l. lia.
Qed.

Lemma fold_zeros (k : nat) :
  fold_left hex_step (repeat "0"%char k) 0 = 0.
Proof. induction k as [| k IH]; [reflexivity | exact IH]. Qed.

(** What [format(n, '08X')] writes for a 32-bit [n]. *)
Lemma format_08X_spec (n : Z) :
  0 <= n < 2 ^ 32 ->
  is_hex8 (list_ascii_of_string (format_08X n)) = true /\
  hex_value (list_ascii_of_string (format_08X n)) = n.
Proof.
  intro Hn. unfold format_08X. rewrite list_ascii_of_string_of_list_ascii.
  set (fuel := Z.to_nat (Z.log2 n)).
  destruct (hex_digits_spec fuel n) as [A B].
  { split; [lia | apply log2_fuel; lia]. }
  destruct (hex_digits_length fuel n 7) as [L1 L2].
  { change (16 ^ Z.of_nat 8) with (2 ^ 32). exact Hn. }
  set (ds := hex_digits fuel n []) in *.
  split.
  - unfold is_hex8. rewrite length_app, repeat_length, forallb_app, A.
    replace (8 - List.length ds + List.length ds)%nat with 8%nat by lia.
    rewrite andb_true_r. cbn [Nat.eqb andb].
    clear. induction (8 - List.length ds)%nat as [| k IH]; [reflexivity | exact IH].
  - unfold hex_value. change (fun acc c => _) with hex_step.
    rewrite fold_left_app, fold_zeros, B. lia.
Qed.

(** X1: the eight characters a move command carries are hexadecimal digits
    that [int(_, 16)] reads back as the pulse count modulo [2^32], whatever
    the pulse count. *)
Theorem payload_reads_back (pulses : Z) :
  is_hex8 (payload pulses) = true /\
  int16_chars (payload pulses) = Ok (pulses mod 2 ^ 32).
Proof.
  assert (M : Z.land pulses 0xFFFFFFFF = pulses mod 2 ^ 32)
    by (change 0xFFFFFFFF with (Z.ones 32); apply Z.land_ones; lia).
  assert (R : 0 <= pulses mod 2 ^ 32 < 2 ^ 32) by (apply Z.mod_pos_bound; lia).
  unfold payload. rewrite M.
  destruct (format_08X_spec _ R) as [H8 V]. split; [exact H8 |].
  unfold is_hex8 in H8. apply andb_true_iff in H8. destruct H8 as [Hlen Hhex].
  rewrite int16_chars_hex, V; [reflexivity | | exact Hhex].
  intro E. rewrite E in Hlen. discriminate.
Qed.

(** X2: for a pulse count in the signed 32-bit range, encoding it into a
    command and decoding the same eight characters as a response gives the
    angle of that very count, negative counts included. *)
Theorem signed_payload_round_trip (ppt pulses : Z) :
  ppt <> 0 ->
  - 2 ^ 31 <= pulses < 2 ^ 31 ->
  exists raw,
    int16_chars (payload pulses) = Ok raw /\
    _pulses_to_deg ppt raw = Ok (inject_Z pulses * 360 / inject_Z ppt)%Q.
Proof.
  intros Hppt Hr. exists (pulses mod 2 ^ 32).
  split; [apply payload_reads_back |].
  unfold _pulses_to_deg. destruct (Z.eqb_spec ppt 0); [contradiction |].
  assert (S : (if 0x80000000 <=? pulses mod 2 ^ 32
               then pulses mod 2 ^ 32 - 0x100000000
               else pulses mod 2 ^ 32) = pulses).
  { destruct (Z.lt_ge_cases pulses 0) as [N | P].
    - assert (E : pulses mod 2 ^ 32 = pulses + 2 ^ 32).
      { symmetry. apply (Z.mod_unique _ _ (-1)); lia. }
      rewrite E. destruct (Z.leb_spec 0x80000000 (pulses + 2 ^ 32)); lia.
    - rewrite Z.mod_small by lia.
      destruct (Z.leb_spec 0x80000000 pulses); lia. }
  rewrite S. reflexivity.
Qed.

Lemma signed_payload_round_trip_witness :
  exists raw,
    int16_chars (payload (-1)) = Ok raw /\
    raw = 4294967295 /\
    _pulses_to_deg pulses_per_turn raw =
    Ok (inject_Z (-1) * 360 / inject_Z pulses_per_turn)%Q.
Proof.
  destruct (signed_payload_round_trip pulses_per_turn (-1)) as (raw & P & D).
  - discriminate.
  - lia.
  - exists raw. split; [exact P |]. split; [| exact D].
    vm_compute in P. injection P as <-. reflexivity.
Defined.

(** *** A device that reports the commanded position *)

Lemma _update_position_payload (self : ElliptecController) (resp : string)
      (pulses : Z) :
  - 2 ^ 31 <= pulses < 2 ^ 31 ->
  pos_hex resp = payload pulses ->
  _update_position self resp =
  Ok (set_position self
        (round2 (inject_Z pulses * 360 / inject_Z pulses_per_turn))).
Proof.
  intros Hr He.
  destruct (signed_payload_round_trip pulses_per_turn pulses ltac:(discriminate) Hr)
    as (raw & P & D).
  destruct (_update_position_cases self resp) as [[E _] | (n & E & U)];
    rewrite He, P in E; [discriminate |].
  injection E as <-. rewrite U.
  rewrite _pulses_to_deg_shipped in D.
  pose proof (f_equal (fun r => match r with Ok q => q | Raise _ => 0%Q end) D)
    as K.
  cbn beta iota in K. rewrite K. reflexivity.
Qed.

(** X3: when the device answers a move-absolute command with a line that
    ends in the eight characters of the command, the cached position becomes
    the angle of the commanded pulse count, rounded to two decimals. *)
Theorem echoed_move_sets_position
        (self : ElliptecController) (ser : Serial) (pulses : Z) :
  - 2 ^ 31 <= pulses < 2 ^ 31 ->
  pos_hex (fst (_send_cmd self ser
                  ("ma" ++ format_08X (Z.land pulses 0xFFFFFFFF)))) =
  payload pulses ->
  exists ser' resp,
    move_absolute self ser pulses =
    Ok (set_position self
          (round2 (inject_Z pulses * 360 / inject_Z pulses_per_turn)),
        ser', resp).
Proof.
  intros Hr He. unfold move_absolute, send_and_update.
  destruct (_send_cmd self ser _) as [resp ser'] eqn:E. cbn [fst] in He.
  rewrite (_update_position_payload self resp pulses Hr He). cbn [bind].
  eauto.
Qed.

Lemma echoed_move_sets_position_witness :
  exists self' ser' resp,
    move_absolute (Examples.stage "0")
                  {| device := reporting (-796); written := [] |} (-796) =
    Ok (self', ser', resp) /\
    (get_position_deg self' == - (2))%Q.
Proof.
  destruct (echoed_move_sets_position
              (Examples.stage "0")
              {| device := reporting (-796); written := [] |} (-796))
    as (ser' & resp & M).
  - lia.
  - reflexivity.
  - eexists _, ser', resp. split; [exact M | reflexivity].
Defined.

Lemma truncation_close (A : Q) (C : Z) :
  0 < C ->
  (Qabs (inject_Z (int_of_float (A * inject_Z C / 360)) * 360 / inject_Z C - A)
   < 360 / inject_Z C)%Q.
Proof.
  intro HC. set (x := (A * inject_Z C / 360)%Q).
  pose proof HC as Hc. rewrite Zlt_Qlt in Hc. change (inject_Z 0) with 0%Q in Hc.
  pose proof (int_of_float_close x) as Hclose.
  set (p := inject_Z (int_of_float x)) in *.
  assert (E : (p * 360 / inject_Z C - A == (p - x) * (360 / inject_Z C))%Q).
  { unfold x. field. lra. }
  rewrite E.
  assert (K : (0 < 360 / inject_Z C)%Q) by (apply Qlt_shift_div_l; lra).
  apply Qabs_Qlt_condition in Hclose. destruct Hclose as [H1 H2].
  apply Qabs_Qlt_condition. split; nra.
Qed.

Lemma int_of_float_range (x : Q) :
  (- inject_Z (2 ^ 31) <= x < inject_Z (2 ^ 31))%Q ->
  - 2 ^ 31 <= int_of_float x < 2 ^ 31.
Proof.
  intros [Lo Hi]. destruct (int_of_float_spec x) as [P N].
  rewrite <- inject_Z_opp in Lo.
  destruct (Qlt_le_dec x 0) as [L | L].
  - destruct (N (Qlt_le_weak _ _ L)) as [N1 N2]. split.
    + rewrite Zle_Qle. lra.
    + rewrite Zlt_Qlt.
      assert (inject_Z (int_of_float x) < 1)%Q by lra.
      apply Qlt_trans with 1%Q; [assumption | reflexivity].
  - destruct (P L) as [P1 P2]. split.
    + rewrite Zle_Qle. apply Qle_trans with 0%Q; [discriminate |].
      assert (-1 < inject_Z (int_of_float x))%Q by lra.
      assert (Hz : -1 < int_of_float x) by (rewrite Zlt_Qlt; assumption).
      change 0%Q with (inject_Z 0). rewrite <- Zle_Qle. lia.
    + rewrite Zlt_Qlt. lra.
Qed.

(** X4: a move to an angle [a] whose pulse count fits 32 bits, answered by
    a device that reports the commanded position, leaves
    [get_position_deg] within one device step plus 0.005 degrees of [a]. *)
Theorem echoed_move_deg_accuracy
        (self : ElliptecController) (ser : Serial) (a : Q) :
  let p := int_of_float (a * inject_Z pulses_per_turn / 360) in
  (- inject_Z (2 ^ 31) <= a * inject_Z pulses_per_turn / 360
   < inject_Z (2 ^ 31))%Q ->
  pos_hex (fst (_send_cmd self ser
                  ("ma" ++ format_08X (Z.land p 0xFFFFFFFF)))) = payload p ->
  exists self' ser' resp,
    move_absolute_deg self ser (Fin a) = Ok (self', ser', resp) /\
    (Qabs (get_position_deg self' - a)
     < 360 / inject_Z pulses_per_turn + (1 # 200))%Q.
Proof.
  intros p Hr He. pose proof (int_of_float_range _ Hr) as Hp. fold p in Hp.
  unfold move_absolute_deg. rewrite _deg_to_pulses_fin. cbn [bind]. fold p.
  unfold send_and_update.
  destruct (_send_cmd self ser _) as [resp ser'] eqn:E. cbn [fst] in He.
  rewrite (_update_position_payload self resp p Hp He). cbn [bind].
  eexists _, _, _. split; [reflexivity |].
  cbn [get_position_deg position set_position].
  set (d := (inject_Z p * 360 / inject_Z pulses_per_turn)%Q).
  pose proof (round2_close d) as R.
  pose proof (truncation_close a pulses_per_turn ltac:(reflexivity)) as T.
  fold p in T. fold d in T.
  apply Qabs_Qle_condition in R. apply Qabs_Qlt_condition in T.
  apply Qabs_Qlt_condition. destruct R, T. split; lra.
Qed.

Lemma echoed_move_deg_accuracy_witness :
  exists self' ser' resp,
    move_absolute_deg (Examples.stage "0")
                      {| device := reporting 1991; written := [] |} (Fin 5) =
    Ok (self', ser', resp) /\
    (Qabs (get_position_deg self' - 5)
     < 360 / inject_Z pulses_per_turn + (1 # 200))%Q.
Proof.
  apply (echoed_move_deg_accuracy
           (Examples.stage "0")
           {| device := reporting 1991; written := [] |} 5).
  - split; [vm_compute; discriminate | reflexivity].
  - reflexivity.
Defined.

(** *** Framing *)

Lemma send_and_update_frame (self self' : ElliptecController)
      (ser ser' : Serial) (cmd resp : string) :
  send_and_update self ser cmd = Ok (self', ser', resp) ->
  written ser' = written ser ++ [(address self ++ cmd)%string; OptimizerSpec.crlf] /\
  device ser' = device ser /\
  address self' = address self /\ verbose self' = verbose self.
Proof.
  unfold send_and_update.
  destruct (_send_cmd self ser cmd) as [r s] eqn:E.
  unfold _send_cmd in E. injection E as _ <-.
  destruct (_update_position_cases self r) as [[_ U] | (n & _ & U)];
    rewrite U; cbn [bind]; intro H; injection H as <- <- _;
    (split; [cbn; rewrite <- app_assoc; reflexivity | repeat split]).
Qed.

(** *** The response *)

Lemma lstrip_split (l : list ascii) :
  exists pre, l = pre ++ lstrip l /\ forallb is_space pre = true.
Proof.
  induction l as [| c l (pre & E & S)]; [exists []; auto |].
  cbn [lstrip]. destruct (is_space c) eqn:Sc.
  - exists (c :: pre). split; [cbn; congruence | cbn; rewrite Sc; exact S].
  - exists []. auto.
Qed.

Lemma lstrip_head (l r : list ascii) (c : ascii) :
  lstrip l = c :: r -> is_space c = false.
Proof.
  induction l as [| a l IH]; cbn [lstrip]; [discriminate |].
  destruct (is_space a) eqn:Sa; [exact IH |].
  intro H. injection H as <- _. exact Sa.
Qed.

Lemma lstrip_in (l : list ascii) (c : ascii) :
  In c (lstrip l) -> In c l.
Proof.
  destruct (lstrip_split l) as (pre & E & _). intro H. rewrite E.
  apply in_or_app. right. exact H.
Qed.

Lemma lstrip_last (l r : list ascii) (c : ascii) :
  lstrip l = r ++ [c] -> exists r', l = r' ++ [c].
Proof.
  destruct (lstrip_split l) as (pre & E & _). intro H.
  exists (pre ++ r). rewrite E at 1. rewrite H, app_assoc. reflexivity.
Qed.

(** X6: the response [_send_cmd] hands back holds ASCII characters only and
    neither starts nor ends with whitespace, whatever bytes the device
    sent. *)
Theorem response_is_trimmed_ascii
        (self : ElliptecController) (ser : Serial) (cmd : string) :
  let resp := list_ascii_of_string (fst (_send_cmd self ser cmd)) in
  (forall c, In c resp -> (N_of_ascii c < 128)%N) /\
  (forall c r, resp = c :: r -> is_space c = false) /\
  (forall c r, resp = r ++ [c] -> is_space c = false).
Proof.
  cbn zeta. unfold _send_cmd. cbn [fst].
  rewrite list_ascii_of_string_of_list_ascii. unfold strip.
  set (raw := decode_ascii_ignore _).
  split; [| split].
  - intros c H. apply in_rev in H. apply lstrip_in in H.
    apply in_rev in H. apply lstrip_in in H.
    unfold raw, decode_ascii_ignore in H. apply filter_In in H.
    destruct H as [_ H]. apply N.ltb_lt. exact H.
  - intros c r H.
    assert (H' : lstrip (rev (lstrip raw)) = rev r ++ [c]).
    { rewrite <- (rev_involutive (lstrip _)), H. reflexivity. }
    destruct (lstrip_last _ _ _ H') as (r' & E).
    assert (E' : lstrip raw = c :: rev r').
    { rewrite <- (rev_involutive (lstrip raw)), E, rev_app_distr. reflexivity. }
    exact (lstrip_head _ _ _ E').
  - intros c r H.
    assert (H' : lstrip (rev (lstrip raw)) = c :: rev r).
    { rewrite <- (rev_involutive (lstrip _)), H, rev_app_distr. reflexivity. }
    exact (lstrip_head _ _ _ H').
Qed.

(** *** Symmetry and order of the conversion *)


Lemma int_of_float_mono (x y : Q) :
  (x <= y)%Q -> int_of_float x <= int_of_float y.
Proof.
  intro H.
  destruct (Qlt_le_dec x 0) as [Lx | Lx]; destruct (Qlt_le_dec y 0) as [Ly | Ly].
  - rewrite !int_of_float_nonpos by lra. apply Qceiling_resp_le. exact H.
  - rewrite (int_of_float_nonpos x), (int_of_float_nonneg y) by lra.
    apply Z.le_trans with 0.
    + change 0 with (Qceiling 0). apply Qceiling_resp_le. lra.
    + change 0 with (Qfloor 0). apply Qfloor_resp_le. exact Ly.
  - lra.
  - rewrite !int_of_float_nonneg by lra. apply Qfloor_resp_le. exact H.
Qed.


(** X8: for a calibration constant that is not negative the conversion to
    pulses keeps the order of angles. *)
Theorem deg_to_pulses_monotone (ppt : Z) (a b : Q) :
  0 <= ppt -> (a <= b)%Q ->
  exists p q,
    _deg_to_pulses ppt (Fin a) = Ok p /\
    _deg_to_pulses ppt (Fin b) = Ok q /\ p <= q.
Proof.
  intros Hp Hab. eexists _, _. split; [reflexivity |]. split; [reflexivity |].
  apply int_of_float_mono.
  rewrite Zle_Qle in Hp. change (inject_Z 0) with 0%Q in Hp.
  apply Qmult_le_compat_r; [| discriminate].
  apply Qmult_le_compat_r; assumption.
Qed.

Lemma deg_to_pulses_monotone_witness :
  exists p q,
    _deg_to_pulses pulses_per_turn (Fin (-999 # 100)) = Ok p /\
    _deg_to_pulses pulses_per_turn (Fin (35999 # 100)) = Ok q /\ p <= q.
Proof.
  apply (deg_to_pulses_monotone pulses_per_turn (-999 # 100) (35999 # 100)).
  - discriminate.
  - discriminate.
Defined.

(** *** Responses [int] rejects *)

Lemma meaningful_false (c : ascii) :
  meaningful c = false ->
  is_hex_digit c = false /\ is_int_space c = false /\
  is_underscore c = false /\
  is_plus c = false /\ is_minus c = false /\ is_x c = false.
Proof.
  unfold meaningful. intro H.
  repeat (apply orb_false_iff in H; destruct H as [H ?]). auto 10.
Qed.

Lemma is_zero_hex (c : ascii) : is_zero c = true -> is_hex_digit c = true.
Proof.
  unfold is_zero, is_char, is_hex_digit, digit_value.
  intro H. apply N.eqb_eq in H. rewrite H. reflexivity.
Qed.

Section Stray.

Variable c : ascii.
Hypothesis stray : meaningful c = false.

Lemma stray_skip_int_space (l : list ascii) :
  In c l -> In c (skip_int_space l).
Proof.
  destruct (meaningful_false c stray) as (_ & S & _).
  induction l as [| a l IH]; [intros [] |].
  cbn [skip_int_space]. destruct (is_int_space a) eqn:Sa; [| auto].
  intros [-> | H]; [congruence | exact (IH H)].
Qed.

Lemma stray_skip_sign (l : list ascii) : In c l -> In c (snd (skip_sign l)).
Proof.
  destruct (meaningful_false c stray) as (_ & _ & _ & P & M & _).
  destruct l as [| a l]; [intros [] |]. cbn [skip_sign].
  destruct (is_plus a) eqn:Pa; [intros [-> | H]; [congruence | exact H] |].
  destruct (is_minus a) eqn:Ma; [intros [-> | H]; [congruence | exact H] |].
  auto.
Qed.

Lemma stray_skip_prefix (l : list ascii) : In c l -> In c (skip_prefix l).
Proof.
  destruct (meaningful_false c stray) as (D & _ & U & _ & _ & X).
  destruct l as [| a0 [| a1 l]]; try (intros []; fail); cbn [skip_prefix]; auto.
  destruct (is_zero a0) eqn:Z0; cbn [andb]; [| auto].
  destruct (is_x a1) eqn:X1; [| auto].
  intros [-> | [-> | H]].
  - apply is_zero_hex in Z0. congruence.
  - congruence.
  - destruct l as [| u l]; [exact H |].
    destruct (is_underscore u) eqn:Uu; [| exact H].
    destruct H as [-> | H]; [congruence | exact H].
Qed.

Lemma stray_scan_digits (l : list ascii) :
  forall acc n prev v n' rest,
    scan_digits acc n prev l = Some (v, n', rest) -> In c l -> In c rest.
Proof.
  destruct (meaningful_false c stray) as (D & _ & U & _).
  induction l as [| a l IH]; intros acc n prev v n' rest H Hin; [destruct Hin |].
  cbn [scan_digits] in H. destruct (is_underscore a) eqn:Ua.
  - destruct prev; [discriminate |].
    destruct Hin as [-> | Hin]; [congruence | exact (IH _ _ _ _ _ _ H Hin)].
  - destruct (digit_value a) as [d |] eqn:Da.
    + destruct Hin as [-> | Hin].
      * unfold is_hex_digit in D. rewrite Da in D. discriminate.
      * exact (IH _ _ _ _ _ _ H Hin).
    + destruct prev; [discriminate |]. injection H as _ _ <-. exact Hin.
Qed.

Lemma stray_rejected (l : list ascii) :
  In c l -> int16_chars l = Raise ValueError.
Proof.
  intro Hin. unfold int16_chars.
  pose proof (stray_skip_sign _ (stray_skip_int_space _ Hin)) as H1.
  destruct (skip_sign (skip_int_space l)) as [neg l1]. cbn [snd] in H1.
  pose proof (stray_skip_prefix _ H1) as H2.
  destruct (starts_with_underscore _); [reflexivity |].
  destruct (scan_digits 0 0 false (skip_prefix l1)) as [[[v n] rest] |] eqn:E;
    [| reflexivity].
  pose proof (stray_scan_digits _ _ _ _ _ _ _ E H2) as H3.
  destruct n; [reflexivity |].
  destruct (skip_int_space rest) eqn:R; [| reflexivity].
  apply stray_skip_int_space in H3. rewrite R in H3. destruct H3.
Qed.

End Stray.

(** X9: a response whose last eight characters hold any character that
    [int(_, 16)] gives no meaning to (a letter beyond F other than x, a
    punctuation mark, a control character) leaves the cached position as it
    was; so do status replies such as [0GS02]. *)
Theorem stray_character_keeps_position
        (self : ElliptecController) (resp : string) (c : ascii) :
  In c (pos_hex resp) -> meaningful c = false ->
  _update_position self resp = Ok self.
Proof.
  intros Hin Hc.
  destruct (_update_position_cases self resp) as [[_ U] | (n & E & _)];
    [exact U |].
  rewrite (stray_rejected c Hc _ Hin) in E. discriminate.
Qed.

Lemma stray_character_keeps_position_witness :
  _update_position (Examples.stage "0") "0GS02" = Ok (Examples.stage "0").
Proof.
  apply (stray_character_keeps_position (Examples.stage "0") "0GS02" "G"%char).
  - right. left. reflexivity.
  - reflexivity.
Defined.

End DriverCoverage.

(** ** Further properties of the optimizer *)

Module OptimizerCoverage.
Import Py PyFacts ELL14 DriverSpec DriverFacts DriverClaims Compensation.
Import OptimizerSpec OptimizerFacts SearchFacts CoverageSpec.

(** *** The clamp *)

Lemma fdiv_by_zero_not_finite (a b : Q) :
  (b == 0)%Q -> forall q, fdiv (Fin a) (Fin b) <> Fin q.
Proof.
  intros Hb q. cbn [fdiv].
  assert (Z0 : Qeq_bool b 0 = true) by (apply Qeq_bool_iff; exact Hb).
  rewrite Z0. destruct (Qltb 0 a); [discriminate |].
  destruct (Qltb a 0); discriminate.
Qed.

Lemma fdiv_not_finite (x y : float64) :
  (forall q, x <> Fin q) -> (forall q, y <> Fin q) -> fdiv x y = NaN.
Proof.
  intros Hx Hy.
  destruct x as [a | | |]; [exfalso; exact (Hx a eq_refl) | | |];
    (destruct y as [b | | |]; [exfalso; exact (Hy b eq_refl) | | |]);
    reflexivity.
Qed.

(** X11: with a step size of zero, which the constructor accepts, every
    compute phase raises [ValueError]: both derivatives are divisions by
    zero and their quotient is NaN. *)
Theorem zero_step_size_raises
        (self : ContinuousPolarizationOptimizer) (ser : Serial) (qber : Q)
        (w : ElliptecController) :
  (_max_stepsize_deg self == 0)%Q ->
  _current_pos self = 0%nat ->
  (_threshold self <= qber)%Q ->
  getitem2 (_waveplates self) (_current_wp self) = Ok w ->
  coordinate_descent_2nd_order self ser qber = Raise ValueError.
Proof.
  intros Hms H0 Hthr G. apply Qltb_ge in Hthr.
  rewrite (descent_compute_phase self ser qber H0 Hthr).
  set (s := set_qbers self (qber, q_center self, q_right self)).
  assert (D : newton_destination s (_origin_position self) = NaN).
  { unfold newton_destination.
    assert (H2 : (2 * _max_stepsize_deg s == 0)%Q)
      by (unfold s; cbn [_max_stepsize_deg set_qbers]; rewrite Hms; reflexivity).
    assert (Hsq : (_max_stepsize_deg s ^ 2 == 0)%Q)
      by (unfold s; cbn [_max_stepsize_deg set_qbers]; rewrite Hms; reflexivity).
    match goal with
    | |- context [fdiv (fdiv (Fin ?a) (Fin ?b)) (fdiv (Fin ?c) (Fin ?d))] =>
        rewrite (fdiv_not_finite (fdiv (Fin a) (Fin b)) (fdiv (Fin c) (Fin d))
                                 (fdiv_by_zero_not_finite a b H2)
                                 (fdiv_by_zero_not_finite c d Hsq))
    end.
    cbn [flt fabs].
    match goal with
    | |- context [if ?b then _ else _] => destruct b
    end; reflexivity. }
  rewrite D. destruct (move_current_not_finite s ser w G) as (R & _).
  rewrite R. reflexivity.
Qed.

Lemma zero_step_size_raises_witness :
  exists self,
    Compensation.__init__ (Examples.stage "0", Examples.stage "2") 0 (1 # 100) 1
    = Ok self /\
    coordinate_descent_2nd_order (set_current_pos self 0) Examples.port (1 # 5)
    = Raise ValueError.
Proof.
  eexists. split; [reflexivity |].
  apply (zero_step_size_raises _ Examples.port (1 # 5) (Examples.stage "0")).
  - reflexivity.
  - reflexivity.
  - vm_compute. discriminate.
  - reflexivity.
Defined.

(** *** The probe phases *)

Lemma descent_probe_phase (self : ContinuousPolarizationOptimizer)
      (ser : Serial) (qber : Q) (w : ElliptecController) :
  (_current_pos self = 1 \/ _current_pos self = 2)%nat ->
  (_threshold self <= qber)%Q ->
  getitem2 (_waveplates self) (_current_wp self) = Ok w ->
  let origin := if (_current_pos self =? 1)%nat then get_position_deg w
                else _origin_position self in
  let target := if (_current_pos self =? 1)%nat
                then (origin + _max_stepsize_deg self)%Q
                else (origin - _max_stepsize_deg self)%Q in
  exists self' ser' w',
    coordinate_descent_2nd_order self ser qber = Ok (self', ser') /\
    written ser' = written ser ++ [frame_ma w target; crlf] /\
    _origin_position self' = origin /\
    _qbers self' =
    (if (_current_pos self =? 1)%nat
     then (q_left self, qber, q_right self)
     else (q_left self, q_center self, qber)) /\
    _current_pos self' = (S (_current_pos self) mod 3)%nat /\
    _current_wp self' = _current_wp self /\
    _waveplates self' = mutated2 (_waveplates self) (_current_wp self) w' /\
    address w' = address w /\
    _positions self' = get_positions self' /\
    device ser' = device ser /\
    _max_stepsize_deg self' = _max_stepsize_deg self /\
    _threshold self' = _threshold self /\
    _n_stored self' = _n_stored self /\
    _previous_qbers self' = _previous_qbers self /\
    _previous_positions self' = _previous_positions self.
Proof.
  intros Hpos Hthr G origin target. apply Qltb_ge in Hthr.
  unfold coordinate_descent_2nd_order. rewrite Hthr.
  unfold q_left, q_center, q_right.
  destruct (_qbers self) as [[q_l q] q_r] eqn:Eq.
  subst target origin.
  destruct Hpos as [P | P]; rewrite P; cbn [Nat.eqb];
    rewrite ?G;
    repeat (progress (cbn [bind setitem3 Nat.eqb _qbers _current_pos
                           _max_stepsize_deg set_origin_position set_qbers];
                      rewrite ?Eq, ?P));
    match goal with
    | |- context [move_current ?s ser (Fin ?d)] =>
        destruct (move_current_fin s ser w d G) as (w' & M & A)
    end;
    rewrite M;
    repeat (progress (cbn [bind Nat.eqb _current_pos set_waveplates
                           set_origin_position set_qbers];
                      rewrite ?P));
    (eexists _, _, w'; split; [reflexivity |]);
    (split; [cbn; rewrite <- app_assoc; reflexivity |]);
    unfold advance; cbn; rewrite P; cbn;
    repeat split; try reflexivity; exact A.
Qed.

(** *** What a descent step changes *)

Lemma move_current_shape (self self' : ContinuousPolarizationOptimizer)
      (ser ser' : Serial) (d : float64) :
  move_current self ser d = Ok (self', ser') ->
  exists w',
    self' = set_waveplates self
              (mutated2 (_waveplates self) (_current_wp self) w') /\
    device ser' = device ser.
Proof.
  unfold move_current.
  destruct (getitem2 _ _) as [w |]; cbn [bind]; [| discriminate].
  unfold move_absolute_deg.
  destruct (_deg_to_pulses _ _) as [p |]; cbn [bind]; [| discriminate].
  match goal with
  | |- context [send_and_update ?a ?b ?c] =>
      destruct (send_and_update a b c) as [[[w' r] resp] |] eqn:E;
      cbn [bind]; [| discriminate]
  end.
  destruct (DriverCoverage.send_and_update_frame _ _ _ _ _ _ E) as (_ & D & _).
  intro H. injection H as <- <-. exists w'. split; [reflexivity | exact D].
Qed.

Lemma getitem2_mutated2_other {A : Type} (t : A * A) (i : nat) (a : A) :
  (i < 2)%nat -> getitem2 (mutated2 t i a) (1 - i) = getitem2 t (1 - i).
Proof.
  intro H. destruct i as [| [| n]]; [reflexivity | reflexivity | lia].
Qed.

(** A descent step that completes, in whatever phase. *)
Lemma descent_step_shape (self self' : ContinuousPolarizationOptimizer)
      (ser ser' : Serial) (qber : Q) :
  (_current_wp self < 2)%nat -> (_current_pos self < 3)%nat ->
  coordinate_descent_2nd_order self ser qber = Ok (self', ser') ->
  kept (1 - _current_wp self) self' = kept (1 - _current_wp self) self /\
  device ser' = device ser /\
  ((_threshold self <= qber)%Q ->
   _current_pos self' = (S (_current_pos self) mod 3)%nat /\
   _current_wp self' =
   (if (_current_pos self =? 0)%nat then (S (_current_wp self) mod 2)%nat
    else _current_wp self) /\
   _positions self' = get_positions self').
Proof.
  intros Hw Hp H.
  destruct (Qltb qber (_threshold self)) eqn:T.
  - unfold coordinate_descent_2nd_order in H. rewrite T in H.
    injection H as <- <-. split; [reflexivity |]. split; [reflexivity |].
    intro L. apply Qltb_lt in T. lra.
  - assert (G : exists w, getitem2 (_waveplates self) (_current_wp self) = Ok w).
    { destruct (_current_wp self) as [| [| n]]; [eexists; reflexivity .. | lia]. }
    destruct G as [w G].
    assert (Hthr : (_threshold self <= qber)%Q) by (apply Qltb_ge; exact T).
    assert (C : _current_pos self = 0%nat \/
                (_current_pos self = 1 \/ _current_pos self = 2)%nat) by lia.
    destruct C as [P | P].
    + rewrite (descent_compute_phase self ser qber P T) in H.
      destruct (move_current _ ser _) as [[s1 r1] |] eqn:M; [| discriminate].
      cbn [bind] in H. injection H as <- <-.
      destruct (move_current_shape _ _ _ _ _ M) as (w' & -> & D).
      split; [| split; [exact D |]].
      * unfold kept, advance. cbn. rewrite P. cbn.
        rewrite getitem2_mutated2_other by exact Hw. reflexivity.
      * intros _. unfold advance. cbn. rewrite P. cbn. repeat split.
    + destruct (descent_probe_phase self ser qber w P Hthr G)
        as (s & r & w' & R & _ & _ & _ & Pos & Wp & Wv & _ & Ps & D
            & K1 & K2 & K3 & K4 & K5).
      rewrite R in H. injection H as <- <-.
      split; [| split; [exact D |]].
      * unfold kept. rewrite K1, K2, K3, K4, K5, Wv.
        rewrite getitem2_mutated2_other by exact Hw. reflexivity.
      * intros _. split; [exact Pos |]. split; [| exact Ps].
        destruct P as [P | P]; rewrite P; exact Wp.
Qed.

(** X14: a descent step works on one stage at a time: when it completes,
    in any phase and on either side of the threshold, the other stage, the
    step size, the threshold, the history of the random search and the
    device are as before. *)
Theorem descent_leaves_the_rest
        (self self' : ContinuousPolarizationOptimizer)
        (ser ser' : Serial) (qber : Q) :
  (_current_wp self < 2)%nat -> (_current_pos self < 3)%nat ->
  coordinate_descent_2nd_order self ser qber = Ok (self', ser') ->
  getitem2 (_waveplates self') (1 - _current_wp self) =
  getitem2 (_waveplates self) (1 - _current_wp self) /\
  _max_stepsize_deg self' = _max_stepsize_deg self /\
  _threshold self' = _threshold self /\
  _n_stored self' = _n_stored self /\
  _previous_qbers self' = _previous_qbers self /\
  _previous_positions self' = _previous_positions self /\
  device ser' = device ser.
Proof.
  intros Hw Hp H.
  destruct (descent_step_shape self self' ser ser' qber Hw Hp H) as (K & D & _).
  unfold kept in K. injection K as K1 K2 K3 K4 K5 K6. auto 10.
Qed.

Lemma descent_leaves_the_rest_witness :
  exists self' ser',
    coordinate_descent_2nd_order (Examples.optimizer 1) Examples.port (1 # 5)
    = Ok (self', ser') /\
    getitem2 (_waveplates self') 1 = Ok (Examples.stage "2").
Proof.
  assert (R : exists self' ser',
             coordinate_descent_2nd_order (Examples.optimizer 1) Examples.port
                                          (1 # 5) = Ok (self', ser'))
    by (eexists _, _; vm_compute; reflexivity).
  destruct R as (self' & ser' & R).
  assert (Hw : (_current_wp (Examples.optimizer 1) < 2)%nat)
    by (apply Nat.ltb_lt; reflexivity).
  assert (Hp : (_current_pos (Examples.optimizer 1) < 3)%nat)
    by (apply Nat.ltb_lt; reflexivity).
  destruct (descent_leaves_the_rest _ _ _ _ _ Hw Hp R) as (W & _).
  exists self', ser'. split; [exact R | exact W].
Defined.

(** X15: a descent step at or above the threshold that completes advances
    the probe slot by one, cyclically (1, 2, 0, 1, ...), passes to the other
    stage exactly when it leaves the compute slot, and ends with the
    optimizer's positions equal to the stages' cached positions. *)
Theorem descent_advances_once
        (self self' : ContinuousPolarizationOptimizer)
        (ser ser' : Serial) (qber : Q) :
  (_current_wp self < 2)%nat -> (_current_pos self < 3)%nat ->
  (_threshold self <= qber)%Q ->
  coordinate_descent_2nd_order self ser qber = Ok (self', ser') ->
  _current_pos self' = (S (_current_pos self) mod 3)%nat /\
  _current_wp self' =
  (if (_current_pos self =? 0)%nat then (S (_current_wp self) mod 2)%nat
   else _current_wp self) /\
  (_current_wp self' < 2)%nat /\ (_current_pos self' < 3)%nat /\
  _positions self' = get_positions self'.
Proof.
  intros Hw Hp Hthr H.
  destruct (descent_step_shape self self' ser ser' qber Hw Hp H) as (_ & _ & S).
  destruct (S Hthr) as (P & W & Ps).
  destruct (descent_indices self self' ser ser' qber Hw H) as [I1 I2].
  auto 10.
Qed.

Lemma descent_advances_once_witness :
  exists self' ser',
    coordinate_descent_2nd_order
      (Examples.probing (149 # 1000) (2 # 10)) Examples.port (1 # 10)
    = Ok (self', ser') /\
    _current_pos self' = 1%nat /\ _current_wp self' = 1%nat.
Proof.
  assert (R : exists self' ser',
             coordinate_descent_2nd_order
               (Examples.probing (149 # 1000) (2 # 10)) Examples.port (1 # 10)
             = Ok (self', ser'))
    by (eexists _, _; vm_compute; reflexivity).
  destruct R as (self' & ser' & R).
  assert (Hw : (_current_wp (Examples.probing (149 # 1000) (2 # 10)) < 2)%nat)
    by (apply Nat.ltb_lt; reflexivity).
  assert (Hp : (_current_pos (Examples.probing (149 # 1000) (2 # 10)) < 3)%nat)
    by (apply Nat.ltb_lt; reflexivity).
  assert (Ht : (_threshold (Examples.probing (149 # 1000) (2 # 10)) <= 1 # 10)%Q)
    by (vm_compute; discriminate).
  destruct (descent_advances_once _ _ _ _ _ Hw Hp Ht R) as (P & W & _).
  exists self', ser'. split; [exact R |]. split; [exact P | exact W].
Defined.

(** *** The random search *)

Lemma last_cons {A : Type} (a d : A) (l : list A) :
  last (a :: l) d = last l a.
Proof.
  revert a d. induction l as [| b l IH]; intros a d; [reflexivity |].
  change (last (a :: b :: l) d) with (last (b :: l) d).
  rewrite (IH b d), (IH b a). reflexivity.
Qed.

Lemma single_slot_history (n : Z) (steps : list (Q * Q * nat)) :
  n <= 1 ->
  Forall (fun s => (stage_drawn s < 2)%nat) steps ->
  forall (self : ContinuousPolarizationOptimizer) (ser : Serial) (q0 : Q),
    _n_stored self = n ->
    _previous_qbers self = [q0] ->
    List.length (_previous_positions self) = 1%nat ->
    exists self' ser',
      random_search steps self ser = Ok (self', ser') /\
      _previous_qbers self' = [last (map sample steps) q0] /\
      List.length (_previous_positions self') = 1%nat.
Proof.
  intros Hn Hsteps.
  induction Hsteps as [| [[qber delta_phi] wp] steps Hwp _ IH];
    intros self ser q0 HN Hq Hp.
  - exists self, ser. auto.
  - assert (WF : well_formed self).
    { split; [rewrite Hq; discriminate | rewrite Hq, Hp; reflexivity]. }
    cbn [random_search].
    destruct (random_minimizer_spec self ser qber delta_phi wp WF Hwp)
      as (self1 & self' & ser' & T & R & Q1 & Q2 & N & _).
    rewrite R. cbn [bind].
    destruct (random_minimizer_try_spec self qber WF)
      as (m & i & best & s1 & _ & _ & _ & _ & T' & _ & P1 & P2 & _).
    rewrite T in T'. injection T' as <-.
    assert (E1 : _previous_qbers self' = [qber]).
    { rewrite Q1, P1, Hq, HN. unfold pushed. cbn [List.length].
      destruct (Z.ltb_spec (Z.of_nat 1) n); [lia | reflexivity]. }
    assert (E2 : List.length (_previous_positions self') = 1%nat).
    { rewrite Q2, P2, HN. unfold pushed. rewrite Hp.
      destruct (Z.ltb_spec (Z.of_nat 1) n); [lia |].
      rewrite length_app. destruct (_previous_positions self) as [| a [| b l]];
        try discriminate. reflexivity. }
    destruct (IH self' ser' qber ltac:(congruence) E1 E2) as (s2 & r2 & E & H & L).
    exists s2, r2. split; [exact E |]. split; [| exact L].
    cbn [map]. change (sample (qber, delta_phi, wp)) with qber.
    rewrite last_cons. exact H.
Qed.

(** X17: with a capacity [n_stored] of 1 or less, zero and negative values
    included, the history never grows: after any run of steps on a new
    optimizer it holds exactly the latest sample (the initial 0.5 before
    the first step), so each step compares with the previous sample only. *)
Theorem capacity_below_two_keeps_latest
        (n : Z) (waveplates : ElliptecController * ElliptecController)
        (max_stepsize_deg threshold : Q) (steps : list (Q * Q * nat))
        (ser : Serial) :
  n <= 1 ->
  Forall (fun s => (stage_drawn s < 2)%nat) steps ->
  exists self' ser',
    (self <- Compensation.__init__ waveplates max_stepsize_deg threshold n ;;
     random_search steps self ser) = Ok (self', ser') /\
    _previous_qbers self' = [last (map sample steps) (1 # 2)%Q] /\
    List.length (_previous_positions self') = 1%nat.
Proof.
  intros Hn Hsteps. cbn [Compensation.__init__ bind].
  apply (single_slot_history n steps Hn Hsteps); reflexivity.
Qed.

Lemma capacity_below_two_keeps_latest_witness :
  exists self' ser',
    (self <- Compensation.__init__ (Examples.stage "0", Examples.stage "2")
                                   2 (1 # 100) 0 ;;
     random_search [(20 # 100, 1, 0%nat); (18 # 100, -1, 1%nat)]%Q
                   self Examples.port) = Ok (self', ser') /\
    _previous_qbers self' = [18 # 100]%Q /\
    List.length (_previous_positions self') = 1%nat.
Proof.
  apply (capacity_below_two_keeps_latest
           0 (Examples.stage "0", Examples.stage "2") 2%Q (1 # 100)%Q
           [(20 # 100, 1, 0%nat); (18 # 100, -1, 1%nat)]%Q Examples.port).
  - lia.
  - repeat constructor.
Defined.

(** *** Runs of descent steps *)

Lemma move_current_written (self self' : ContinuousPolarizationOptimizer)
      (ser ser' : Serial) (d : float64) :
  move_current self ser d = Ok (self', ser') ->
  List.length (written ser') = (List.length (written ser) + 2)%nat.
Proof.
  unfold move_current.
  destruct (getitem2 _ _) as [w |]; cbn [bind]; [| discriminate].
  unfold move_absolute_deg.
  destruct (_deg_to_pulses _ _) as [p |]; cbn [bind]; [| discriminate].
  match goal with
  | |- context [send_and_update ?a ?b ?c] =>
      destruct (send_and_update a b c) as [[[w' r] resp] |] eqn:E;
      cbn [bind]; [| discriminate]
  end.
  destruct (DriverCoverage.send_and_update_frame _ _ _ _ _ _ E) as (W & _).
  intro H. injection H as _ <-. rewrite W, length_app. reflexivity.
Qed.

Lemma descent_call_written (self self' : ContinuousPolarizationOptimizer)
      (ser ser' : Serial) (qber : Q) :
  (_current_wp self < 2)%nat -> (_current_pos self < 3)%nat ->
  coordinate_descent_2nd_order self ser qber = Ok (self', ser') ->
  List.length (written ser') =
  (List.length (written ser)
   + if Qltb qber (_threshold self) then 0 else 2)%nat.
Proof.
  intros Hw Hp H. destruct (Qltb qber (_threshold self)) eqn:T.
  - unfold coordinate_descent_2nd_order in H. rewrite T in H.
    injection H as _ <-. lia.
  - assert (G : exists w, getitem2 (_waveplates self) (_current_wp self) = Ok w).
    { destruct (_current_wp self) as [| [| n]]; [eexists; reflexivity .. | lia]. }
    destruct G as [w G].
    assert (Hthr : (_threshold self <= qber)%Q) by (apply Qltb_ge; exact T).
    assert (C : _current_pos self = 0%nat \/
                (_current_pos self = 1 \/ _current_pos self = 2)%nat) by lia.
    destruct C as [P | P].
    + rewrite (descent_compute_phase self ser qber P T) in H.
      destruct (move_current _ ser _) as [[s1 r1] |] eqn:M; [| discriminate].
      cbn [bind] in H. injection H as _ <-.
      exact (move_current_written _ _ _ _ _ M).
    + destruct (descent_probe_phase self ser qber w P Hthr G)
        as (s & r & w' & R & W & _).
      rewrite R in H. injection H as _ <-. rewrite W, length_app. reflexivity.
Qed.

(** X22: along a run of descent steps that completes, every sample at or
    above the threshold costs exactly one command to a stage and every
    sample below it none: the port log grows by one frame and one CR LF per
    active sample; the stage and slot indices stay in range and the
    threshold is the same at the end. *)
Theorem descent_run_one_command_per_active_sample (qbers : list Q) :
  forall (self self' : ContinuousPolarizationOptimizer) (ser ser' : Serial),
    (_current_wp self < 2)%nat -> (_current_pos self < 3)%nat ->
    descent_run qbers self ser = Ok (self', ser') ->
    List.length (written ser') =
    (List.length (written ser)
     + 2 * List.length (active_samples (_threshold self) qbers))%nat /\
    (_current_wp self' < 2)%nat /\ (_current_pos self' < 3)%nat /\
    _threshold self' = _threshold self.
Proof.
  induction qbers as [| q rest IH]; intros self self' ser ser' Hw Hp H.
  - cbn [descent_run] in H. injection H as <- <-. cbn. repeat split; lia.
  - cbn [descent_run] in H.
    destruct (coordinate_descent_2nd_order self ser q) as [[s1 r1] |] eqn:E;
      [| discriminate].
    cbn [bind] in H.
    destruct (descent_indices self s1 ser r1 q Hw E) as [Hw1 Hp1].
    destruct (descent_step_shape self s1 ser r1 q Hw Hp E) as (K & _ & _).
    assert (T : _threshold s1 = _threshold self).
    { unfold kept in K. injection K as _ K2 _ _ _ _. auto. }
    destruct (IH s1 self' r1 ser' Hw1 Hp1 H) as (L & W' & P' & T').
    pose proof (descent_call_written self s1 ser r1 q Hw Hp E) as L1.
    split; [| split; [exact W' | split; [exact P' | congruence]]].
    rewrite L, L1, T. unfold active_samples. cbn [filter].
    destruct (Qltb q (_threshold self)); cbn [negb List.length]; lia.
Qed.

Lemma descent_run_one_command_per_active_sample_witness :
  exists self' ser',
    descent_run [20 # 100; 5 # 1000; 18 # 100; 22 # 100]%Q
                (Examples.optimizer 1) Examples.port = Ok (self', ser') /\
    List.length (written ser') = 6%nat /\
    _current_pos self' = 0%nat.
Proof.
  assert (R : exists self' ser',
             descent_run [20 # 100; 5 # 1000; 18 # 100; 22 # 100]%Q
                         (Examples.optimizer 1) Examples.port
             = Ok (self', ser'))
    by (eexists _, _; vm_compute; reflexivity).
  destruct R as (self' & ser' & R).
  assert (Hw : (_current_wp (Examples.optimizer 1) < 2)%nat)
    by (apply Nat.ltb_lt; reflexivity).
  assert (Hp : (_current_pos (Examples.optimizer 1) < 3)%nat)
    by (apply Nat.ltb_lt; reflexivity).
  destruct (descent_run_one_command_per_active_sample _ _ _ _ _ Hw Hp R)
    as (L & _).
  exists self', ser'. split; [exact R |]. split; [exact L |].
  vm_compute in R. injection R as <- _. reflexivity.
Defined.

(** *** Ties among the stored samples *)





End OptimizerCoverage.

(** ** Properties of the QBER map *)

Module MapCoverage.
Import Py PyFacts ELL14 DriverSpec DriverFacts Compensation OptimizerSpec.
Import OptimizerFacts QberMap CoverageSpec.

(** X18: the QBER the scan computes from two count rates that are not
    negative lies between 0 and 1, and is 0 when there are no counts at
    all: the division is never by zero. *)
Theorem qber_of_counts_in_unit_interval (cts_h cts_v : Q) :
  (0 <= cts_h)%Q -> (0 <= cts_v)%Q ->
  (0 <= qber_of_counts cts_h cts_v <= 1)%Q /\
  ((cts_h + cts_v == 0)%Q -> qber_of_counts cts_h cts_v = 0%Q) /\
  ((0 < cts_h + cts_v)%Q ->
   (qber_of_counts cts_h cts_v * (cts_h + cts_v) == cts_h)%Q).
Proof.
  intros Hh Hv. unfold qber_of_counts.
  destruct (Qltb 0 (cts_h + cts_v)) eqn:S.
  - apply Qltb_lt in S. split; [| split].
    + split.
      * apply Qle_shift_div_l; lra.
      * apply Qle_shift_div_r; lra.
    + intro E. lra.
    + intros _. field. lra.
  - apply Qltb_ge in S. split; [| split].
    + split; discriminate.
    + reflexivity.
    + intro L. lra.
Qed.

Lemma qber_of_counts_in_unit_interval_witness :
  (0 <= qber_of_counts 30 70 <= 1)%Q /\ (qber_of_counts 30 70 == 3 # 10)%Q /\
  qber_of_counts 0 0 = 0%Q.
Proof.
  destruct (qber_of_counts_in_unit_interval 30 70) as (B & _ & _);
    [discriminate | discriminate |].
  split; [exact B |]. split; reflexivity.
Defined.

(** *** The grid *)

Lemma np_arange_grid (step : Q) :
  (0 < step)%Q ->
  exists l,
    np_arange (- (180)) (180 + step) step = Ok l /\
    (2 <= List.length l)%nat /\
    (forall i, (i < List.length l)%nat ->
               nth_error l i = Some (- (180) + inject_Z (Z.of_nat i) * step)%Q) /\
    (180 <= last l 0 < 180 + step)%Q.
Proof.
  intro Hs. unfold np_arange.
  rewrite (Qeq_bool_false step 0) by lra.
  set (x := ((180 + step - - (180)) / step)%Q).
  set (f := fun i : nat => (- (180) + inject_Z (Z.of_nat i) * step)%Q).
  assert (Hx : (x * step == 360 + step)%Q) by (unfold x; field; lra).
  pose proof (Qle_ceiling x) as C1. pose proof (Qceiling_lt x) as C2.
  unfold Z.sub in C2. rewrite inject_Z_plus in C2.
  change (inject_Z (- (1))) with (- (1))%Q in C2.
  set (c := Qceiling x) in *.
  assert (Hc : 2 <= c).
  { assert (1 < x)%Q by nra.
    assert (L : (inject_Z 1 < inject_Z c)%Q) by (change (inject_Z 1) with 1%Q; lra).
    rewrite <- Zlt_Qlt in L. lia. }
  eexists. split; [reflexivity |].
  rewrite length_map, length_seq. split; [lia |]. split.
  - intros i Hi. rewrite nth_error_map, nth_error_seq.
    destruct (Nat.ltb_spec i (Z.to_nat c)); [reflexivity | lia].
  - destruct (Z.to_nat c) as [| n] eqn:N; [lia |].
    rewrite seq_S, map_app, Nat.add_0_l. cbn [map]. rewrite last_last.
    assert (E : (inject_Z (Z.of_nat n) == inject_Z c - 1)%Q).
    { replace (Z.of_nat n) with (c + - (1)) by lia.
      rewrite inject_Z_plus. reflexivity. }
    unfold f.
    assert (P1 : (0 <= (inject_Z c - x) * step)%Q)
      by (apply Qmult_le_0_compat; lra).
    assert (P2 : (0 < (x - (inject_Z c - 1)) * step)%Q)
      by (apply Qmult_lt_0_compat; lra).
    assert (E' : (inject_Z (Z.of_nat n) * step == (inject_Z c - 1) * step)%Q)
      by (rewrite E; reflexivity).
    split; lra.
Qed.

Lemma np_zeros_shaped (rows cols : nat) : shaped rows cols (np_zeros rows cols).
Proof.
  unfold shaped, np_zeros. split; [apply repeat_length |].
  apply Forall_forall. intros row H. apply repeat_spec in H. subst row.
  apply repeat_length.
Qed.

(** *** The double loop *)

Lemma setitem_spec {A : Type} (l : list A) :
  forall (i : nat) (a : A),
    (i < List.length l)%nat ->
    exists l',
      setitem l i a = Ok l' /\
      List.length l' = List.length l /\
      nth_error l' i = Some a /\
      (forall k, k <> i -> nth_error l' k = nth_error l k).
Proof.
  induction l as [| x l IH]; intros i a Hi; cbn [List.length] in Hi; [lia |].
  destruct i as [| i].
  - eexists. split; [reflexivity |]. repeat split.
    intros k Hk. destruct k; [congruence | reflexivity].
  - destruct (IH i a ltac:(lia)) as (l' & E & L & N & O).
    cbn [setitem]. rewrite E. cbn [bind]. eexists. split; [reflexivity |].
    split; [cbn; lia |]. split; [exact N |].
    intros k Hk. destruct k; [reflexivity |]. cbn. apply O. lia.
Qed.

Lemma setitem2d_spec (rows cols : nat) (m : list (list Q)) (j i : nat) (v : Q) :
  shaped rows cols m -> (j < rows)%nat -> (i < cols)%nat ->
  exists m',
    setitem2d m j i v = Ok m' /\
    shaped rows cols m' /\
    cell m' j i = Some v /\
    (forall j' i', (j' <> j \/ i' <> i) -> cell m' j' i' = cell m j' i').
Proof.
  intros [Hr Hc] Hj Hi. unfold setitem2d.
  destruct (nth_error m j) as [row |] eqn:R;
    [| apply nth_error_None in R; lia].
  assert (Lrow : List.length row = cols).
  { rewrite Forall_forall in Hc. apply Hc. exact (nth_error_In _ _ R). }
  destruct (setitem_spec row i v ltac:(lia)) as (row' & E1 & L1 & N1 & O1).
  destruct (setitem_spec m j row' ltac:(lia)) as (m' & E2 & L2 & N2 & O2).
  rewrite E1. cbn [bind]. rewrite E2. exists m'. split; [reflexivity |].
  split; [| split].
  - split; [lia |]. apply Forall_forall. intros r Hin.
    destruct (In_nth_error _ _ Hin) as [k Hk].
    destruct (Nat.eq_dec k j) as [-> | Hne].
    + rewrite N2 in Hk. injection Hk as <-. lia.
    + rewrite (O2 k Hne) in Hk. rewrite Forall_forall in Hc.
      apply Hc. exact (nth_error_In _ _ Hk).
  - unfold cell. rewrite N2. exact N1.
  - intros j' i' H. unfold cell. destruct (Nat.eq_dec j' j) as [-> | Hne].
    + rewrite N2, R. apply O1. destruct H; [congruence | assumption].
    + rewrite (O2 j' Hne). reflexivity.
Qed.

Lemma frame_ma_address (w w' : ElliptecController) (d : Q) :
  address w' = address w -> frame_ma w' d = frame_ma w d.
Proof. intro H. unfold frame_ma. rewrite H. reflexivity. Qed.

Section Loop.

Variable counts : nat -> nat -> Q * Q.
Variables rows cols : nat.

(** One pass of the inner loop. *)
Lemma scan_row_spec (i : nat) (angle_wp1 : Q) (rest : list Q) :
  (i < cols)%nat ->
  forall (j0 : nat) (st : Scan),
    shaped rows cols (scan_map st) ->
    (j0 + List.length rest <= rows)%nat ->
    exists st',
      scan_row counts i angle_wp1 j0 rest st = Ok st' /\
      shaped rows cols (scan_map st') /\
      address (scan_wp_1 st') = address (scan_wp_1 st) /\
      address (scan_wp_2 st') = address (scan_wp_2 st) /\
      device (scan_ser st') = device (scan_ser st) /\
      written (scan_ser st') =
      written (scan_ser st) ++
        flat_map (fun a2 => [frame_ma (scan_wp_1 st) angle_wp1; crlf;
                             frame_ma (scan_wp_2 st) a2; crlf]) rest /\
      (forall k, (k < List.length rest)%nat ->
                 cell (scan_map st') (j0 + k) i =
                 Some (measured counts i (j0 + k))) /\
      (forall j' i',
          (i' <> i \/ (j' < j0)%nat \/ (j0 + List.length rest <= j')%nat) ->
          cell (scan_map st') j' i' = cell (scan_map st) j' i').
Proof.
  intro Hi. induction rest as [| a2 rest IH]; intros j0 st Hsh Hj.
  - exists st. cbn [scan_row flat_map List.length]. rewrite app_nil_r.
    split; [reflexivity |]. split; [exact Hsh |].
    do 4 (split; [reflexivity |]).
    split; [intros k Hk; lia | reflexivity].
  - cbn [scan_row]. cbn [List.length] in Hj.
    destruct (move_absolute_deg_fin (scan_wp_1 st) (scan_ser st) angle_wp1)
      as (w1 & r1 & M1 & A1).
    rewrite M1. cbn [bind].
    match goal with
    | |- context [move_absolute_deg (scan_wp_2 st) ?ser (Fin a2)] =>
        destruct (move_absolute_deg_fin (scan_wp_2 st) ser a2)
          as (w2 & r2 & M2 & A2)
    end.
    rewrite M2. cbn [bind].
    assert (Q0 : measured counts i j0 =
                 (let '(cts_h, cts_v) := counts i j0 in
                  qber_of_counts cts_h cts_v))
      by (unfold measured; destruct (counts i j0); reflexivity).
    destruct (counts i j0) as [cts_h cts_v] eqn:Ec.
    destruct (setitem2d_spec rows cols (scan_map st) j0 i
                (qber_of_counts cts_h cts_v) Hsh ltac:(lia) Hi)
      as (m' & E & Sh' & C1 & C2).
    rewrite E. cbn [bind].
    match goal with
    | |- context [scan_row counts i angle_wp1 (S j0) rest ?s] =>
        destruct (IH (S j0) s Sh' ltac:(lia))
          as (st' & R & Sh'' & B1 & B2 & D & W & F & U)
    end.
    cbn [scan_wp_1 scan_wp_2 scan_ser scan_map] in *.
    exists st'. split; [exact R |]. split; [exact Sh'' |].
    split; [congruence |]. split; [congruence |]. split; [exact D |].
    split; [| split].
    + rewrite W. cbn [written ser_write flat_map].
      rewrite (frame_ma_address _ _ angle_wp1 A1).
      rewrite (flat_map_ext _ (fun a2 => [frame_ma (scan_wp_1 st) angle_wp1; crlf;
                                          frame_ma (scan_wp_2 st) a2; crlf])).
      * rewrite <- !app_assoc. reflexivity.
      * intro a. rewrite (frame_ma_address _ _ a A2). reflexivity.
    + intros k Hk. destruct k as [| k].
      * rewrite Nat.add_0_r, U by lia. rewrite C1, Q0. reflexivity.
      * replace (j0 + S k)%nat with (S j0 + k)%nat by lia.
        apply F. cbn [List.length] in Hk. lia.
    + intros j' i' H. rewrite U by (cbn [List.length] in H; lia).
      apply C2. cbn [List.length] in H. lia.
Qed.

(** The whole double loop, from the column [i0] on. *)
Lemma scan_grid_spec (angles2 : list Q) :
  List.length angles2 = rows ->
  forall (angles1 : list Q) (i0 : nat) (st : Scan),
    shaped rows cols (scan_map st) ->
    (i0 + List.length angles1 <= cols)%nat ->
    exists st',
      scan_grid counts i0 angles1 angles2 st = Ok st' /\
      shaped rows cols (scan_map st') /\
      address (scan_wp_1 st') = address (scan_wp_1 st) /\
      address (scan_wp_2 st') = address (scan_wp_2 st) /\
      device (scan_ser st') = device (scan_ser st) /\
      written (scan_ser st') =
      written (scan_ser st) ++
        scan_frames (scan_wp_1 st) (scan_wp_2 st) angles1 angles2 /\
      (forall k j, (k < List.length angles1)%nat -> (j < rows)%nat ->
                   cell (scan_map st') j (i0 + k) =
                   Some (measured counts (i0 + k) j)) /\
      (forall j' i',
          ((i' < i0)%nat \/ (i0 + List.length angles1 <= i')%nat) ->
          cell (scan_map st') j' i' = cell (scan_map st) j' i').
Proof.
  intro Hrows. induction angles1 as [| a1 rest IH]; intros i0 st Hsh Hi.
  - exists st. cbn [scan_grid scan_frames flat_map List.length].
    rewrite app_nil_r.
    split; [reflexivity |]. split; [exact Hsh |].
    do 4 (split; [reflexivity |]).
    split; [intros k j Hk; lia | reflexivity].
  - cbn [scan_grid]. cbn [List.length] in Hi.
    destruct (scan_row_spec i0 a1 angles2 ltac:(lia) 0%nat st Hsh ltac:(lia))
      as (st1 & R1 & Sh1 & A1 & A2 & D1 & W1 & F1 & U1).
    rewrite R1. cbn [bind].
    destruct (IH (S i0) st1 Sh1 ltac:(lia))
      as (st' & R & Sh' & B1 & B2 & D & W & F & U).
    exists st'. split; [exact R |]. split; [exact Sh' |].
    split; [congruence |]. split; [congruence |]. split; [congruence |].
    split; [| split].
    + rewrite W, W1. unfold scan_frames. cbn [flat_map].
      rewrite <- app_assoc. do 2 f_equal.
      apply flat_map_ext. intro a. apply flat_map_ext. intro b.
      rewrite (frame_ma_address _ _ a A1), (frame_ma_address _ _ b A2).
      reflexivity.
    + intros k j Hk Hj. destruct k as [| k].
      * rewrite Nat.add_0_r, U by lia.
        specialize (F1 j ltac:(lia)). cbn [Nat.add] in F1. exact F1.
      * replace (i0 + S k)%nat with (S i0 + k)%nat by lia.
        apply F; [cbn [List.length] in Hk; lia | exact Hj].
    + intros j' i' H. rewrite U by (cbn [List.length] in H; lia).
      apply U1. cbn [List.length] in H. lia.
Qed.

End Loop.

(** The script up to the end of the double loop. *)
Lemma main_spec (step_wp1 step_wp2 : Q) (opened : Serial)
      (counts : nat -> nat -> Q * Q) :
  (0 < step_wp1)%Q -> (0 < step_wp2)%Q ->
  exists grid_1 grid_2 st,
    np_arange (- (180)) (180 + step_wp1) step_wp1 = Ok grid_1 /\
    np_arange (- (180)) (180 + step_wp2) step_wp2 = Ok grid_2 /\
    main step_wp1 step_wp2 opened counts = Ok st /\
    written (scan_ser st) =
    written opened ++
      ["0ho0"%string; crlf; "2ho0"%string; crlf] ++
      scan_frames (Examples.stage "0") (Examples.stage "2") grid_1 grid_2 /\
    shaped (List.length grid_2) (List.length grid_1) (scan_map st) /\
    (forall i j, (i < List.length grid_1)%nat ->
                 (j < List.length grid_2)%nat ->
                 cell (scan_map st) j i = Some (measured counts i j)).
Proof.
  intros H1 H2. unfold main.
  destruct (np_arange_grid step_wp1 H1) as (l1 & E1 & _).
  destruct (np_arange_grid step_wp2 H2) as (l2 & E2 & _).
  rewrite E1, E2. cbn [bind ELL14.__init__ _purge].
  exists l1, l2.
  unfold home. cbn [str_of_int].
  match goal with
  | |- context [send_and_update ?w opened ?c] =>
      destruct (send_and_update_total w opened c) as (w1 & r1 & S1 & A1);
      destruct (send_and_update w opened c) as [[[u1 s1] q1] |] eqn:F1;
      [| discriminate]
  end.
  injection S1 as -> _ ->.
  destruct (DriverCoverage.send_and_update_frame _ _ _ _ _ _ F1) as (W1 & D1 & _).
  cbn [bind].
  match goal with
  | |- context [send_and_update ?w ?p ?c] =>
      destruct (send_and_update_total w p c) as (w2 & r2 & S2 & A2);
      destruct (send_and_update w p c) as [[[u2 s2] q2] |] eqn:F2;
      [| discriminate]
  end.
  injection S2 as -> _ ->.
  destruct (DriverCoverage.send_and_update_frame _ _ _ _ _ _ F2) as (W2 & D2 & _).
  cbn [bind].
  match goal with
  | |- context [scan_grid counts 0 l1 l2 ?s] =>
      destruct (scan_grid_spec counts (List.length l2) (List.length l1) l2
                  eq_refl l1 0%nat s (np_zeros_shaped _ _) ltac:(lia))
        as (st & R & Sh & B1 & B2 & _ & W & F & _)
  end.
  cbn [scan_wp_1 scan_wp_2 scan_ser scan_map] in *.
  exists st. split; [reflexivity |]. split; [reflexivity |].
  split; [exact R |]. split; [| split; [exact Sh |]].
  - assert (E : scan_frames w1 w2 l1 l2 =
                scan_frames (Examples.stage "0") (Examples.stage "2") l1 l2).
    { unfold scan_frames.
      apply flat_map_ext. intro a. apply flat_map_ext. intro b.
      rewrite (frame_ma_address (Examples.stage "0") w1 a A1),
              (frame_ma_address (Examples.stage "2") w2 b A2).
      reflexivity. }
    rewrite W, W2, W1, E, <- !app_assoc. reflexivity.
  - intros i j Hi Hj. exact (F i j Hi Hj).
Qed.

Lemma scan_frames_length (w1 w2 : ElliptecController) (l1 l2 : list Q) :
  List.length (scan_frames w1 w2 l1 l2) =
  (4 * (List.length l1 * List.length l2))%nat.
Proof.
  unfold scan_frames.
  assert (Inner : forall a1,
             List.length
               (flat_map (fun a2 => [frame_ma w1 a1; crlf; frame_ma w2 a2; crlf])
                         l2) = (4 * List.length l2)%nat).
  { intro a1. induction l2 as [| b l2 IH]; [reflexivity |].
    cbn [flat_map List.length app]. rewrite IH. lia. }
  induction l1 as [| a l1 IH]; [reflexivity |].
  cbn [flat_map List.length]. rewrite length_app, Inner, IH. lia.
Qed.

(** X20: for positive steps the scan script always runs to the end of its
    double loop.  After the two homing commands it sends, for every angle
    of the first waveplate in turn and for every angle of the second one
    under it, one move-absolute command to stage 0 for the first angle and
    then one to stage 2 for the second, and nothing else: two commands per
    grid point. *)
Theorem scan_sends_two_moves_per_point
        (step_wp1 step_wp2 : Q) (opened : Serial)
        (counts : nat -> nat -> Q * Q) :
  (0 < step_wp1)%Q -> (0 < step_wp2)%Q ->
  exists grid_1 grid_2 st,
    np_arange (- (180)) (180 + step_wp1) step_wp1 = Ok grid_1 /\
    np_arange (- (180)) (180 + step_wp2) step_wp2 = Ok grid_2 /\
    main step_wp1 step_wp2 opened counts = Ok st /\
    written (scan_ser st) =
    written opened ++
      ["0ho0"%string; crlf; "2ho0"%string; crlf] ++
      scan_frames (Examples.stage "0") (Examples.stage "2") grid_1 grid_2 /\
    List.length (written (scan_ser st)) =
    (List.length (written opened) + 4
     + 4 * (List.length grid_1 * List.length grid_2))%nat.
Proof.
  intros H1 H2.
  destruct (main_spec step_wp1 step_wp2 opened counts H1 H2)
    as (l1 & l2 & st & E1 & E2 & R & W & _).
  exists l1, l2, st. repeat (split; [assumption |]).
  rewrite W, !length_app, scan_frames_length. cbn [List.length]. lia.
Qed.

Lemma scan_sends_two_moves_per_point_witness :
  exists st,
    main 180 180 Examples.port (fun _ _ => (30, 70)%Q) = Ok st /\
    List.length (written (scan_ser st)) = 40%nat /\
    firstn 8 (written (scan_ser st)) =
    ["0ho0"; crlf; "2ho0"; crlf; "0maFFFEE800"; crlf; "2maFFFEE800"; crlf]%string.
Proof.
  destruct (scan_sends_two_moves_per_point
              180 180 Examples.port (fun _ _ => (30, 70)%Q))
    as (l1 & l2 & st & E1 & E2 & R & W & L);
    [reflexivity | reflexivity |].
  exists st. split; [exact R |].
  vm_compute in E1. injection E1 as <-. vm_compute in E2. injection E2 as <-.
  split; [exact L |]. rewrite W. reflexivity.
Defined.

(** X21: for positive steps, when the scan script has finished its double
    loop the map has one row per angle of the second waveplate and one
    column per angle of the first, and the cell in row j and column i holds
    the QBER computed from the counts read at the grid point (i, j): no cell
    is left at its initial zero or overwritten by another point. *)
Theorem scan_fills_every_cell
        (step_wp1 step_wp2 : Q) (opened : Serial)
        (counts : nat -> nat -> Q * Q) :
  (0 < step_wp1)%Q -> (0 < step_wp2)%Q ->
  exists grid_1 grid_2 st,
    np_arange (- (180)) (180 + step_wp1) step_wp1 = Ok grid_1 /\
    np_arange (- (180)) (180 + step_wp2) step_wp2 = Ok grid_2 /\
    main step_wp1 step_wp2 opened counts = Ok st /\
    shaped (List.length grid_2) (List.length grid_1) (scan_map st) /\
    (forall i j, (i < List.length grid_1)%nat -> (j < List.length grid_2)%nat ->
                 cell (scan_map st) j i =
                 Some (qber_of_counts (fst (counts i j)) (snd (counts i j)))).
Proof.
  intros H1 H2.
  destruct (main_spec step_wp1 step_wp2 opened counts H1 H2)
    as (l1 & l2 & st & E1 & E2 & R & _ & Sh & F).
  exists l1, l2, st. repeat (split; [assumption |]). exact F.
Qed.

Lemma scan_fills_every_cell_witness :
  exists st,
    main 180 180 Examples.port
         (fun i j => (inject_Z (Z.of_nat i), inject_Z (Z.of_nat j))) = Ok st /\
    cell (scan_map st) 2 1 = Some (1 # 3)%Q /\
    cell (scan_map st) 0 0 = Some 0%Q.
Proof.
  destruct (scan_fills_every_cell
              180 180 Examples.port
              (fun i j => (inject_Z (Z.of_nat i), inject_Z (Z.of_nat j))))
    as (l1 & l2 & st & E1 & E2 & R & _ & F);
    [reflexivity | reflexivity |].
  exists st. split; [exact R |].
  vm_compute in E1. injection E1 as <-. vm_compute in E2. injection E2 as <-.
  split.
  - rewrite (F 1%nat 2%nat) by (cbn; lia). reflexivity.
  - rewrite (F 0%nat 0%nat) by (cbn; lia). reflexivity.
Defined.

End MapCoverage.

(** ** Facts about binary64 *)

Module Binary64Facts.
Import Py PyFacts Binary64.

Lemma digits2_pos_bounds (p : positive) :
  2 ^ (Zpos (digits2_pos p) - 1) <= Zpos p < 2 ^ Zpos (digits2_pos p).
Proof.
  induction p as [p IH | p IH |]; cbn [digits2_pos].
  - rewrite Pos2Z.inj_succ.
    replace (Z.succ (Zpos (digits2_pos p)) - 1) with (Z.succ (Zpos (digits2_pos p) - 1)) by lia.
    rewrite !Z.pow_succ_r by lia. lia.
  - rewrite Pos2Z.inj_succ.
    replace (Z.succ (Zpos (digits2_pos p)) - 1) with (Z.succ (Zpos (digits2_pos p) - 1)) by lia.
    rewrite !Z.pow_succ_r by lia. lia.
  - cbn. lia.
Qed.

Lemma digits2_pos_iter_xO (k : positive) (p : positive) :
  digits2_pos (Pos.iter xO p k) = (digits2_pos p + k)%positive.
Proof.
  revert p. induction k as [| k IH] using Pos.peano_ind; intro p.
  - cbn. lia.
  - rewrite Pos.iter_succ. cbn [digits2_pos]. rewrite IH. lia.
Qed.

Lemma shr_fexp_exact (m : positive) (e : Z) :
  fexp prec emax (Zpos (digits2_pos m) + e) = e ->
  shr_fexp prec emax (Zpos m) e loc_Exact =
  ({| shr_m := Zpos m; shr_r := false; shr_s := false |}, e).
Proof.
  intro H. unfold shr_fexp. cbn [Zdigits2]. rewrite H, Z.sub_diag. reflexivity.
Qed.

Lemma binary_round_aux_exact (s : bool) (m : positive) (e : Z) :
  fexp prec emax (Zpos (digits2_pos m) + e) = e ->
  binary_round_aux prec emax s (Zpos m) e loc_Exact =
  if e <=? emax - prec then S754_finite s m e else S754_infinity s.
Proof.
  intro H. unfold binary_round_aux.
  rewrite (shr_fexp_exact m e H). cbn [shr_m loc_of_shr_record round_nearest_even].
  rewrite (shr_fexp_exact m e H). reflexivity.
Qed.

Lemma binary_round_small (s : bool) (p : positive) :
  Zpos p < 2 ^ 53 ->
  exists m e, binary_round prec emax s p 0 = S754_finite s m e /\
              Zpos m = Zpos p * 2 ^ (- e) /\ - 52 <= e <= 0.
Proof.
  intro H. pose proof (digits2_pos_bounds p) as B.
  assert (D : Zpos (digits2_pos p) <= 53).
  { destruct (Z.le_gt_cases (Zpos (digits2_pos p)) 53) as [L | G]; [exact L |].
    exfalso.
    assert (2 ^ 53 <= 2 ^ (Zpos (digits2_pos p) - 1))
      by (apply Z.pow_le_mono_r; lia).
    lia. }
  unfold binary_round, shl_align, fexp, emin.
  change prec with 53; change emax with 1024. rewrite Z.add_0_r.
  set (d := Zpos (digits2_pos p)) in *.
  replace (Z.max (d - 53) (3 - 1024 - 53)) with (d - 53) by lia.
  assert (Hd : 1 <= d) by (unfold d; lia).
  destruct (d - 53 - 0) as [| q | q] eqn:Eq; try lia.
  - rewrite binary_round_aux_exact.
    + change (0 <=? emax - prec) with true. cbn iota.
      exists p, 0. split; [reflexivity |].
      split; [change (- 0) with 0; rewrite Z.pow_0_r; lia |].
      clear. lia.
    + unfold fexp, emin. change prec with 53; change emax with 1024.
      fold d. lia.
  - rewrite binary_round_aux_exact.
    + destruct (Z.leb_spec (d - 53) (emax - prec)) as [_ | G];
        [| unfold emax, prec in G; lia].
      exists (Pos.iter xO p q), (d - 53). split; [reflexivity |].
      split; [| clear - Eq Hd D; lia].
      replace (- (d - 53)) with (Zpos q) by (clear - Eq; lia).
      clear. revert p. induction q as [| q IH] using Pos.peano_ind; intro p.
      * cbn. lia.
      * rewrite Pos.iter_succ, Pos2Z.inj_succ, Z.pow_succ_r by lia.
        rewrite Pos2Z.inj_xO, IH. lia.
    + rewrite digits2_pos_iter_xO. unfold fexp, emin.
      change prec with 53; change emax with 1024. fold d. lia.
Qed.

(** An integer of at most 53 bits is a double: its conversion is exact
    (and in particular not an infinity). *)
Lemma of_Z_small (n : Z) :
  Z.abs n < 2 ^ 53 ->
  (n = 0 /\ of_Z n = S754_zero false) \/
  exists s m e, of_Z n = S754_finite s m e /\
                (if s then Zneg m else Zpos m) = n * 2 ^ (- e) /\
                - 52 <= e <= 0.
Proof.
  intro H. unfold of_Z, binary_normalize.
  destruct n as [| p | p]; [left; split; reflexivity | right | right].
  - destruct (binary_round_small false p ltac:(lia)) as (m & e & E & V & R).
    exists false, m, e. auto.
  - destruct (binary_round_small true p ltac:(lia)) as (m & e & E & V & R).
    exists true, m, e. split; [exact E |]. split; [| exact R].
    change (Zneg m) with (- Zpos m). rewrite V. lia.
Qed.

Lemma double_of_int_small (n : Z) :
  Z.abs n < 2 ^ 53 -> double_of_int n = Ok (of_Z n).
Proof.
  intro H. unfold double_of_int.
  destruct (of_Z_small n H) as [[_ E] | (s & m & e & E & _)]; rewrite E; reflexivity.
Qed.

(** The order of doubles is total away from NaN. *)
Lemma SFcompare_antisym (x y : double) (c : comparison) :
  SFcompare x y = Some c -> SFcompare y x = Some (CompOpp c).
Proof.
  destruct x as [sx | sx | | sx mx ex]; destruct y as [sy | sy | | sy my ey];
    cbn [SFcompare]; try discriminate;
    try (destruct sx; intro H; injection H as <-; reflexivity);
    try (destruct sy; intro H; injection H as <-; reflexivity);
    try (destruct sx, sy; intro H; injection H as <-; reflexivity).
  intro H. injection H as <-. f_equal.
  pose proof (Pos.compare_cont_antisym mx my Eq) as A. cbn [CompOpp] in A.
  destruct sx, sy; try reflexivity;
    rewrite (Z.compare_antisym ey ex);
    destruct (ey ?= ex); cbn [CompOpp]; try reflexivity;
    rewrite <- A; destruct (Pos.compare_cont Eq mx my); reflexivity.
Qed.

Lemma not_lt64_le64 (x y : double) :
  is_nan x = false -> is_nan y = false ->
  lt64 x y = false -> le64 y x = true.
Proof.
  unfold lt64, le64, SFltb, SFleb. intros Hx Hy.
  destruct (SFcompare x y) as [c |] eqn:E.
  - rewrite (SFcompare_antisym _ _ _ E). destruct c; cbn; congruence.
  - destruct x, y; try discriminate; cbn in E; try discriminate;
      repeat match type of E with
             | context [if ?b then _ else _] => destruct b
             end; discriminate.
Qed.

Lemma add64_nan_r (x : double) : add64 x S754_nan = S754_nan.
Proof. destruct x; reflexivity. Qed.

Lemma sub64_nan_r (x : double) : sub64 x S754_nan = S754_nan.
Proof. destruct x; reflexivity. Qed.

(** [int] of a double raises on NaN and on the infinities only, and
    otherwise truncates toward zero. *)
Lemma int_of_double_cases (x : double) :
  (x = S754_nan /\ int_of_double x = Raise ValueError) \/
  ((exists s, x = S754_infinity s) /\ int_of_double x = Raise OverflowError) \/
  (exists p, int_of_double x = Ok p /\ p = int_of_float (to_Q x)).
Proof.
  destruct x as [s | s | | s m e].
  - right. right. eexists. split; reflexivity.
  - right. left. split; [eauto | reflexivity].
  - left. split; reflexivity.
  - right. right. eexists. split; reflexivity.
Qed.

Lemma int_of_double_raises (x : double) (e : exn) :
  int_of_double x = Raise e -> e = ValueError \/ e = OverflowError.
Proof.
  destruct x; cbn [int_of_double]; intro H; try discriminate;
    injection H as <-; auto.
Qed.

Lemma pow2_double_raises (x : double) (e : exn) :
  pow2_double x = Raise e -> e = OverflowError.
Proof.
  unfold pow2_double. destruct x; destruct (mul64 _ _); intro H;
    try discriminate; injection H as <-; reflexivity.
Qed.

(** The clamp leaves NaN or a step of at most 5 in magnitude. *)
Lemma clamped_bound (step : double) :
  Spec64.clamped step = S754_nan \/
  le64 (abs64 (Spec64.clamped step)) (of_Z 5) = true.
Proof.
  unfold Spec64.clamped.
  destruct (lt64 (of_Z 5) (abs64 step)) eqn:B.
  - right. destruct (lt64 step (of_Z 0)); reflexivity.
  - destruct step as [s | s | | s m e]; [| | left; reflexivity |];
      right; apply not_lt64_le64; try reflexivity; exact B.
Qed.

End Binary64Facts.

(** ** Results that stay in range *)

Module Binary64Range.
Import Py PyFacts Binary64 Binary64Facts.

Lemma Zdigits2_nonneg (z : Z) : 0 <= Zdigits2 z.
Proof. destruct z; cbn; lia. Qed.

Lemma Zdigits2_upper (z : Z) : 0 <= z -> z < 2 ^ Zdigits2 z.
Proof.
  destruct z as [| p | p]; intro H; cbn [Zdigits2]; [cbn; lia | | lia].
  apply digits2_pos_bounds.
Qed.

Lemma Zdigits2_lower (p : positive) : 2 ^ (Zdigits2 (Zpos p) - 1) <= Zpos p.
Proof. cbn [Zdigits2]. apply digits2_pos_bounds. Qed.

Lemma Zdigits2_le (z k : Z) : 0 <= k -> 0 <= z < 2 ^ k -> Zdigits2 z <= k.
Proof.
  intros Hk [H0 H]. destruct z as [| p | p]; [cbn; lia | | lia].
  pose proof (Zdigits2_lower p) as L.
  destruct (Z.le_gt_cases (Zdigits2 (Zpos p)) k) as [G | G]; [exact G |].
  exfalso.
  assert (2 ^ k <= 2 ^ (Zdigits2 (Zpos p) - 1)) by (apply Z.pow_le_mono_r; lia).
  lia.
Qed.

Lemma shr_1_m (mrs : shr_record) :
  0 <= shr_m mrs -> shr_m (shr_1 mrs) = shr_m mrs / 2.
Proof.
  destruct mrs as [m r s]. cbn [shr_m shr_1]. intro H.
  destruct m as [| [p | p |] | p]; cbn [shr_m]; try lia.
  all: try reflexivity.
  - apply Z.div_unique with 1; lia.
  - apply Z.div_unique with 0; lia.
Qed.

Lemma iter_shr_1_m (p : positive) :
  forall mrs, 0 <= shr_m mrs ->
              shr_m (iter_pos shr_1 p mrs) = shr_m mrs / 2 ^ Zpos p.
Proof.
  induction p as [p IH | p IH |]; intros mrs H; cbn [iter_pos].
  - assert (H1 : 0 <= shr_m (shr_1 mrs))
      by (rewrite shr_1_m by exact H; apply Z.div_pos; lia).
    assert (P : 0 < 2 ^ Zpos p) by (apply Z.pow_pos_nonneg; lia).
    assert (H2 : 0 <= shr_m (iter_pos shr_1 p (shr_1 mrs)))
      by (rewrite IH by exact H1; apply Z.div_pos; lia).
    rewrite IH by exact H2. rewrite IH by exact H1. rewrite shr_1_m by exact H.
    rewrite !Z.div_div by lia. f_equal.
    rewrite Pos2Z.inj_xI, Z.pow_add_r, Z.pow_mul_r by lia.
    change (2 ^ 2) with 4. change (2 ^ 1) with 2.
    replace (4 ^ Zpos p) with (2 ^ Zpos p * 2 ^ Zpos p); [lia |].
    rewrite <- Z.pow_add_r by lia. replace (Zpos p + Zpos p) with (2 * Zpos p) by lia.
    rewrite Z.pow_mul_r by lia. reflexivity.
  - assert (P : 0 < 2 ^ Zpos p) by (apply Z.pow_pos_nonneg; lia).
    assert (H2 : 0 <= shr_m (iter_pos shr_1 p mrs))
      by (rewrite IH by exact H; apply Z.div_pos; lia).
    rewrite IH by exact H2. rewrite IH by exact H.
    rewrite Z.div_div by lia. f_equal.
    rewrite Pos2Z.inj_xO. rewrite <- Z.pow_add_r by lia. f_equal. lia.
  - rewrite shr_1_m by exact H. reflexivity.
Qed.

Lemma shr_record_of_loc_m (m : Z) (l : location) :
  shr_m (shr_record_of_loc m l) = m.
Proof. destruct l as [| []]; reflexivity. Qed.

(** What the shift to the format's exponent leaves: a mantissa that is not
    negative, and a magnitude and an exponent that have not grown. *)
Lemma shr_fexp_range (m e : Z) (l : location) :
  0 <= m ->
  0 <= shr_m (fst (shr_fexp prec emax m e l)) /\
  Zdigits2 (shr_m (fst (shr_fexp prec emax m e l)))
  + snd (shr_fexp prec emax m e l) <= Z.max (Zdigits2 m + e) (-1074) /\
  snd (shr_fexp prec emax m e l) <= Z.max e (Z.max (Zdigits2 m + e - 53) (-1074)).
Proof.
  intro H. unfold shr_fexp, shr, fexp, emin.
  change prec with 53. change emax with 1024. change (3 - 1024 - 53) with (-1074).
  pose proof (Zdigits2_nonneg m) as D0. pose proof (Zdigits2_upper m H) as DU.
  set (d := Zdigits2 m) in *.
  destruct (Z.max (d + e - 53) (-1074) - e) as [| n | n] eqn:En;
    cbn [fst snd]; rewrite ?shr_record_of_loc_m.
  - fold d. repeat split; lia.
  - rewrite iter_shr_1_m by (rewrite shr_record_of_loc_m; exact H).
    rewrite shr_record_of_loc_m.
    assert (P : 0 < 2 ^ Zpos n) by (apply Z.pow_pos_nonneg; lia).
    assert (Q0 : 0 <= m / 2 ^ Zpos n) by (apply Z.div_pos; lia).
    split; [exact Q0 |]. split; [| lia].
    destruct (Z.le_gt_cases (Zpos n) d) as [L | G].
    + assert (Zdigits2 (m / 2 ^ Zpos n) <= d - Zpos n).
      { apply Zdigits2_le; [lia |]. split; [exact Q0 |].
        apply Z.div_lt_upper_bound; [lia |].
        rewrite <- Z.pow_add_r by lia.
        replace (Zpos n + (d - Zpos n)) with d by lia. exact DU. }
      lia.
    + assert (m / 2 ^ Zpos n = 0) as ->.
      { apply Z.div_small. split; [exact H |].
        assert (2 ^ d <= 2 ^ Zpos n) by (apply Z.pow_le_mono_r; lia). lia. }
      cbn [Zdigits2]. lia.
  - fold d. repeat split; lia.
Qed.

Lemma round_nearest_even_range (m : Z) (l : location) :
  0 <= m ->
  0 <= round_nearest_even m l /\
  Zdigits2 (round_nearest_even m l) <= Zdigits2 m + 1.
Proof.
  intro H. pose proof (Zdigits2_nonneg m) as D0.
  pose proof (Zdigits2_upper m H) as DU.
  assert (S : Zdigits2 (m + 1) <= Zdigits2 m + 1).
  { apply Zdigits2_le; [lia |]. rewrite Z.pow_add_r by lia.
    change (2 ^ 1) with 2. lia. }
  unfold round_nearest_even.
  destruct l as [| []]; try (split; lia).
  destruct (Z.even m); split; lia.
Qed.

(** A rounding whose operand is below [2^1023] in magnitude, with an
    exponent of at most 971, gives a zero or a finite double, at most one
    binary digit larger. *)
Lemma binary_round_aux_finite (s : bool) (mx ex : Z) (l : location) :
  0 <= mx -> ex <= 971 -> Zdigits2 mx + ex <= 1023 ->
  match binary_round_aux prec emax s mx ex l with
  | S754_zero s' => s' = s
  | S754_finite s' m e =>
      s' = s /\ Zdigits2 (Zpos m) + e <= Z.max (Zdigits2 mx + ex) (-1074) + 1
  | _ => False
  end.
Proof.
  intros H0 He Hd. unfold binary_round_aux.
  pose proof (shr_fexp_range mx ex l H0) as (A0 & A1 & A2).
  destruct (shr_fexp prec emax mx ex l) as [mrs' e']. cbn [fst snd] in *.
  pose proof (round_nearest_even_range (shr_m mrs') (loc_of_shr_record mrs') A0)
    as (R0 & R1).
  set (m1 := round_nearest_even (shr_m mrs') (loc_of_shr_record mrs')) in *.
  pose proof (shr_fexp_range m1 e' loc_Exact R0) as (B0 & B1 & B2).
  destruct (shr_fexp prec emax m1 e' loc_Exact) as [mrs'' e'']. cbn [fst snd] in *.
  pose proof (Zdigits2_nonneg mx) as D0.
  destruct (shr_m mrs'') as [| m | m]; [reflexivity | | lia].
  change (emax - prec) with 971.
  destruct (Z.leb_spec e'' 971) as [L | G]; [| lia].
  split; [reflexivity | lia].
Qed.


Lemma of_Z_below (n k : Z) :
  0 <= k <= 53 -> Z.abs n < 2 ^ k -> below k (of_Z n).
Proof.
  intros Hk H.
  assert (H53 : Z.abs n < 2 ^ 53).
  { assert (2 ^ k <= 2 ^ 53) by (apply Z.pow_le_mono_r; lia). lia. }
  destruct (of_Z_small n H53) as [[_ ->] | (s & m & e & -> & V & R)];
    [exact I |].
  cbn [below].
  assert (P : 0 < 2 ^ (- e)) by (apply Z.pow_pos_nonneg; lia).
  assert (M : Zpos m = Z.abs n * 2 ^ (- e)) by (destruct s; lia).
  assert (Zdigits2 (Zpos m) <= k - e); [| lia].
  apply Zdigits2_le; [lia |]. split; [lia |]. rewrite M.
  replace (k - e) with (k + - e) by lia. rewrite Z.pow_add_r by lia.
  apply Z.mul_lt_mono_pos_r; assumption.
Qed.

Lemma mul64_below (bx byy : Z) (x y : double) :
  below bx x -> below byy y -> -1074 <= bx + byy <= 973 ->
  below (bx + byy + 1) (mul64 x y).
Proof.
  destruct x as [sx | sx | | sx mx ex]; destruct y as [sy | sy | | sy my ey];
    cbn [below]; try contradiction; try (intros; exact I).
  intros Hx Hy B. unfold mul64. cbn [SFmul].
  pose proof (Zdigits2_upper (Zpos mx) ltac:(lia)) as Ux.
  pose proof (Zdigits2_upper (Zpos my) ltac:(lia)) as Uy.
  pose proof (Zdigits2_nonneg (Zpos mx)) as Nx.
  pose proof (Zdigits2_nonneg (Zpos my)) as Ny.
  assert (Px : 1 <= Zdigits2 (Zpos mx)) by (cbn; lia).
  assert (Py : 1 <= Zdigits2 (Zpos my)) by (cbn; lia).
  assert (D : Zdigits2 (Zpos (mx * my)) <= Zdigits2 (Zpos mx) + Zdigits2 (Zpos my)).
  { apply Zdigits2_le; [lia |]. split; [lia |].
    rewrite Pos2Z.inj_mul, Z.pow_add_r by lia.
    apply Z.mul_lt_mono_nonneg; lia. }
  pose proof (binary_round_aux_finite (xorb sx sy) (Zpos (mx * my)) (ex + ey)
                loc_Exact ltac:(lia) ltac:(lia) ltac:(lia)) as R.
  destruct (binary_round_aux prec emax (xorb sx sy) (Zpos (mx * my)) (ex + ey)
              loc_Exact) as [s | s | | s m e]; try contradiction; [exact I |].
  cbn [below]. lia.
Qed.

Lemma div64_below (bx ly : Z) (x y : double) :
  below bx x -> from ly y -> -1074 <= bx - ly <= 1000 ->
  below (bx - ly + 2) (div64 x y).
Proof.
  destruct x as [sx | sx | | sx mx ex]; destruct y as [sy | sy | | sy my ey];
    cbn [below from]; try contradiction; try (intros; exact I).
  intros Hx Hy B. unfold div64. cbn [SFdiv].
  unfold SFdiv_core_binary, fexp, emin.
  change prec with 53. change emax with 1024. change (3 - 1024 - 53) with (-1074).
  set (d1 := Zdigits2 (Zpos mx)) in *. set (d2 := Zdigits2 (Zpos my)) in *.
  set (e' := Z.min (Z.max (d1 + ex - (d2 + ey) - 53) (-1074)) (ex - ey)).
  set (m' := match ex - ey - e' with
             | 0 => Zpos mx
             | Zpos _ => Z.shiftl (Zpos mx) (ex - ey - e')
             | Zneg _ => 0
             end).
  pose proof (Z_div_mod m' (Zpos my) ltac:(lia)) as DM.
  assert (Q : Z.div_eucl m' (Zpos my) = (m' / Zpos my, m' mod Zpos my))
    by (unfold Z.div, Z.modulo; destruct (Z.div_eucl m' (Zpos my)); reflexivity).
  rewrite Q. clear DM Q.
  pose proof (Zdigits2_upper (Zpos mx) ltac:(lia)) as Ux. fold d1 in Ux.
  pose proof (Zdigits2_lower my) as Ly. fold d2 in Ly.
  assert (P1 : 1 <= d1) by (unfold d1; cbn; lia).
  assert (P2 : 1 <= d2) by (unfold d2; cbn; lia).
  assert (S0 : 0 <= ex - ey - e') by (unfold e'; lia).
  set (sh := ex - ey - e') in *.
  assert (M0 : 0 <= m' < 2 ^ (d1 + sh)).
  { unfold m'. destruct sh as [| q | q] eqn:Es; [| | lia].
    - rewrite Z.add_0_r. lia.
    - rewrite Z.shiftl_mul_pow2 by lia. rewrite Z.pow_add_r by lia.
      assert (0 < 2 ^ Zpos q) by (apply Z.pow_pos_nonneg; lia). nia. }
  assert (Q0 : 0 <= m' / Zpos my) by (apply Z.div_pos; lia).
  assert (QD : Zdigits2 (m' / Zpos my) <= d1 + sh - d2 + 1 \/ m' / Zpos my = 0).
  { destruct (Z.le_gt_cases 0 (d1 + sh - d2 + 1)) as [L | G].
    - left. apply Zdigits2_le; [exact L |]. split; [exact Q0 |].
      apply Z.div_lt_upper_bound; [lia |].
      assert (2 ^ (d1 + sh) = 2 ^ (d2 - 1) * 2 ^ (d1 + sh - d2 + 1)) as E.
      { rewrite <- Z.pow_add_r by lia. f_equal. lia. }
      assert (0 < 2 ^ (d1 + sh - d2 + 1)) by (apply Z.pow_pos_nonneg; lia).
      nia.
    - right. apply Z.div_small. split; [lia |].
      assert (2 ^ (d1 + sh) <= 2 ^ (d2 - 1)) by (apply Z.pow_le_mono_r; lia).
      lia. }
  assert (QB : Zdigits2 (m' / Zpos my) + e' <= Z.max (bx - ly + 1) (-1074)).
  { destruct QD as [QD | ->]; [unfold sh in QD; lia |]. cbn [Zdigits2].
    unfold e'. lia. }
  pose proof (binary_round_aux_finite (xorb sx sy) (m' / Zpos my) e'
                (new_location (Zpos my) (m' mod Zpos my))
                Q0 ltac:(unfold e'; lia) ltac:(lia)) as R.
  change prec with 53 in R. change emax with 1024 in R.
  destruct (binary_round_aux 53 1024 (xorb sx sy) (m' / Zpos my) e' _)
    as [s | s | | s m e]; try contradiction; [exact I |].
  cbn [below]. lia.
Qed.

End Binary64Range.

(** ** Facts about the driver in binary64 *)

Module Driver64Facts.
Import Py PyFacts ELL14 DriverFacts Binary64 Binary64Facts ELL14_64 Spec64.

Lemma skip_int_space_length (l : list ascii) :
  (List.length (skip_int_space l) <= List.length l)%nat.
Proof.
  induction l as [| c l IH]; [reflexivity |]. cbn [skip_int_space].
  destruct (is_int_space c); cbn [List.length]; lia.
Qed.

Lemma skip_sign_length (l : list ascii) :
  (List.length (snd (skip_sign l)) <= List.length l)%nat.
Proof.
  destruct l as [| c l]; [reflexivity |]. cbn [skip_sign].
  destruct (is_plus c); [cbn; lia |]. destruct (is_minus c); cbn; lia.
Qed.

Lemma skip_prefix_length (l : list ascii) :
  (List.length (skip_prefix l) <= List.length l)%nat.
Proof.
  destruct l as [| c0 [| c1 r]]; try reflexivity. cbn [skip_prefix].
  destruct (is_zero c0 && is_x c1); [| lia].
  destruct r as [| u r']; [cbn; lia |].
  destruct (is_underscore u); cbn; lia.
Qed.

Lemma digit_value_range (c : ascii) (d : Z) :
  digit_value c = Some d -> 0 <= d < 16.
Proof.
  unfold digit_value. generalize (Z.of_N (N_of_ascii c)). intros n H.
  repeat match type of H with
         | context [(?a <=? ?b)] => destruct (Z.leb_spec a b)
         end; cbn in H; try discriminate; injection H as <-; lia.
Qed.

Lemma scan_digits_bound (l : list ascii) :
  forall acc n prev v n' rest,
    0 <= acc ->
    scan_digits acc n prev l = Some (v, n', rest) ->
    acc <= v < (acc + 1) * 16 ^ Z.of_nat (List.length l).
Proof.
  induction l as [| c l IH]; intros acc n prev v n' rest Hacc H;
    cbn [scan_digits] in H.
  - destruct prev; [discriminate |]. injection H as <- _ _. cbn. lia.
  - cbn [List.length]. rewrite Nat2Z.inj_succ, Z.pow_succ_r by lia.
    assert (P : 0 < 16 ^ Z.of_nat (List.length l)) by (apply Z.pow_pos_nonneg; lia).
    destruct (is_underscore c).
    + destruct prev; [discriminate |].
      specialize (IH _ _ _ _ _ _ Hacc H). nia.
    + destruct (digit_value c) as [d |] eqn:D.
      * pose proof (digit_value_range c d D) as R.
        assert (Hacc' : 0 <= 16 * acc + d) by lia.
        specialize (IH _ _ _ _ _ _ Hacc' H). nia.
      * destruct prev; [discriminate |]. injection H as <- _ _. nia.
Qed.

(** What [int(_, 16)] accepts is smaller in magnitude than 16 to the
    number of characters. *)
Lemma int16_chars_bound (l : list ascii) (n : Z) :
  int16_chars l = Ok n -> Z.abs n < 16 ^ Z.of_nat (List.length l).
Proof.
  unfold int16_chars.
  pose proof (skip_int_space_length l) as L1.
  pose proof (skip_sign_length (skip_int_space l)) as L2.
  destruct (skip_sign (skip_int_space l)) as [neg l1]. cbn [snd] in L2.
  pose proof (skip_prefix_length l1) as L3.
  destruct (starts_with_underscore _); [discriminate |].
  destruct (scan_digits 0 0 false (skip_prefix l1)) as [[[v k] rest] |] eqn:E;
    [| discriminate].
  destruct k; [discriminate |].
  destruct (skip_int_space rest); [| discriminate].
  intro H. injection H as <-.
  pose proof (scan_digits_bound _ _ _ _ _ _ _ (Z.le_refl 0) E) as B.
  assert (M : 16 ^ Z.of_nat (List.length (skip_prefix l1))
              <= 16 ^ Z.of_nat (List.length l))
    by (apply Z.pow_le_mono_r; lia).
  destruct neg; lia.
Qed.

Lemma last8_length (l : list ascii) : (List.length (last8 l) <= 8)%nat.
Proof. unfold last8. rewrite length_skipn. lia. Qed.

Lemma pos_hex_bound (resp : string) (n : Z) :
  int16_chars (DriverSpec.pos_hex resp) = Ok n -> Z.abs n < 2 ^ 32.
Proof.
  intro H. apply int16_chars_bound in H.
  pose proof (last8_length (list_ascii_of_string resp)) as L.
  fold (DriverSpec.pos_hex resp) in L.
  assert (16 ^ Z.of_nat (List.length (DriverSpec.pos_hex resp)) <= 16 ^ 8)
    by (apply Z.pow_le_mono_r; lia).
  change (16 ^ 8) with (2 ^ 32) in *. lia.
Qed.

(** A count that fits 33 bits converts without overflow. *)
Lemma _pulses_to_deg_bounded (n : Z) :
  Z.abs n < 2 ^ 32 -> _pulses_to_deg n = Ok (reported_deg n).
Proof.
  intro H. unfold _pulses_to_deg, reported_deg, DriverSpec.signed32.
  rewrite double_of_int_small; [reflexivity |].
  destruct (0x80000000 <=? n); lia.
Qed.

(** The two outcomes of [_update_position]. *)
Lemma _update_position_cases64 (self : ElliptecController) (resp : string) :
  (int16_chars (DriverSpec.pos_hex resp) = Raise ValueError /\
   _update_position self resp = Ok self) \/
  (exists n, int16_chars (DriverSpec.pos_hex resp) = Ok n /\ Z.abs n < 2 ^ 32 /\
             _update_position self resp =
             Ok (set_position self (round2_double (reported_deg n)))).
Proof.
  unfold _update_position, int16. fold (DriverSpec.pos_hex resp).
  rewrite list_ascii_of_string_of_list_ascii.
  destruct (int16_chars (DriverSpec.pos_hex resp)) as [n | e] eqn:E.
  - right. exists n. pose proof (pos_hex_bound resp n E) as B.
    split; [reflexivity |]. split; [exact B |].
    cbn [bind]. rewrite (_pulses_to_deg_bounded n B). reflexivity.
  - left. assert (e = ValueError).
    { apply (int16_only_ValueError (string_of_list_ascii (DriverSpec.pos_hex resp))).
      unfold int16. rewrite list_ascii_of_string_of_list_ascii. exact E. }
    subst e. split; reflexivity.
Qed.

Lemma _update_position_total64 (self : ElliptecController) (resp : string) :
  exists self', _update_position self resp = Ok self' /\
                address self' = address self /\ verbose self' = verbose self.
Proof.
  destruct (_update_position_cases64 self resp) as [[_ H] | (n & _ & _ & H)];
    rewrite H; eexists; repeat split.
Qed.

(** A command that reads a position back completes, whatever the device
    answers: it writes its frame and CR LF, and nothing else. *)
Lemma send_and_update_total64 (self : ElliptecController) (ser : Serial)
      (cmd : string) :
  exists self' ser' resp,
    send_and_update self ser cmd = Ok (self', ser', resp) /\
    written ser' = written ser ++ [(address self ++ cmd)%string; crlf] /\
    device ser' = device ser /\
    address self' = address self /\ verbose self' = verbose self /\
    _update_position self resp = Ok self'.
Proof.
  unfold send_and_update.
  destruct (_send_cmd self ser cmd) as [resp ser'] eqn:E.
  unfold _send_cmd in E. injection E as _ <-.
  destruct (_update_position_total64 self resp) as (self' & H & A & V).
  rewrite H. cbn [bind]. eexists _, _, _. split; [reflexivity |].
  split; [cbn; rewrite <- app_assoc; reflexivity |]. repeat split; assumption.
Qed.

Lemma _deg_to_pulses_raises (degrees : double) (e : exn) :
  _deg_to_pulses degrees = Raise e -> e = ValueError \/ e = OverflowError.
Proof. apply int_of_double_raises. Qed.

Lemma _deg_to_pulses_nan : _deg_to_pulses S754_nan = Raise ValueError.
Proof. reflexivity. Qed.

(** A move in degrees: the conversion decides whether anything is sent. *)
Lemma move_deg_cases (mnemonic : string) (self : ElliptecController)
      (ser : Serial) (degrees : double) :
  match _deg_to_pulses degrees with
  | Ok p =>
      exists self' ser' resp,
        (pulses <- _deg_to_pulses degrees ;;
         send_and_update self ser (mnemonic ++ hex8 pulses)) =
        Ok (self', ser', resp) /\
        written ser' = written ser ++ [frame self mnemonic p; crlf] /\
        device ser' = device ser /\
        address self' = address self /\ verbose self' = verbose self
  | Raise e =>
      (pulses <- _deg_to_pulses degrees ;;
       send_and_update self ser (mnemonic ++ hex8 pulses)) = Raise e
  end.
Proof.
  destruct (_deg_to_pulses degrees) as [p | e]; cbn [bind]; [| reflexivity].
  destruct (send_and_update_total64 self ser (mnemonic ++ hex8 p))
    as (self' & ser' & resp & H & W & D & A & V & _).
  exists self', ser', resp. unfold frame. fold (hex8 p). auto.
Qed.

End Driver64Facts.

(** ** The driver's conversion and position update in binary64 *)

Module Driver64Claims.
Import Py PyFacts ELL14 DriverFacts Binary64 Binary64Facts ELL14_64 Spec64.
Import Driver64Facts.

(** C1 (as the code has it): the degree-to-pulse conversion used by
    [move_absolute_deg] and [move_relative_deg] is
    [int(a * pulses_per_turn / 360)] in binary64.  The product and the
    quotient are each rounded to a double; a NaN quotient raises
    [ValueError], an infinite one (the product of a finite angle can
    overflow) [OverflowError]; otherwise the quotient is truncated toward
    zero, so the pulse count lies within less than one pulse of the
    computed quotient, on the side of zero, and that count is the one the
    two moves send. *)
Theorem deg_to_pulses_truncates_toward_zero
        (degrees : double) (self : ElliptecController) (ser : Serial) :
  let y := div64 (mul64 degrees (of_Z pulses_per_turn)) (of_Z 360) in
  match y with
  | S754_nan => _deg_to_pulses degrees = Raise ValueError
  | S754_infinity _ => _deg_to_pulses degrees = Raise OverflowError
  | _ =>
      exists p : Z,
        _deg_to_pulses degrees = Ok p /\
        p = Z.quot (Qnum (to_Q y)) (Zpos (Qden (to_Q y))) /\
        ((0 <= to_Q y -> inject_Z p <= to_Q y < inject_Z p + 1) /\
         (to_Q y <= 0 -> inject_Z p - 1 < to_Q y <= inject_Z p))%Q /\
        move_absolute_deg self ser degrees =
        send_and_update self ser ("ma" ++ format_08X (Z.land p 0xFFFFFFFF)) /\
        move_relative_deg self ser degrees =
        send_and_update self ser ("mr" ++ format_08X (Z.land p 0xFFFFFFFF))
  end.
Proof.
  intro y. unfold move_absolute_deg, move_relative_deg, _deg_to_pulses.
  fold y. destruct y as [s | s | | s m e] eqn:Y; try reflexivity.
  - exists (int_of_float (to_Q (S754_zero s))). split; [reflexivity |].
    split; [reflexivity |]. split; [apply int_of_float_spec |].
    split; reflexivity.
  - exists (int_of_float (to_Q (S754_finite s m e))). split; [reflexivity |].
    split; [reflexivity |]. split; [apply int_of_float_spec |].
    split; reflexivity.
Qed.

Lemma deg_to_pulses_truncates_toward_zero_witness :
  exists p : Z,
    _deg_to_pulses (of_Q (-999 # 100)) = Ok p /\ p = -3978 /\
    forall self ser,
      move_absolute_deg self ser (of_Q (-999 # 100)) =
      send_and_update self ser "maFFFFF076".
Proof.
  pose proof (fun self ser =>
                deg_to_pulses_truncates_toward_zero (of_Q (-999 # 100)) self ser)
    as T.
  exists (-3978). split; [reflexivity |]. split; [reflexivity |].
  intros self ser. destruct (T self ser) as (p & E & _ & _ & M & _).
  vm_compute in E. injection E as <-. exact M.
Defined.

(** C1 fails as stated: a quarter of a degree is 99.56 pulses, which the
    driver turns into 99 where rounding to the nearest gives 100. *)
Lemma deg_to_pulses_is_not_rounding :
  let quotient := div64 (mul64 (of_Q (1 # 4)) (of_Z pulses_per_turn)) (of_Z 360) in
  _deg_to_pulses (of_Q (1 # 4)) = Ok 99 /\
  round_double quotient = Ok 100 /\
  _deg_to_pulses (of_Q (1 # 4)) <> round_double quotient.
Proof. cbv zeta. repeat split; try reflexivity. vm_compute. discriminate. Qed.

(** The truncation applies to the computed quotient, not to the exact one:
    for the double [9 * 360.0 / 143360] the exact quotient is below 9 and
    the driver sends 9 pulses. *)
Lemma deg_to_pulses_rounding_lifts :
  let a := div64 (mul64 (of_Z 9) (of_Z 360)) (of_Z pulses_per_turn) in
  _deg_to_pulses a = Ok 9 /\
  (to_Q a * inject_Z pulses_per_turn / 360 < 9)%Q /\
  int_of_float (to_Q a * inject_Z pulses_per_turn / 360) = 8.
Proof. cbv zeta. repeat split. Qed.

(** A finite angle whose product with the pulses per turn is beyond the
    doubles cannot be converted. *)
Lemma deg_to_pulses_overflows :
  exists s m e,
    of_Z (2 ^ 1023) = S754_finite s m e /\
    _deg_to_pulses (of_Z (2 ^ 1023)) = Raise OverflowError.
Proof. eexists _, _, _. split; reflexivity. Qed.

(** *** Responses that do not carry a position *)

(** C4 (as the code has it): [_update_position] never raises.  The cached
    position stays as it was exactly when [int(resp[-8:], 16)] rejects the
    field; whenever it accepts it, as it does every field of eight
    hexadecimal digits, the position becomes the decoded angle rounded to
    two decimals.  So no response can make a command fail: [home],
    [move_absolute], [move_relative] and [stop] always complete, and a move
    in degrees completes whenever its conversion to pulses does, and
    otherwise raises before anything is sent. *)
Theorem update_position_follows_int_parse
        (self : ElliptecController) (ser : Serial) (resp : string) :
  ((int16_chars (DriverSpec.pos_hex resp) = Raise ValueError /\
    _update_position self resp = Ok self) \/
   (exists n, int16_chars (DriverSpec.pos_hex resp) = Ok n /\
              _update_position self resp =
              Ok (set_position self (round2_double (reported_deg n))))) /\
  (DriverSpec.is_hex8 (DriverSpec.pos_hex resp) = true ->
   0 <= DriverSpec.hex_value (DriverSpec.pos_hex resp) < 2 ^ 32 /\
   _update_position self resp =
   Ok (set_position self
         (round2_double
            (reported_deg (DriverSpec.hex_value (DriverSpec.pos_hex resp)))))) /\
  (forall direction, exists r, home self ser direction = Ok r) /\
  (forall pulses, exists r, move_absolute self ser pulses = Ok r) /\
  (forall pulses, exists r, move_relative self ser pulses = Ok r) /\
  (exists r, stop self ser = Ok r) /\
  (forall degrees,
      match _deg_to_pulses degrees with
      | Ok _ => (exists r, move_absolute_deg self ser degrees = Ok r) /\
                (exists r, move_relative_deg self ser degrees = Ok r)
      | Raise e => move_absolute_deg self ser degrees = Raise e /\
                   move_relative_deg self ser degrees = Raise e
      end).
Proof.
  assert (T : forall cmd, exists r, send_and_update self ser cmd = Ok r).
  { intro cmd.
    destruct (send_and_update_total64 self ser cmd) as (u & v & r & H & _).
    rewrite H. eauto. }
  split.
  { destruct (_update_position_cases64 self resp) as [C | (n & P & _ & U)];
      [left; exact C | right; eauto]. }
  split.
  { intro H8. unfold DriverSpec.is_hex8 in H8. apply andb_true_iff in H8.
    destruct H8 as [Hlen Hhex]. apply Nat.eqb_eq in Hlen.
    assert (Hne : DriverSpec.pos_hex resp <> []).
    { intro E. rewrite E in Hlen. discriminate. }
    pose proof (int16_chars_hex _ Hne Hhex) as P.
    pose proof (hex_value_bound _ Hhex) as B. rewrite Hlen in B.
    split; [exact B |].
    destruct (_update_position_cases64 self resp) as [[E _] | (n & E & _ & U)];
      rewrite E in P; [discriminate |].
    injection P as ->. exact U. }
  split; [intro; apply T |]. split; [intro; apply T |].
  split; [intro; apply T |]. split; [apply T |].
  intro degrees. unfold move_absolute_deg, move_relative_deg.
  destruct (_deg_to_pulses degrees) as [p | e]; cbn [bind].
  - split; apply T.
  - split; reflexivity.
Qed.

Lemma update_position_follows_int_parse_witness :
  exists self' ser' resp,
    move_absolute_deg (Examples64.stage "0" 0)
                      {| device := fun _ => "0PO0000031C"%string; written := [] |}
                      (of_Z 2) = Ok (self', ser', resp) /\
    position self' = of_Z 2.
Proof.
  destruct (update_position_follows_int_parse
              (Examples64.stage "0" 0)
              {| device := fun _ => "0PO0000031C"%string; written := [] |}
              "0PO0000031C")
    as (_ & _ & _ & _ & _ & _ & D).
  specialize (D (of_Z 2)).
  change (_deg_to_pulses (of_Z 2)) with (@Ok Z 796) in D.
  destruct D as [[[[self' ser'] resp] M] _].
  exists self', ser', resp. split; [exact M |].
  vm_compute in M. injection M as <- _ _. reflexivity.
Defined.

(** C4 fails as stated: the answers ["1F"] and ["0x00001F"] are not fields
    of eight hexadecimal digits, yet [int(_, 16)] reads both as 31 and the
    cached position moves from 0 to 0.08 degrees. *)
Lemma short_or_prefixed_response_updates_position :
  let self := {| address := "0"; verbose := false; position := S754_zero false |} in
  let ser := {| device := fun _ => "1F"%string; written := [] |} in
  DriverSpec.is_hex8 (DriverSpec.pos_hex "1F") = false /\
  DriverSpec.is_hex8 (DriverSpec.pos_hex "0x00001F") = false /\
  _update_position self "1F" = Ok (set_position self (of_Q (8 # 100))) /\
  _update_position self "0x00001F" = Ok (set_position self (of_Q (8 # 100))) /\
  (exists self' ser', home self ser 0 = Ok (self', ser', "1F"%string) /\
                      position self' = of_Q (8 # 100)) /\
  of_Q (8 # 100) <> position self.
Proof.
  cbv zeta. repeat split; try reflexivity.
  - eexists _, _. split; reflexivity.
  - vm_compute. discriminate.
Qed.

(** The separators FS..US are no blanks for [int]: a field padded with
    them is rejected although [str.strip] would remove them, and the
    position stays. *)
Lemma separator_padding_is_rejected :
  let fs := String (ascii_of_nat 28) EmptyString in
  let self := Examples64.stage "0" 0 in
  _update_position self ("0PO" ++ fs ++ fs ++ fs ++ fs ++ fs ++ fs ++ "1F") =
  Ok self /\
  _update_position self "0PO      1F" <> Ok self.
Proof. cbv zeta. split; [reflexivity | vm_compute; discriminate]. Qed.

(** *** Framing *)

(** X5: every command of the driver writes exactly one frame, the
    controller's address followed by the text of the command, and then one
    CR LF, and completes whatever the device answers; it changes neither the
    address nor the device.  The only commands that can fail are the moves
    in degrees, when the conversion to pulses raises, and then nothing is
    written. *)
Theorem one_frame_per_command
        (c : command) (self : ElliptecController) (ser : Serial) :
  match converted c with
  | Ok pulses =>
      exists self' ser',
        run c self ser = Ok (self', ser') /\
        written ser' =
        written ser ++ [(address self ++ command_text c pulses)%string; crlf] /\
        device ser' = device ser /\
        address self' = address self /\ verbose self' = verbose self
  | Raise e => run c self ser = Raise e
  end.
Proof.
  assert (T : forall cmd,
             exists self' ser',
               ('(self, ser, _) <- send_and_update self ser cmd ;; Ok (self, ser))
               = Ok (self', ser') /\
               written ser' = written ser ++ [(address self ++ cmd)%string; crlf] /\
               device ser' = device ser /\
               address self' = address self /\ verbose self' = verbose self).
  { intro cmd.
    destruct (send_and_update_total64 self ser cmd)
      as (u & v & r & H & W & D & A & V & _).
    rewrite H. cbn [bind]. exists u, v. auto. }
  destruct c; cbn [converted run command_text];
    unfold home, move_absolute, move_relative, move_absolute_deg,
      move_relative_deg, stop, get_info, get_status;
    try apply T.
  - destruct (_deg_to_pulses degrees) as [p | e]; cbn [bind];
      [apply T | reflexivity].
  - destruct (_deg_to_pulses degrees) as [p | e]; cbn [bind];
      [apply T | reflexivity].
  - eexists _, _. split; [reflexivity |].
    split; [cbn; rewrite <- app_assoc; reflexivity | repeat split].
  - eexists _, _. split; [reflexivity |].
    split; [cbn; rewrite <- app_assoc; reflexivity | repeat split].
Qed.

Lemma one_frame_per_command_witness :
  (exists self' ser',
      run (MoveRelativeDeg (of_Z (-360))) (Examples64.stage "2" 0) Examples.port
      = Ok (self', ser') /\
      written ser' = ["2mrFFFDD000"%string; crlf]) /\
  (exists self' ser',
      run GetStatus (Examples64.stage "2" 0) Examples.port = Ok (self', ser') /\
      written ser' = ["2gs"%string; crlf]) /\
  run (MoveAbsoluteDeg S754_nan) (Examples64.stage "2" 0) Examples.port
  = Raise ValueError.
Proof.
  pose proof (one_frame_per_command (MoveRelativeDeg (of_Z (-360)))
                                    (Examples64.stage "2" 0) Examples.port) as A.
  pose proof (one_frame_per_command GetStatus
                                    (Examples64.stage "2" 0) Examples.port) as B.
  pose proof (one_frame_per_command (MoveAbsoluteDeg S754_nan)
                                    (Examples64.stage "2" 0) Examples.port) as C.
  change (converted (MoveRelativeDeg (of_Z (-360)))) with (@Ok Z (-143360)) in A.
  cbn [converted] in B, C.
  destruct A as (s1 & r1 & R1 & W1 & _). destruct B as (s2 & r2 & R2 & W2 & _).
  split; [exists s1, r1; split; [exact R1 | rewrite W1; reflexivity] |].
  split; [exists s2, r2; split; [exact R2 | rewrite W2; reflexivity] |].
  exact C.
Defined.

End Driver64Claims.

(** ** The position cache in binary64 *)

Module Cache64Claims.
Import Py PyFacts ELL14 DriverFacts Binary64 Binary64Facts Binary64Range.
Import ELL14_64 Spec64 Driver64Facts.

(** The angle of a count of at most 32 bits is a zero or a finite double
    below [2^26]. *)
Lemma reported_deg_below (n : Z) :
  Z.abs n < 2 ^ 32 -> below 26 (reported_deg n).
Proof.
  intro H. unfold reported_deg.
  assert (A : below 32 (of_Z (DriverSpec.signed32 n))).
  { apply of_Z_below; [lia |]. unfold DriverSpec.signed32.
    change (2 ^ 32) with 4294967296 in *.
    destruct (Z.leb_spec 0x80000000 n); lia. }
  assert (B : below 9 (of_Z 360)) by (apply of_Z_below; [lia | reflexivity]).
  pose proof (mul64_below 32 9 _ _ A B ltac:(lia)) as M.
  assert (F : from 18 (of_Z pulses_per_turn)) by (vm_compute; discriminate).
  exact (div64_below (32 + 9 + 1) 18 _ _ M F ltac:(lia)).
Qed.

Lemma binary_round_aux_zero (s s' : bool) (m e : Z) (l : location) :
  binary_round_aux prec emax s m e l = S754_zero s' -> s' = s.
Proof.
  unfold binary_round_aux.
  destruct (shr_fexp prec emax m e l) as [mrs' e'].
  destruct (shr_fexp prec emax _ e' loc_Exact) as [mrs'' e''].
  destruct (shr_m mrs'') as [| p | p]; try discriminate.
  - intro H. injection H as <-. reflexivity.
  - destruct (e'' <=? emax - prec); discriminate.
Qed.

Lemma of_Q_zero_sign (q : Q) (s : bool) :
  (0 <= q)%Q -> of_Q q = S754_zero s -> s = false.
Proof.
  intros H. unfold of_Q. destruct q as [[| n | n] d]; cbn [Qnum Qden].
  - intro E. injection E as <-. reflexivity.
  - destruct (SFdiv_core_binary _ _ _ _ _ _) as [[m e] l]. intro E.
    exact (binary_round_aux_zero _ _ _ _ _ E).
  - exfalso. unfold Qle in H. cbn in H. lia.
Qed.

Lemma to_Q_nonneg (m : positive) (e : Z) : (0 <= to_Q (S754_finite false m e))%Q.
Proof.
  unfold to_Q. destruct e as [| p | p].
  - unfold Qle. cbn. lia.
  - unfold Qle. cbn [Qnum Qden inject_Z].
    assert (0 < 2 ^ Zpos p) by (apply Z.pow_pos_nonneg; lia). nia.
  - unfold Qle. cbn. lia.
Qed.

Lemma round2_nonneg (x : Q) : (0 <= x)%Q -> (0 <= round2 x)%Q.
Proof.
  intro H. pose proof (round_half_even_close (x * 100)) as C.
  apply Qabs_Qle_condition in C. destruct C as [C _].
  assert (K : (-1 < inject_Z (round_half_even (x * 100)))%Q) by lra.
  change (-1)%Q with (inject_Z (-1)) in K. rewrite <- Zlt_Qlt in K.
  unfold round2. set (k := round_half_even (x * 100)) in *.
  assert (K0 : (0 <= inject_Z k)%Q)
    by (change 0%Q with (inject_Z 0); rewrite <- Zle_Qle; lia).
  apply Qle_shift_div_l; [reflexivity | lra].
Qed.

(** [round(x, 2)] of a zero or a finite double: the double nearest to the
    hundredth nearest to [x], ties to the even hundredth; a zero keeps the
    sign of [x]. *)
Lemma round2_double_spec (b : Z) (x : double) :
  below b x ->
  exists k : Z,
    k = round_half_even (to_Q x * 100) /\
    (Qabs (inject_Z k / 100 - to_Q x) <= 1 # 200)%Q /\
    (round2_double x = of_Q (inject_Z k / 100) \/
     round2_double x = S754_zero true /\
     is_zero64 (of_Q (inject_Z k / 100)) = true).
Proof.
  intro B. exists (round_half_even (to_Q x * 100)).
  split; [reflexivity |]. split; [exact (round2_close (to_Q x)) |].
  destruct x as [s | s | | s m e]; cbn [below] in B; try contradiction.
  - destruct s; [right | left]; split; reflexivity.
  - unfold round2_double. fold (round2 (to_Q (S754_finite s m e))).
    destruct (of_Q (round2 (to_Q (S754_finite s m e)))) as [s' | s' | | s' m' e']
      eqn:E; try (left; reflexivity).
    destruct s; [right; split; reflexivity | left].
    f_equal. symmetry. apply (of_Q_zero_sign _ _ (round2_nonneg _ (to_Q_nonneg m e)) E).
Qed.

Lemma round2_double_centi (b : Z) (x : double) :
  below b x -> centi64 (round2_double x).
Proof.
  intro B. destruct (round2_double_spec b x B) as (k & _ & _ & [E | [E _]]).
  - right. exists k. exact E.
  - left. exact E.
Qed.

Lemma _update_position_centi64 (self self' : ElliptecController) (resp : string) :
  centi64 (position self) -> _update_position self resp = Ok self' ->
  centi64 (position self').
Proof.
  intros C H.
  destruct (_update_position_cases64 self resp) as [[_ E] | (n & _ & B & E)];
    rewrite E in H; injection H as <-; [exact C |].
  exact (round2_double_centi _ _ (reported_deg_below n B)).
Qed.

Lemma send_and_update_centi64 (self self' : ElliptecController)
      (ser ser' : Serial) (cmd resp : string) :
  centi64 (position self) ->
  send_and_update self ser cmd = Ok (self', ser', resp) ->
  centi64 (position self').
Proof.
  unfold send_and_update. destruct (_send_cmd self ser cmd) as [r s].
  intros C H. destruct (_update_position self r) as [u | e] eqn:E;
    [| discriminate].
  cbn in H. injection H as <- _ _. exact (_update_position_centi64 _ _ _ C E).
Qed.

Lemma run_centi64 (c : command) (self self' : ElliptecController)
      (ser ser' : Serial) :
  centi64 (position self) -> run c self ser = Ok (self', ser') ->
  centi64 (position self').
Proof.
  intros C H. destruct c; cbn [run] in H;
    try (injection H as <- _; exact C);
    unfold home, move_absolute, move_relative, move_absolute_deg,
      move_relative_deg, stop in H;
    try (destruct (_deg_to_pulses _) as [p |]; [cbn [bind] in H | discriminate]);
    match type of H with
    | context [send_and_update ?s ?r ?m] =>
        destruct (send_and_update s r m) as [[[u v] w] |] eqn:E;
        [| discriminate]
    end;
    cbn in H; injection H as <- _; exact (send_and_update_centi64 _ _ _ _ _ _ C E).
Qed.

Lemma run_all_centi64 (cs : list command) :
  forall (self : ElliptecController) (ser : Serial),
    centi64 (position self) ->
    match run_all cs self ser with
    | Ok (self', _) => centi64 (get_position_deg self')
    | Raise _ => True
    end.
Proof.
  induction cs as [| c cs IH]; intros self ser C.
  - exact C.
  - cbn [run_all]. destruct (run c self ser) as [[u v] |] eqn:E; [| exact I].
    cbn [bind]. apply IH. exact (run_centi64 _ _ _ _ _ C E).
Qed.

(** C10: when [int(resp[-8:], 16)] accepts the answer, [_update_position]
    stores [round(deg, 2)] of the angle [deg] computed from the count: the
    double nearest to a whole number [k] of hundredths of a degree, that
    hundredth lying within 0.005 degrees of [deg] (a zero keeps the sign of
    [deg]).  So what [get_position_deg] returns after any run of commands
    on a new controller is such a double; and the stored angle can differ
    from the computed one by more than one device step (360/143360
    degrees), as it does for a count of 2, stored as 0.01. *)
Theorem cached_position_is_quantized
        (self : ElliptecController) (resp : string) (n : Z) :
  int16_chars (DriverSpec.pos_hex resp) = Ok n ->
  (exists k : Z,
      k = round_half_even (to_Q (reported_deg n) * 100) /\
      (Qabs (inject_Z k / 100 - to_Q (reported_deg n)) <= 1 # 200)%Q /\
      (exists self',
          _update_position self resp = Ok self' /\
          address self' = address self /\ verbose self' = verbose self /\
          get_position_deg self' = round2_double (reported_deg n) /\
          (get_position_deg self' = of_Q (inject_Z k / 100) \/
           get_position_deg self' = S754_zero true /\
           is_zero64 (of_Q (inject_Z k / 100)) = true))) /\
  (forall (cs : list command) (cls : option Serial) (opened : Serial)
          (a : string) (v : bool),
      match ('(w, ser) <- ELL14_64.__init__ cls opened a v ;;
             run_all cs w ser) with
      | Ok (w', _) => centi64 (get_position_deg w')
      | Raise _ => True
      end) /\
  (exists self',
      _update_position self "0PO00000002" = Ok self' /\
      get_position_deg self' = of_Q (1 # 100) /\
      (360 / inject_Z pulses_per_turn <
       Qabs (to_Q (get_position_deg self') - to_Q (reported_deg 2)))%Q).
Proof.
  intro P. split; [| split].
  - destruct (_update_position_cases64 self resp) as [[E _] | (n' & E & B & U)];
      rewrite E in P; [discriminate |]. injection P as ->.
    destruct (round2_double_spec _ _ (reported_deg_below n B))
      as (k & K & C & D).
    exists k. split; [exact K |]. split; [exact C |].
    eexists. split; [exact U |]. cbn [set_position address verbose
                                     get_position_deg position].
    repeat split; try reflexivity. exact D.
  - intros cs cls opened a v. cbn [ELL14_64.__init__ bind].
    apply run_all_centi64. right. exists 0. reflexivity.
  - eexists. split; [reflexivity |]. split; [reflexivity |].
    vm_compute. reflexivity.
Qed.

Lemma cached_position_is_quantized_witness :
  int16_chars (DriverSpec.pos_hex "0PO000001C0") = Ok 448 /\
  (to_Q (reported_deg 448) == 1125 # 1000)%Q /\
  exists self',
    _update_position (Examples64.stage "0" 0) "0PO000001C0" = Ok self' /\
    get_position_deg self' = of_Q (112 # 100).
Proof.
  split; [reflexivity |]. split; [reflexivity |].
  destruct (cached_position_is_quantized (Examples64.stage "0" 0)
              "0PO000001C0" 448 eq_refl)
    as ((k & K & _ & self' & U & _ & _ & G & _) & _).
  exists self'. split; [exact U |]. rewrite G. reflexivity.
Defined.

End Cache64Claims.

(** ** Facts about the optimizer in binary64 *)

Module Optimizer64Facts.
Import Py ELL14 Binary64 Binary64Facts ELL14_64 Compensation Compensation_64.
Import Spec64 Driver64Facts.

(** A move of the active stage: the conversion decides whether anything
    is sent. *)
Lemma move_current_cases (self : ContinuousPolarizationOptimizer)
      (ser : Serial) (w : ElliptecController) (degrees : double) :
  getitem2 (_waveplates self) (_current_wp self) = Ok w ->
  match _deg_to_pulses degrees with
  | Ok p =>
      exists w' ser',
        move_current self ser degrees =
        Ok (set_waveplates self
              (mutated2 (_waveplates self) (_current_wp self) w'), ser') /\
        written ser' = written ser ++ [frame w "ma" p; crlf] /\
        device ser' = device ser /\
        address w' = address w
  | Raise e => move_current self ser degrees = Raise e
  end.
Proof.
  intro G. unfold move_current. rewrite G. cbn [bind].
  unfold move_absolute_deg.
  pose proof (move_deg_cases "ma" w ser degrees) as M. unfold hex8 in M.
  destruct (_deg_to_pulses degrees) as [p | e].
  - destruct M as (w' & ser' & resp & H & W & D & A & _).
    rewrite H. cbn [bind]. exists w', ser'. auto.
  - rewrite M. reflexivity.
Qed.


Lemma compute_and_move_target (self : ContinuousPolarizationOptimizer)
      (ser : Serial) :
  compute_and_move self ser (_origin_position self) =
  (square <- pow2_double (_max_stepsize_deg self) ;;
   move_current self ser (newton_target self (q_left self) square)).
Proof.
  unfold compute_and_move, newton_target, dQ_dV, dQ2_dV2, clamped,
    q_left, q_center, q_right.
  destruct (_qbers self) as [[q_l q] q_r]. cbn [fst snd].
  destruct (pow2_double (_max_stepsize_deg self)) as [square |];
    cbn [bind]; [| reflexivity].
  repeat match goal with
         | |- context [if lt64 ?a ?b then _ else _] => destruct (lt64 a b)
         end; reflexivity.
Qed.

(** A descent step in the compute phase: the sample is stored as the left
    one, the square of the step size is taken, the target is computed from
    the three samples and the stored origin, and the step ends with
    [advance]. *)
Lemma descent_compute_phase64 (self : ContinuousPolarizationOptimizer)
      (ser : Serial) (qber : double) :
  _current_pos self = 0%nat ->
  lt64 qber (_threshold self) = false ->
  coordinate_descent_2nd_order self ser qber =
  (square <- pow2_double (_max_stepsize_deg self) ;;
   '(self', ser') <-
     move_current (set_qbers self (qber, q_center self, q_right self)) ser
       (newton_target self qber square) ;;
   Ok (advance self', ser')).
Proof.
  intros H0 Hthr. unfold coordinate_descent_2nd_order, q_center, q_right.
  rewrite Hthr, H0.
  repeat (progress (cbn [Nat.eqb bind _current_pos set_qbers]; rewrite ?H0)).
  destruct (_qbers self) as [[q_l q] q_r] eqn:Eq.
  repeat (progress (cbn [Nat.eqb bind setitem3 fst snd _current_pos set_qbers];
                    rewrite ?H0)).
  match goal with
  | |- context [compute_and_move ?s ser _] =>
      change (_origin_position self) with (_origin_position s);
      rewrite (compute_and_move_target s ser)
  end.
  cbn [_max_stepsize_deg set_qbers].
  destruct (pow2_double (_max_stepsize_deg self)) as [square |];
    cbn [bind]; [| reflexivity].
  unfold newton_target, dQ_dV, dQ2_dV2, q_left, q_center, q_right.
  cbn [_qbers set_qbers fst snd _max_stepsize_deg _origin_position].
  rewrite Eq. reflexivity.
Qed.

(** The two probe phases. *)
Lemma descent_probe_phase64 (self : ContinuousPolarizationOptimizer)
      (ser : Serial) (qber : double) (w : ElliptecController) :
  (_current_pos self = 1 \/ _current_pos self = 2)%nat ->
  lt64 qber (_threshold self) = false ->
  getitem2 (_waveplates self) (_current_wp self) = Ok w ->
  let origin := if (_current_pos self =? 1)%nat then get_position_deg w
                else _origin_position self in
  let target := if (_current_pos self =? 1)%nat
                then add64 origin (_max_stepsize_deg self)
                else sub64 origin (_max_stepsize_deg self) in
  match _deg_to_pulses target with
  | Ok p =>
      exists self' ser' w',
        coordinate_descent_2nd_order self ser qber = Ok (self', ser') /\
        written ser' = written ser ++ [frame w "ma" p; crlf] /\
        _origin_position self' = origin /\
        _qbers self' =
        (if (_current_pos self =? 1)%nat
         then (q_left self, qber, q_right self)
         else (q_left self, q_center self, qber)) /\
        _current_pos self' = (S (_current_pos self) mod 3)%nat /\
        _current_wp self' = _current_wp self /\
        _waveplates self' = mutated2 (_waveplates self) (_current_wp self) w' /\
        address w' = address w /\
        _positions self' = get_positions self' /\
        device ser' = device ser /\
        _max_stepsize_deg self' = _max_stepsize_deg self /\
        _threshold self' = _threshold self /\
        _n_stored self' = _n_stored self /\
        _previous_qbers self' = _previous_qbers self /\
        _previous_positions self' = _previous_positions self
  | Raise e => coordinate_descent_2nd_order self ser qber = Raise e
  end.
Proof.
  intros Hpos Hthr G origin target.
  unfold coordinate_descent_2nd_order. rewrite Hthr.
  unfold q_left, q_center, q_right.
  destruct (_qbers self) as [[q_l q] q_r] eqn:Eq.
  subst target origin.
  destruct Hpos as [P | P]; rewrite P; cbn [Nat.eqb];
    rewrite ?G;
    repeat (progress (cbn [bind setitem3 Nat.eqb _qbers _current_pos
                           _max_stepsize_deg set_origin_position set_qbers];
                      rewrite ?Eq, ?P));
    match goal with
    | |- context [move_current ?s ser ?d] =>
        pose proof (move_current_cases s ser w d G) as M;
        destruct (_deg_to_pulses d) as [p | e];
        [destruct M as (w' & ser' & M & W & D & A) | ];
        rewrite M
    end;
    try reflexivity;
    repeat (progress (cbn [bind Nat.eqb _current_pos set_waveplates
                           set_origin_position set_qbers];
                      rewrite ?P));
    (eexists _, _, w'; split; [reflexivity |]);
    (split; [exact W |]);
    unfold advance; cbn; rewrite P; cbn;
    repeat split; try reflexivity; assumption.
Qed.

Lemma getitem2_in_range {A : Type} (t : A * A) (i : nat) :
  (i < 2)%nat -> exists a, getitem2 t i = Ok a.
Proof.
  intro H. destruct i as [| [| n]]; [eexists; reflexivity .. | lia].
Qed.

(** The [try] block of the random search touches the operating point and
    the history only. *)
Lemma random_minimizer_try_frame
      (self self' : ContinuousPolarizationOptimizer) (qber : double) :
  random_minimizer_try self qber = Ok self' ->
  _waveplates self' = _waveplates self /\
  _max_stepsize_deg self' = _max_stepsize_deg self /\
  _threshold self' = _threshold self /\
  _n_stored self' = _n_stored self /\
  _current_wp self' = _current_wp self /\
  _current_pos self' = _current_pos self /\
  _origin_position self' = _origin_position self /\
  _qbers self' = _qbers self.
Proof.
  unfold random_minimizer_try.
  destruct (np_min _) as [m |]; cbn [bind]; [| discriminate].
  match goal with
  | |- context [bind ?c _] => destruct c as [chosen |]
  end; cbn [bind]; [| discriminate].
  cbn [_previous_qbers _n_stored set_positions].
  destruct (_ <? _); intro H; injection H as <-; repeat split.
Qed.

(** A whole step of the random search, whatever the [try] block did. *)
Lemma random_minimizer_cases (self : ContinuousPolarizationOptimizer)
      (ser : Serial) (qber delta_phi : double) (wp : nat)
      (w : ElliptecController) :
  getitem2 (_waveplates self) wp = Ok w ->
  match _deg_to_pulses delta_phi with
  | Ok p =>
      exists self' ser' w',
        random_minimizer self ser qber delta_phi wp = Ok (self', ser') /\
        written ser' = written ser ++ [frame w "mr" p; crlf] /\
        device ser' = device ser /\
        _waveplates self' = mutated2 (_waveplates self) wp w' /\
        address w' = address w /\
        _update_position w (fst (_send_cmd w ser ("mr" ++ hex8 p))) = Ok w' /\
        ser' = snd (_send_cmd w ser ("mr" ++ hex8 p)) /\
        _positions self' = get_positions self' /\
        _max_stepsize_deg self' = _max_stepsize_deg self /\
        _threshold self' = _threshold self /\
        _n_stored self' = _n_stored self
  | Raise e => random_minimizer self ser qber delta_phi wp = Raise e
  end.
Proof.
  intro G. unfold random_minimizer.
  set (s0 := match random_minimizer_try self qber with
             | Ok self' => self'
             | Raise _ => self
             end).
  assert (F : _waveplates s0 = _waveplates self /\
              _max_stepsize_deg s0 = _max_stepsize_deg self /\
              _threshold s0 = _threshold self /\
              _n_stored s0 = _n_stored self).
  { unfold s0. destruct (random_minimizer_try self qber) as [s |] eqn:T.
    - destruct (random_minimizer_try_frame self s qber T) as (A & B & C & D & _).
      auto.
    - auto. }
  destruct F as (Fw & Fm & Ft & Fn). rewrite Fw, G. cbn [bind].
  unfold move_relative_deg.
  destruct (_deg_to_pulses delta_phi) as [p | e]; cbn [bind]; [| reflexivity].
  fold (hex8 p). unfold send_and_update.
  destruct (_send_cmd w ser ("mr" ++ hex8 p)) as [resp ser'] eqn:E.
  cbn [fst snd].
  destruct (_update_position_total64 w resp) as (w' & U & A & _).
  rewrite U. cbn [bind]. eexists _, ser', w'. split; [reflexivity |].
  unfold _send_cmd in E. injection E as _ <-.
  split; [cbn; rewrite <- app_assoc; reflexivity |].
  split; [reflexivity |]. cbn. repeat split; assumption.
Qed.

End Optimizer64Facts.

(** ** The coordinate descent in binary64 *)

Module Descent64Claims.
Import Py ELL14 Binary64 Binary64Facts ELL14_64 Compensation Compensation_64.
Import Spec64 Driver64Facts Optimizer64Facts.





(** The curvature is the computed one: for the samples 0.03, 0.02 and 0.01
    it is exactly zero in binary64 although the three doubles do not lie on
    a line, and the stage is sent 5 degrees below the origin. *)
Lemma rounded_curvature_vanishes :
  let self := Examples64.probing 2 0 (2 # 100) (1 # 100) in
  let qber := of_Q (3 # 100) in
  dQ2_dV2 self qber (of_Z 4) = S754_zero false /\
  ~ (to_Q (q_right self) - 2 * to_Q (q_center self) + to_Q qber == 0)%Q /\
  exists self' ser',
    coordinate_descent_2nd_order self Examples.port qber = Ok (self', ser') /\
    written ser' = ["0maFFFFF839"%string; crlf].
Proof.
  cbv zeta. split; [reflexivity |]. split; [vm_compute; discriminate |].
  eexists _, _. split; vm_compute; reflexivity.
Qed.

(** A step size whose square is beyond the doubles: the power raises. *)
Lemma huge_step_size_raises :
  coordinate_descent_2nd_order
    (set_current_pos
       (Examples64.optimizer (Examples64.stage "0" 0) (Examples64.stage "2" 0)
                             (inject_Z (10 ^ 200)) 1) 0)
    Examples.port (of_Q (1 # 5)) = Raise OverflowError.
Proof. vm_compute. reflexivity. Qed.

(** X10: whatever the three samples and the step size, a compute phase
    either raises [ValueError] (a step that is NaN), raises [OverflowError]
    (a step size whose square, or a target whose pulse count, is beyond the
    doubles) or sends exactly one move-absolute command, whose target is
    the origin of the probe minus or plus a step of at most 5 degrees. *)
Theorem compute_phase_moves_at_most_5
        (self : ContinuousPolarizationOptimizer) (ser : Serial) (qber : double)
        (w : ElliptecController) :
  _current_pos self = 0%nat ->
  lt64 qber (_threshold self) = false ->
  getitem2 (_waveplates self) (_current_wp self) = Ok w ->
  coordinate_descent_2nd_order self ser qber = Raise ValueError \/
  coordinate_descent_2nd_order self ser qber = Raise OverflowError \/
  exists step p self' ser',
    le64 (abs64 step) (of_Z 5) = true /\
    (_deg_to_pulses (sub64 (_origin_position self) step) = Ok p \/
     _deg_to_pulses (add64 (_origin_position self) step) = Ok p) /\
    coordinate_descent_2nd_order self ser qber = Ok (self', ser') /\
    written ser' = written ser ++ [frame w "ma" p; crlf].
Proof.
  intros H0 Hthr G. rewrite (descent_compute_phase64 self ser qber H0 Hthr).
  destruct (pow2_double (_max_stepsize_deg self)) as [square | e] eqn:Sq;
    cbn [bind].
  2: { right. left. rewrite (pow2_double_raises _ _ Sq). reflexivity. }
  set (target := newton_target self qber square).
  set (step := clamped (div64 (dQ_dV self qber) (dQ2_dV2 self qber square))).
  assert (T : target = sub64 (_origin_position self) step \/
              target = add64 (_origin_position self) step).
  { unfold target, newton_target. fold step.
    destruct (lt64 (of_Z 0) (dQ2_dV2 self qber square)); auto. }
  pose proof (move_current_cases
                (set_qbers self (qber, q_center self, q_right self))
                ser w target G) as M.
  destruct (clamped_bound (div64 (dQ_dV self qber) (dQ2_dV2 self qber square)))
    as [N | B]; fold step in N || fold step in B.
  - left. assert (E : target = S754_nan).
    { destruct T as [-> | ->]; rewrite N;
        [apply sub64_nan_r | apply add64_nan_r]. }
    rewrite E in M |- *. cbn in M. rewrite M. reflexivity.
  - destruct (_deg_to_pulses target) as [p | e] eqn:E.
    + right. right. destruct M as (w' & ser' & M & W & _).
      rewrite M. cbn [bind]. exists step, p. eexists _, ser'.
      split; [exact B |]. split; [| split; [reflexivity | exact W]].
      destruct T as [<- | <-]; auto.
    + rewrite M. destruct (_deg_to_pulses_raises _ _ E) as [-> | ->]; auto.
Qed.

Lemma compute_phase_moves_at_most_5_witness :
  exists self' ser',
    coordinate_descent_2nd_order
      (Examples64.probing 2 0 (149 # 1000) (2 # 10)) Examples.port
      (of_Q (1 # 10)) = Ok (self', ser') /\
    written ser' = ["0maFFFFF839"%string; crlf].
Proof.
  destruct (compute_phase_moves_at_most_5
              (Examples64.probing 2 0 (149 # 1000) (2 # 10)) Examples.port
              (of_Q (1 # 10)) (Examples64.stage "0" 0))
    as [V | [O | (step & p & self' & ser' & _ & _ & R & _)]];
    try reflexivity.
  - vm_compute in V. discriminate.
  - vm_compute in O. discriminate.
  - exists self', ser'. split; [exact R |].
    vm_compute in R. injection R as _ <-. reflexivity.
Defined.

(** X12: in the centre phase (slot 1) a sample not below the threshold
    makes the active stage's cached position the origin of the probe and
    asks for origin + max_stepsize_deg, the sum taken in binary64.  When
    that target converts to a pulse count the call completes: the sample is
    stored as the centre one, exactly one move-absolute command with that
    count is sent, and the slot advances to 2 on the same stage.  When it
    does not, the conversion's exception leaves the call. *)
Theorem centre_phase_probes_plus
        (self : ContinuousPolarizationOptimizer) (ser : Serial) (qber : double)
        (w : ElliptecController) :
  _current_pos self = 1%nat ->
  lt64 qber (_threshold self) = false ->
  getitem2 (_waveplates self) (_current_wp self) = Ok w ->
  match _deg_to_pulses (add64 (get_position_deg w) (_max_stepsize_deg self)) with
  | Ok p =>
      exists self' ser',
        coordinate_descent_2nd_order self ser qber = Ok (self', ser') /\
        written ser' = written ser ++ [frame w "ma" p; crlf] /\
        _origin_position self' = get_position_deg w /\
        _qbers self' = (q_left self, qber, q_right self) /\
        _current_pos self' = 2%nat /\
        _current_wp self' = _current_wp self
  | Raise e => coordinate_descent_2nd_order self ser qber = Raise e
  end.
Proof.
  intros P Hthr G.
  pose proof (descent_probe_phase64 self ser qber w (or_introl P) Hthr G) as D.
  cbv zeta in D. rewrite P in D. cbn [Nat.eqb] in D.
  destruct (_deg_to_pulses _) as [p | e]; [| exact D].
  destruct D as (self' & ser' & w' & R & W & O & Q & Pos & Wp & _).
  exists self', ser'. auto 10.
Qed.

Lemma centre_phase_probes_plus_witness :
  exists self' ser',
    coordinate_descent_2nd_order
      (Examples64.optimizer (Examples64.stage "0" (215 # 100))
                            (Examples64.stage "2" 0) (1 # 10) 1)
      Examples.port (of_Q (1 # 5)) = Ok (self', ser') /\
    written ser' = ["0ma00000380"%string; crlf] /\
    _current_pos self' = 2%nat /\
    int_of_float ((to_Q (of_Q (215 # 100)) + to_Q (of_Q (1 # 10)))
                  * 143360 / 360)%Q = 0x37F.
Proof.
  pose proof (centre_phase_probes_plus
                (Examples64.optimizer (Examples64.stage "0" (215 # 100))
                                      (Examples64.stage "2" 0) (1 # 10) 1)
                Examples.port (of_Q (1 # 5))
                (Examples64.stage "0" (215 # 100))
                eq_refl eq_refl eq_refl) as T.
  match type of T with
  | match ?c with _ => _ end => change c with (@Ok Z 896) in T
  end.
  destruct T as (self' & ser' & R & W & _ & _ & P & _).
  exists self', ser'. split; [exact R |]. split; [rewrite W; reflexivity |].
  split; [exact P | reflexivity].
Defined.

(** X13: in the second probe phase (slot 2) a sample not below the
    threshold keeps the origin and asks for origin - max_stepsize_deg, the
    difference taken in binary64.  When that target converts to a pulse
    count the call completes: the sample is stored as the right-hand one,
    exactly one move-absolute command with that count is sent, and the slot
    advances to 0 (compute) on the same stage.  When it does not, the
    conversion's exception leaves the call. *)
Theorem plus_phase_probes_minus
        (self : ContinuousPolarizationOptimizer) (ser : Serial) (qber : double)
        (w : ElliptecController) :
  _current_pos self = 2%nat ->
  lt64 qber (_threshold self) = false ->
  getitem2 (_waveplates self) (_current_wp self) = Ok w ->
  match _deg_to_pulses (sub64 (_origin_position self) (_max_stepsize_deg self)) with
  | Ok p =>
      exists self' ser',
        coordinate_descent_2nd_order self ser qber = Ok (self', ser') /\
        written ser' = written ser ++ [frame w "ma" p; crlf] /\
        _origin_position self' = _origin_position self /\
        _qbers self' = (q_left self, q_center self, qber) /\
        _current_pos self' = 0%nat /\
        _current_wp self' = _current_wp self
  | Raise e => coordinate_descent_2nd_order self ser qber = Raise e
  end.
Proof.
  intros P Hthr G.
  pose proof (descent_probe_phase64 self ser qber w (or_intror P) Hthr G) as D.
  cbv zeta in D. rewrite P in D. cbn [Nat.eqb] in D.
  destruct (_deg_to_pulses _) as [p | e]; [| exact D].
  destruct D as (self' & ser' & w' & R & W & O & Q & Pos & Wp & _).
  exists self', ser'. auto 10.
Qed.

Lemma plus_phase_probes_minus_witness :
  exists self' ser',
    coordinate_descent_2nd_order
      (set_current_pos
         (set_origin_position
            (Examples64.optimizer (Examples64.stage "0" (225 # 100))
                                  (Examples64.stage "2" 0) (1 # 10) 1)
            (of_Q (215 # 100))) 2)
      Examples.port (of_Q (1 # 5)) = Ok (self', ser') /\
    written ser' = ["0ma00000330"%string; crlf] /\
    _current_pos self' = 0%nat.
Proof.
  pose proof (plus_phase_probes_minus
                (set_current_pos
                   (set_origin_position
                      (Examples64.optimizer (Examples64.stage "0" (225 # 100))
                                            (Examples64.stage "2" 0) (1 # 10) 1)
                      (of_Q (215 # 100))) 2)
                Examples.port (of_Q (1 # 5))
                (Examples64.stage "0" (225 # 100))
                eq_refl eq_refl eq_refl) as T.
  match type of T with
  | match ?c with _ => _ end =>
      let v := eval vm_compute in c in change c with v in T
  end.
  destruct T as (self' & ser' & R & W & _ & _ & P & _).
  exists self', ser'. split; [exact R |]. split; [rewrite W; reflexivity |].
  exact P.
Defined.

(** X23: after a call below the threshold, which sends nothing, the next
    call not below it starts a fresh probe on stage 0, whatever stage and
    slot the optimizer was at before: it takes stage 0's cached position as
    the origin and asks for origin + max_stepsize_deg (in binary64); when
    that target converts to a pulse count, one move-absolute command with
    that count goes to stage 0 and the optimizer goes on to slot 2 of
    stage 0. *)
Theorem descent_restarts_on_stage_0
        (self : ContinuousPolarizationOptimizer) (ser : Serial)
        (low high : double) :
  lt64 low (_threshold self) = true ->
  lt64 high (_threshold self) = false ->
  exists self1,
    coordinate_descent_2nd_order self ser low = Ok (self1, ser) /\
    match _deg_to_pulses
            (add64 (get_position_deg (fst (_waveplates self)))
                   (_max_stepsize_deg self)) with
    | Ok p =>
        exists self2 ser2,
          coordinate_descent_2nd_order self1 ser high = Ok (self2, ser2) /\
          written ser2 =
          written ser ++ [frame (fst (_waveplates self)) "ma" p; crlf] /\
          _origin_position self2 = get_position_deg (fst (_waveplates self)) /\
          _current_wp self2 = 0%nat /\ _current_pos self2 = 2%nat
    | Raise e => coordinate_descent_2nd_order self1 ser high = Raise e
    end.
Proof.
  intros Hlow Hhigh.
  set (self1 := set_current_pos (set_current_wp self 0) 1).
  exists self1. split.
  { unfold coordinate_descent_2nd_order. rewrite Hlow. reflexivity. }
  pose proof (descent_probe_phase64 self1 ser high (fst (_waveplates self))
                (or_introl eq_refl) Hhigh eq_refl) as D.
  cbv zeta in D. cbn [_current_pos self1 set_current_pos Nat.eqb] in D.
  change (_max_stepsize_deg self1) with (_max_stepsize_deg self) in D.
  destruct (_deg_to_pulses _) as [p | e]; [| exact D].
  destruct D as (self2 & ser2 & w' & R2 & W & O & _ & P & Wp & _).
  exists self2, ser2. auto 10.
Qed.

Lemma descent_restarts_on_stage_0_witness :
  exists self1 self2 ser2,
    coordinate_descent_2nd_order
      (Examples64.probing 2 0 (1 # 4) (3 # 8)) Examples.port (of_Q (5 # 1000))
    = Ok (self1, Examples.port) /\
    coordinate_descent_2nd_order self1 Examples.port (of_Q (1 # 5))
    = Ok (self2, ser2) /\
    written ser2 = ["0ma0000031C"%string; crlf] /\
    _current_wp self2 = 0%nat /\ _current_pos self2 = 2%nat.
Proof.
  destruct (descent_restarts_on_stage_0
              (Examples64.probing 2 0 (1 # 4) (3 # 8)) Examples.port
              (of_Q (5 # 1000)) (of_Q (1 # 5)) eq_refl eq_refl)
    as (self1 & R1 & T).
  match type of T with
  | match ?c with _ => _ end =>
      let v := eval vm_compute in c in change c with v in T
  end.
  destruct T as (self2 & ser2 & R2 & W & _ & Wp & P).
  exists self1, self2, ser2. split; [exact R1 |]. split; [exact R2 |].
  split; [rewrite W; reflexivity |]. split; assumption.
Defined.

End Descent64Claims.

(** ** The random search in binary64 *)

Module Search64Claims.
Import Py ELL14 Binary64 Binary64Facts ELL14_64 Compensation Compensation_64.
Import Spec64 Driver64Facts Optimizer64Facts.

(** C6 (what the code does instead): the operating point the [try] block
    chooses does not outlast the step.  A step that completes has sent one
    move-relative command, by the drawn amplitude from wherever the drawn
    stage stands, and no command that takes a stage back to a stored
    position; it ends with [_positions] equal to the positions the stages
    report; and the port and the stages, hence [_positions], are the same
    whatever the sample was, below the stored minimum or not. *)
Theorem operating_point_is_not_restored
        (self self' : ContinuousPolarizationOptimizer) (ser ser' : Serial)
        (qber delta_phi : double) (wp : nat) :
  random_minimizer self ser qber delta_phi wp = Ok (self', ser') ->
  _positions self' = get_positions self' /\
  (exists w p,
      getitem2 (_waveplates self) wp = Ok w /\
      _deg_to_pulses delta_phi = Ok p /\
      written ser' = written ser ++ [frame w "mr" p; crlf]) /\
  (forall other : double,
      exists self2,
        random_minimizer self ser other delta_phi wp = Ok (self2, ser') /\
        _waveplates self2 = _waveplates self' /\
        _positions self2 = _positions self').
Proof.
  intro H.
  destruct (getitem2 (_waveplates self) wp) as [w | e] eqn:G.
  2: { exfalso. unfold random_minimizer in H.
       assert (F : _waveplates
                     match random_minimizer_try self qber with
                     | Ok s => s
                     | Raise _ => self
                     end = _waveplates self).
       { destruct (random_minimizer_try self qber) as [s |] eqn:T;
           [| reflexivity].
         exact (proj1 (random_minimizer_try_frame self s qber T)). }
       rewrite F, G in H. discriminate. }
  pose proof (random_minimizer_cases self ser qber delta_phi wp w G) as C.
  destruct (_deg_to_pulses delta_phi) as [p | e] eqn:D;
    [| rewrite C in H; discriminate].
  destruct C as (s & r & w' & R & W & _ & V & _ & U & S & P & _).
  rewrite R in H. injection H as <- <-.
  split; [exact P |]. split; [exists w, p; auto |].
  intro other.
  pose proof (random_minimizer_cases self ser other delta_phi wp w G) as C2.
  rewrite D in C2.
  destruct C2 as (s2 & r2 & w2 & R2 & _ & _ & V2 & _ & U2 & S2 & P2 & _).
  rewrite U in U2. injection U2 as <-. rewrite <- S in S2. subst r2.
  exists s2. split; [exact R2 |]. split; [congruence |].
  rewrite P, P2. unfold get_positions. rewrite V, V2. reflexivity.
Qed.

(** The failing input of C6: the stored QBERs are 0.05, 0.03 and 0.04 and
    the sample is 0.04.  The [try] block chooses the position stored with
    0.03, but the step then moves stage 0 by one degree from where it
    stands and ends with the stages' positions as operating point. *)
Lemma operating_point_is_not_restored_witness :
  (exists chosen,
      random_minimizer_try Examples64.remembering (of_Q (4 # 100)) = Ok chosen /\
      _positions chosen = (of_Z 30, of_Z 40)) /\
  exists self' ser',
    random_minimizer Examples64.remembering Examples.port (of_Q (4 # 100))
                     (of_Z 1) 0 = Ok (self', ser') /\
    written ser' = ["0mr0000018E"%string; crlf] /\
    _positions self' = (S754_zero false, S754_zero false) /\
    _positions self' <> (of_Z 30, of_Z 40) /\
    exists self2,
      random_minimizer Examples64.remembering Examples.port (of_Q (1 # 100))
                       (of_Z 1) 0 = Ok (self2, ser') /\
      _positions self2 = _positions self'.
Proof.
  split; [eexists; split; vm_compute; reflexivity |].
  assert (R : exists self' ser',
             random_minimizer Examples64.remembering Examples.port
                              (of_Q (4 # 100)) (of_Z 1) 0 = Ok (self', ser'))
    by (eexists _, _; vm_compute; reflexivity).
  destruct R as (self' & ser' & R).
  destruct (operating_point_is_not_restored _ _ _ _ _ _ _ R)
    as (P & (w & p & G & D & W) & I).
  destruct (I (of_Q (1 # 100))) as (self2 & R2 & _ & P2).
  exists self', ser'. split; [exact R |].
  assert (E : written ser' = ["0mr0000018E"%string; crlf] /\
              _positions self' = (S754_zero false, S754_zero false)).
  { vm_compute in R. injection R as <- <-. split; reflexivity. }
  destruct E as [E1 E2]. split; [exact E1 |]. split; [exact E2 |].
  split; [rewrite E2; vm_compute; discriminate |].
  exists self2. split; [exact R2 | exact P2].
Defined.

(** X16: a random-search step, whatever the state, the sample and the
    outcome of the [try] block, converts the drawn amplitude to pulses in
    binary64; when the conversion returns a count the step completes,
    having written exactly one move-relative command with that count to
    the drawn stage and nothing else, and holds the stages' cached
    positions as its own; when the conversion raises (a NaN amplitude, a
    product beyond the doubles), so does the step, and nothing is sent. *)
Theorem random_step_one_relative_move
        (self : ContinuousPolarizationOptimizer) (ser : Serial)
        (qber delta_phi : double) (wp : nat) (w : ElliptecController) :
  getitem2 (_waveplates self) wp = Ok w ->
  match _deg_to_pulses delta_phi with
  | Ok p =>
      exists self' ser' w',
        random_minimizer self ser qber delta_phi wp = Ok (self', ser') /\
        written ser' = written ser ++ [frame w "mr" p; crlf] /\
        device ser' = device ser /\
        _waveplates self' = mutated2 (_waveplates self) wp w' /\
        address w' = address w /\
        _positions self' = get_positions self' /\
        _max_stepsize_deg self' = _max_stepsize_deg self /\
        _threshold self' = _threshold self /\
        _n_stored self' = _n_stored self
  | Raise e => random_minimizer self ser qber delta_phi wp = Raise e
  end.
Proof.
  intro G.
  pose proof (random_minimizer_cases self ser qber delta_phi wp w G) as C.
  destruct (_deg_to_pulses delta_phi) as [p | e]; [| exact C].
  destruct C as (s & r & w' & R & W & D & V & A & _ & _ & P & M & T & N).
  exists s, r, w'. auto 12.
Qed.

Lemma random_step_one_relative_move_witness :
  (exists self' ser' w',
      random_minimizer Examples64.remembering Examples.port (of_Q (4 # 100))
                       (div64 (mul64 (of_Z 9) (of_Z 360)) (of_Z 143360)) 1
      = Ok (self', ser') /\
      written ser' = ["2mr00000009"%string; crlf] /\
      _waveplates self' = (Examples64.stage "0" 0, w')) /\
  random_minimizer Examples64.remembering Examples.port (of_Q (4 # 100))
                   (of_Z (2 ^ 1023)) 1 = Raise OverflowError.
Proof.
  pose proof (random_step_one_relative_move
                Examples64.remembering Examples.port (of_Q (4 # 100))
                (div64 (mul64 (of_Z 9) (of_Z 360)) (of_Z 143360)) 1
                (Examples64.stage "2" 0) eq_refl) as A.
  pose proof (random_step_one_relative_move
                Examples64.remembering Examples.port (of_Q (4 # 100))
                (of_Z (2 ^ 1023)) 1 (Examples64.stage "2" 0) eq_refl) as B.
  match type of A with
  | match ?c with _ => _ end => change c with (@Ok Z 9) in A
  end.
  match type of B with
  | match ?c with _ => _ end => change c with (@Raise Z OverflowError) in B
  end.
  split; [| exact B].
  destruct A as (self' & ser' & w' & R & W & _ & V & _).
  exists self', ser', w'. split; [exact R |].
  split; [rewrite W; reflexivity | exact V].
Defined.

End Search64Claims.

(** ** The angle grids of the QBER map in binary64 *)

Module Map64Claims.
Import Py Binary64 Binary64Facts ELL14_64 QberMap_64 MapSpec64.

Lemma double_eqb_eq (x y : double) : double_eqb x y = true -> x = y.
Proof.
  destruct x as [a | a | | a m e]; destruct y as [b | b | | b n f];
    cbn [double_eqb]; try discriminate; intro H.
  - apply eqb_prop in H. congruence.
  - apply eqb_prop in H. congruence.
  - reflexivity.
  - apply andb_true_iff in H. destruct H as [H He].
    apply andb_true_iff in H. destruct H as [Hs Hm].
    apply eqb_prop in Hs. apply Pos.eqb_eq in Hm. apply Z.eqb_eq in He.
    congruence.
Qed.

Lemma list_eqb_eq (l : list double) :
  forall l', list_eqb double_eqb l l' = true -> l = l'.
Proof.
  induction l as [| a l IH]; intros [| b l'] H; cbn [list_eqb] in H;
    try discriminate; [reflexivity |].
  apply andb_true_iff in H. destruct H as [Ha Hl].
  rewrite (double_eqb_eq _ _ Ha), (IH _ Hl). reflexivity.
Qed.

Lemma whole_steps_checked :
  forallb arange_is_whole_grid (map Z.of_nat (seq 1 360)) = true.
Proof. vm_compute. reflexivity. Qed.

Lemma np_arange_whole (k : Z) :
  1 <= k <= 360 ->
  np_arange (of_Z (-180)) (add64 (of_Z 180) (of_Z k)) (of_Z k) =
  Ok (whole_grid k).
Proof.
  intro H. pose proof whole_steps_checked as C.
  rewrite forallb_forall in C. specialize (C k).
  assert (I : In k (map Z.of_nat (seq 1 360))).
  { apply in_map_iff. exists (Z.to_nat k). split; [lia |].
    apply in_seq. lia. }
  specialize (C I). unfold arange_is_whole_grid in C.
  destruct (np_arange _ _ _) as [l | e]; [| discriminate].
  rewrite (list_eqb_eq _ _ C). reflexivity.
Qed.

(** A whole number below [2^53] in magnitude is a double. *)
Lemma of_Z_exact (n : Z) :
  Z.abs n < 2 ^ 53 -> (to_Q (of_Z n) == inject_Z n)%Q.
Proof.
  intro H.
  destruct (of_Z_small n H) as [[-> ->] | (s & m & e & -> & V & R)];
    [reflexivity |].
  unfold to_Q. destruct e as [| q | q]; try lia.
  - change (- 0) with 0 in V. rewrite Z.pow_0_r in *.
    rewrite V, !Z.mul_1_r. reflexivity.
  - unfold Qeq. cbn [Qnum Qden inject_Z]. rewrite V.
    change (- Zneg q) with (Zpos q). rewrite Pos2Z.inj_pow. lia.
Qed.

Lemma grid_reaches_180 (k : Z) :
  1 <= k <= 360 ->
  180 <= -180 + Z.of_nat (grid_length k - 1) * k < 180 + k.
Proof.
  intro H. unfold grid_length.
  replace (S (Z.to_nat ((359 + k) / k)) - 1)%nat
    with (Z.to_nat ((359 + k) / k)) by lia.
  assert (0 <= (359 + k) / k) by (apply Z.div_pos; lia).
  rewrite Z2Nat.id by assumption.
  pose proof (Z.div_mod (359 + k) k ltac:(lia)) as D.
  pose proof (Z.mod_pos_bound (359 + k) k ltac:(lia)) as M.
  nia.
Qed.

(** X19: for a step of a whole number of degrees from 1 to 360 on each
    waveplate, the mapper is built and its two angle grids are exactly the
    whole angles -180, -180 + step, ... up to the first one at or above
    180: no angle carries a rounding error, the last one lies in
    [180, 180 + step), and the map has one row per angle of the second
    waveplate and one column per angle of the first, all zero. *)
Theorem mapper_grid_covers_range
        (waveplates : ElliptecController * ElliptecController)
        (k1 k2 : Z) (indiv_meas_duration : double) (filename : string) :
  1 <= k1 <= 360 -> 1 <= k2 <= 360 ->
  exists m,
    QberMap_64.__init__ waveplates (of_Z k1) (of_Z k2) indiv_meas_duration
                        filename = Ok m /\
    angles_wp1 m = whole_grid k1 /\ angles_wp2 m = whole_grid k2 /\
    (forall i, (i < grid_length k1)%nat ->
               exists a, nth_error (angles_wp1 m) i = Some a /\
                         (to_Q a == inject_Z (-180 + Z.of_nat i * k1))%Q) /\
    (forall j, (j < grid_length k2)%nat ->
               exists a, nth_error (angles_wp2 m) j = Some a /\
                         (to_Q a == inject_Z (-180 + Z.of_nat j * k2))%Q) /\
    180 <= -180 + Z.of_nat (grid_length k1 - 1) * k1 < 180 + k1 /\
    180 <= -180 + Z.of_nat (grid_length k2 - 1) * k2 < 180 + k2 /\
    qber_map m = np_zeros (grid_length k2) (grid_length k1).
Proof.
  intros H1 H2. unfold QberMap_64.__init__.
  rewrite (np_arange_whole k1 H1), (np_arange_whole k2 H2). cbn [bind].
  eexists. split; [reflexivity |].
  cbn [angles_wp1 angles_wp2 qber_map].
  assert (N : forall k i, 1 <= k <= 360 -> (i < grid_length k)%nat ->
              exists a, nth_error (whole_grid k) i = Some a /\
                        (to_Q a == inject_Z (-180 + Z.of_nat i * k))%Q).
  { intros k i Hk Hi. unfold whole_grid.
    rewrite nth_error_map, nth_error_seq.
    destruct (Nat.ltb_spec i (grid_length k)); [| lia]. cbn [option_map Nat.add].
    eexists. split; [reflexivity |]. apply of_Z_exact.
    pose proof (grid_reaches_180 k Hk) as G.
    assert (Z.of_nat i <= Z.of_nat (grid_length k - 1)) by lia.
    assert (Z.abs (-180 + Z.of_nat i * k) < 1000) by nia.
    assert (1000 < 2 ^ 53) by reflexivity. lia. }
  split; [reflexivity |]. split; [reflexivity |].
  split; [intros i Hi; exact (N k1 i H1 Hi) |].
  split; [intros j Hj; exact (N k2 j H2 Hj) |].
  split; [exact (grid_reaches_180 k1 H1) |].
  split; [exact (grid_reaches_180 k2 H2) |].
  unfold whole_grid. rewrite !length_map, !length_seq. reflexivity.
Qed.

Lemma mapper_grid_covers_range_witness :
  exists m,
    QberMap_64.__init__ (Examples64.stage "0" 0, Examples64.stage "2" 0)
                        (of_Z 10) (of_Z 10) (of_Q (2 # 10)) "map_qber.txt"
    = Ok m /\
    List.length (angles_wp1 m) = 37%nat /\
    last (angles_wp1 m) S754_nan = of_Z 180.
Proof.
  destruct (mapper_grid_covers_range
              (Examples64.stage "0" 0, Examples64.stage "2" 0) 10 10
              (of_Q (2 # 10)) "map_qber.txt") as (m & E & A & _);
    [lia | lia |].
  exists m. split; [exact E |]. rewrite A. split; reflexivity.
Defined.

(** With a step that is no whole number the grid can stop short of 180:
    for 1.2 degrees [np.arange] returns 301 angles, the last one below 180. *)
Lemma fractional_step_stops_short :
  exists l,
    np_arange (of_Z (-180)) (add64 (of_Z 180) (of_Q (12 # 10))) (of_Q (12 # 10))
    = Ok l /\
    List.length l = 301%nat /\
    (to_Q (last l S754_nan) < 180)%Q.
Proof. eexists. split; [vm_compute; reflexivity |]. split; reflexivity. Qed.

End Map64Claims.
